(** * starlark-go: the insertion-ordered hash table and the struct value

    A shallow embedding of
      - starlark/hashtable.go        (hashtable, OrderedStringDict),
      - starlarkstruct/hashtable.go  (the string-keyed copy of hashtable),
      - starlarkstruct/struct.go     (Struct)
    and the properties of their specification.

    Go values are modelled as follows.
      - uint32 is a Z with the wrap-around written out ([u32]).
      - A Go [error] is its message (a string); [nil] is [None].
      - A slice of buckets is a list; the nil slice is the empty list (the
        code only ever assigns [bucket0[:1]] or [make([]bucket, nb)], so a
        non-nil slice is never empty).
      - [*entry] is an address [addr] into the current table, [**entry] is
        a [link]: the address of [ht.head] or of some entry's [next].
      - A nil or dangling dereference and an index out of range are the
        outcome [Panics]; a loop of the model that ran out of its step
        budget is [OutOfFuel]. *)

From Stdlib Require Import ZArith Lia String Ascii OrdersEx Sorted.
From stdpp Require Import base tactics option list sorting.

#[local] Open Scope Z_scope.
#[local] Open Scope nat_scope.

(** ** Outcomes and results *)

Definition error := string.

Inductive result (A : Type) : Type :=
| Ok (a : A)
| Err (e : error).
Arguments Ok {A} a.
Arguments Err {A} e.

Inductive outcome (A : Type) : Type :=
| Returns (a : A)
| Panics
| OutOfFuel.
Arguments Returns {A} a.
Arguments Panics {A}.
Arguments OutOfFuel {A}.

#[export] Instance outcome_bind : MBind outcome := λ A B f m,
  match m with
  | Returns a => f a
  | Panics => Panics
  | OutOfFuel => OutOfFuel
  end.

(** A dereference: [None] stands for a nil or dangling pointer. *)
Definition deref {A} (o : option A) : outcome A :=
  match o with
  | Some a => Returns a
  | None => Panics
  end.

Definition u32 (z : Z) : Z := (z mod 2 ^ 32)%Z.

(** ** starlark/hashtable.go and starlarkstruct/hashtable.go *)

Module hashtable.

Record addr : Type := Addr { a_chain : nat; a_bucket : nat; a_slot : nat }.

#[export] Instance addr_eq_dec : EqDecision addr.
Proof. solve_decision. Defined.

Inductive link : Type :=
| LinkHead               (* &ht.head *)
| LinkNext (a : addr).   (* &e.next  *)

#[export] Instance link_eq_dec : EqDecision link.
Proof. solve_decision. Defined.

Definition bucketSize : nat := 8.

(** [overloaded]: the comparison with the load factor 6.5 is exact in
    float64 for every count below 2^50 (the counts are lengths of tables
    and of dictionaries in memory), so it is stated on integers. *)
Definition overloaded (elems buckets : Z) : bool :=
  ((Z.of_nat bucketSize <=? elems) && (13 * buckets <=? 2 * elems))%Z.

Section Table.
(** The key and value types, with what the table asks of them:
    [k.Hash()], [Equal(x, y)], the zero values of the two types and
    [None].  In package starlark both types are [Value]; in package
    starlarkstruct the key is a [string]. *)
Context {K V : Type}.
Variable Hash : K → result Z.
Variable Equal : K → K → result bool.
Variable nilK : K.
Variable nilV : V.
Variable None_ : V.

Record entry : Type := Entry {
  hash : Z;                  (* nonzero => in use *)
  key : K;
  value : V;
  next : option addr;        (* insertion order doubly-linked list *)
  prevLink : option link     (* address of link to this entry *)
}.

(** A bucket is its array of entries; a bucket together with the buckets
    that follow it through [next] is a [chain]. *)
Abbreviation bucket := (list entry) (only parsing).
Abbreviation chain := (list (list entry)) (only parsing).

Record hashtable : Type := Hashtable {
  table : list chain;        (* len is zero or a power of two *)
  len : Z;                   (* uint32 *)
  itercount : Z;             (* uint32: number of active iterators *)
  head : option addr;
  tailLink : option link;
  frozen : bool
}.

Definition zero_entry : entry := Entry 0%Z nilK nilV None None.
Definition zero_bucket : bucket := replicate bucketSize zero_entry.
(** [make([]bucket, n)] *)
Definition make_table (n : nat) : list chain := replicate n [zero_bucket].
(** [var ht hashtable] *)
Definition zero : hashtable := Hashtable [] 0%Z 0%Z None None false.

Definition with_table (ht : hashtable) (t : list chain) : hashtable :=
  Hashtable t (len ht) (itercount ht) (head ht) (tailLink ht) (frozen ht).
Definition with_len (ht : hashtable) (n : Z) : hashtable :=
  Hashtable (table ht) n (itercount ht) (head ht) (tailLink ht) (frozen ht).
Definition with_itercount (ht : hashtable) (n : Z) : hashtable :=
  Hashtable (table ht) (len ht) n (head ht) (tailLink ht) (frozen ht).
Definition with_head (ht : hashtable) (h : option addr) : hashtable :=
  Hashtable (table ht) (len ht) (itercount ht) h (tailLink ht) (frozen ht).
Definition with_tailLink (ht : hashtable) (l : option link) : hashtable :=
  Hashtable (table ht) (len ht) (itercount ht) (head ht) l (frozen ht).
Definition with_frozen (ht : hashtable) (b : bool) : hashtable :=
  Hashtable (table ht) (len ht) (itercount ht) (head ht) (tailLink ht) b.

Definition with_value (e : entry) (v : V) : entry :=
  Entry (hash e) (key e) v (next e) (prevLink e).
Definition with_next (e : entry) (n : option addr) : entry :=
  Entry (hash e) (key e) (value e) n (prevLink e).
Definition with_prevLink (e : entry) (l : option link) : entry :=
  Entry (hash e) (key e) (value e) (next e) l.

(** Reading and writing the entry at an address. *)
Definition get (t : list chain) (a : addr) : option entry :=
  match t !! a_chain a with
  | Some c => match c !! a_bucket a with
              | Some b => b !! a_slot a
              | None => None
              end
  | None => None
  end.

Definition set (t : list chain) (a : addr) (e : entry) : list chain :=
  alter (alter (<[a_slot a := e]>) (a_bucket a)) (a_chain a) t.

(** [*l = v] for a [**entry] l. *)
Definition store_link (ht : hashtable) (l : option link) (v : option addr)
  : outcome hashtable :=
  match l with
  | None => Panics
  | Some LinkHead => Returns (with_head ht v)
  | Some (LinkNext b) =>
      e ← deref (get (table ht) b);
      Returns (with_table ht (set (table ht) b (with_next e v)))
  end.

(** [h & uint32(len(ht.table)-1)] *)
Definition slot_index (t : list chain) (h : Z) : nat :=
  Z.to_nat (Z.land h (u32 (Z.of_nat (length t) - 1))).

(** The loop of [init]: [nb] is doubled while the table would be
    overloaded, which is at most [log2 (size + 1)] times. *)
Fixpoint init_nb (fuel : nat) (size : Z) (nb : nat) : outcome nat :=
  if overloaded size (Z.of_nat nb) then
    match fuel with
    | O => OutOfFuel
    | S f => init_nb f size (2 * nb)
    end
  else Returns nb.

Definition init (ht : hashtable) (size : Z) : outcome hashtable :=
  if (size <? 0)%Z then Panics
  else
    nb ← init_nb (Z.to_nat (Z.log2_up (size + 1))) size 1;
    Returns (with_tailLink (with_table ht (make_table nb)) (Some LinkHead)).

(** [for e := start; e != nil; e = e.next]: the entries visited. *)
Fixpoint walk (fuel : nat) (t : list chain) (cur : option addr)
  : outcome (list entry) :=
  match cur with
  | None => Returns []
  | Some a =>
      match fuel with
      | O => OutOfFuel
      | S f =>
          e ← deref (get t a);
          rest ← walk f t (next e);
          Returns (e :: rest)
      end
  end.

(** The number of entry slots of a table: a walk that takes more steps
    visits some entry twice, and then the Go loop never ends. *)
Definition slots (t : list chain) : nat :=
  sum_list (map (λ c : chain, sum_list (map (λ b : bucket, length b) c)) t).

Definition list_entries (ht : hashtable) : outcome (list entry) :=
  walk (S (slots (table ht))) (table ht) (head ht).

Inductive freeze_call : Type :=
| FreezeKey (k : K)
| FreezeValue (v : V).

(** [freeze]: the calls of [Freeze] on keys and values are returned in
    the order they are made. *)
Definition freeze (ht : hashtable) : outcome (hashtable * list freeze_call) :=
  if frozen ht then Returns (ht, [])
  else
    es ← list_entries ht;
    Returns (with_frozen ht true,
             flat_map (λ e, [FreezeKey (key e); FreezeValue (value e)]) es).

Inductive scan_result : Type :=
| ScanFound (a : addr)
| ScanError (e : error)
| ScanEnd (ins : option addr).

(** The scan of [insert] over the entries of bucket [b] of chain [c],
    from slot [s] on; [ins] is the variable [insert]. *)
Fixpoint scan_entries (c b s : nat) (es : list entry) (h : Z) (k : K)
    (ins : option addr) : scan_result :=
  match es with
  | [] => ScanEnd ins
  | e :: es' =>
      if negb (hash e =? h)%Z then
        scan_entries c b (S s) es' h k
          (if (hash e =? 0)%Z then Some (Addr c b s) else ins)
      else
        match Equal k (key e) with
        | Err err => ScanError err
        | Ok false => scan_entries c b (S s) es' h k ins
        | Ok true => ScanFound (Addr c b s)
        end
  end.

Fixpoint scan_buckets (c b : nat) (bs : list bucket) (h : Z) (k : K)
    (ins : option addr) : scan_result :=
  match bs with
  | [] => ScanEnd ins
  | es :: bs' =>
      match scan_entries c b 0 es h k ins with
      | ScanEnd ins' => scan_buckets c (S b) bs' h k ins'
      | r => r
      end
  end.

(** [p.next = b] for a new bucket [b], [p] the last bucket of chain [c]. *)
Definition add_bucket (t : list chain) (c : nat) : list chain :=
  alter (λ ch : chain, ch ++ [zero_bucket]) c t.

(** The end of [insert]: write the entry and append it to the list. *)
Definition place (ht : hashtable) (a : addr) (h : Z) (k : K) (v : V)
  : outcome hashtable :=
  e ← deref (get (table ht) a);
  let ht1 := with_table ht (set (table ht) a
               (Entry h k v (next e) (tailLink ht))) in
  ht2 ← store_link ht1 (tailLink ht1) (Some a);
  Returns (with_len (with_tailLink ht2 (Some (LinkNext a))) (u32 (len ht2 + 1))).

(** [grow], given the [insert] it calls.  The old list is read first:
    the entries it visits lie in the old table, which the insertions
    into the new table do not write. *)
Definition grow_with
    (ins : hashtable → K → V → outcome (hashtable * option error))
    (ht : hashtable) : outcome hashtable :=
  old ← list_entries ht;
  let ht0 := Hashtable (make_table (2 * length (table ht))) 0%Z
               (itercount ht) None (Some LinkHead) (frozen ht) in
  foldl (λ acc e, h ← acc; '(h', _) ← ins h (key e) (value e); Returns h')
        (Returns ht0) old.

(** [insert] up to the label [retry]. *)
Definition insert_with
    (retry : hashtable → Z → K → V → outcome (hashtable * option error))
    (ht : hashtable) (k : K) (v : V) : outcome (hashtable * option error) :=
  if frozen ht then
    Returns (ht, Some "cannot insert into frozen hash table"%string)
  else if (0 <? itercount ht)%Z then
    Returns (ht, Some "cannot insert into hash table during iteration"%string)
  else
    ht ← (match table ht with [] => init ht 1 | _ => Returns ht end);
    match Hash k with
    | Err err => Returns (ht, Some err)
    | Ok h =>
        let h := if (h =? 0)%Z then 1%Z else h in
        retry ht h k v
    end.

(** [insert] from the label [retry] on; [fuel] bounds the calls of
    [grow] that are pending at any time. *)
Fixpoint insert_retry (fuel : nat) (ht : hashtable) (h : Z) (k : K) (v : V)
  : outcome (hashtable * option error) :=
  let c := slot_index (table ht) h in
  p ← deref (table ht !! c);
  match scan_buckets c 0 p h k None with
  | ScanFound a =>
      e ← deref (get (table ht) a);
      Returns (with_table ht (set (table ht) a (with_value e v)), None)
  | ScanError err => Returns (ht, Some err)
  | ScanEnd ins =>
      if overloaded (len ht) (Z.of_nat (length (table ht))) then
        match fuel with
        | O => OutOfFuel
        | S f =>
            ht' ← grow_with (insert_with (insert_retry f)) ht;
            insert_retry f ht' h k v
        end
      else
        let '(ht1, a) :=
          match ins with
          | Some a => (ht, a)
          | None => (with_table ht (add_bucket (table ht) c), Addr c (length p) 0)
          end in
        ht2 ← place ht1 a h k v;
        Returns (ht2, None)
  end.

Definition insert (fuel : nat) : hashtable → K → V → outcome (hashtable * option error) :=
  insert_with (insert_retry fuel).

Definition grow (fuel : nat) : hashtable → outcome hashtable :=
  grow_with (insert fuel).

Inductive find_result : Type :=
| Found (a : addr)
| FindError (e : error)
| NotFound.

(** The scan of [lookup] and [delete]. *)
Fixpoint find_entries (c b s : nat) (es : list entry) (h : Z) (k : K)
  : find_result :=
  match es with
  | [] => NotFound
  | e :: es' =>
      if (hash e =? h)%Z then
        match Equal k (key e) with
        | Err err => FindError err
        | Ok true => Found (Addr c b s)
        | Ok false => find_entries c b (S s) es' h k
        end
      else find_entries c b (S s) es' h k
  end.

Fixpoint find_buckets (c b : nat) (bs : list bucket) (h : Z) (k : K)
  : find_result :=
  match bs with
  | [] => NotFound
  | es :: bs' =>
      match find_entries c b 0 es h k with
      | NotFound => find_buckets c (S b) bs' h k
      | r => r
      end
  end.

(** [lookup] returns [(v, found, err)]. *)
Definition lookup (ht : hashtable) (k : K) : outcome (V * bool * option error) :=
  match Hash k with
  | Err err => Returns (nilV, false, Some err)
  | Ok h =>
      let h := if (h =? 0)%Z then 1%Z else h in
      match table ht with
      | [] => Returns (None_, false, None)
      | _ =>
          let c := slot_index (table ht) h in
          p ← deref (table ht !! c);
          match find_buckets c 0 p h k with
          | FindError err => Returns (nilV, false, Some err)
          | Found a =>
              e ← deref (get (table ht) a);
              Returns (value e, true, None)
          | NotFound => Returns (None_, false, None)
          end
      end
  end.

(** [items]: each pair is cut from one array of [ht.len*2] values (a
    product of uint32), and [array[:2:2]] panics when the array has
    run out. *)
Definition items (ht : hashtable) : outcome (list (K * V)) :=
  es ← list_entries ht;
  if (2 * Z.of_nat (length es) <=? u32 (len ht * 2))%Z
  then Returns (map (λ e, (key e, value e)) es)
  else Panics.

Definition first (ht : hashtable) : outcome (V + K) :=
  match head ht with
  | Some a => e ← deref (get (table ht) a); Returns (inr (key e))
  | None => Returns (inl None_)
  end.

Definition keys (ht : hashtable) : outcome (list K) :=
  es ← list_entries ht; Returns (map key es).

(** The removal of the entry [e] at the address [a] in [delete]. *)
Definition remove (ht : hashtable) (a : addr) (e : entry) : outcome hashtable :=
  (* *e.prevLink = e.next *)
  ht1 ← store_link ht (prevLink e) (next e);
  ht2 ← (match next e with
         | None => Returns (with_tailLink ht1 (prevLink e))
         | Some n =>
             en ← deref (get (table ht1) n);
             Returns (with_table ht1
                        (set (table ht1) n (with_prevLink en (prevLink e))))
         end);
  (* *e = entry{}; ht.len-- *)
  let ht3 := with_table ht2 (set (table ht2) a zero_entry) in
  Returns (with_len ht3 (u32 (len ht3 - 1))).

(** [delete] returns [(v, found, err)]. *)
Definition delete (ht : hashtable) (k : K)
  : outcome (hashtable * (V * bool * option error)) :=
  if frozen ht then
    Returns (ht, (nilV, false, Some "cannot delete from frozen hash table"%string))
  else if (0 <? itercount ht)%Z then
    Returns (ht, (nilV, false,
                  Some "cannot delete from hash table during iteration"%string))
  else
    match table ht with
    | [] => Returns (ht, (None_, false, None))
    | _ =>
        match Hash k with
        | Err err => Returns (ht, (nilV, false, Some err))
        | Ok h =>
            let h := if (h =? 0)%Z then 1%Z else h in
            let c := slot_index (table ht) h in
            p ← deref (table ht !! c);
            match find_buckets c 0 p h k with
            | FindError err => Returns (ht, (nilV, false, Some err))
            | NotFound => Returns (ht, (None_, false, None))
            | Found a =>
                e ← deref (get (table ht) a);
                ht' ← remove ht a e;
                Returns (ht', (value e, true, None))
            end
        end
    end.

Definition clear (ht : hashtable) : hashtable * option error :=
  if frozen ht then (ht, Some "cannot clear frozen hash table"%string)
  else if (0 <? itercount ht)%Z then
    (ht, Some "cannot clear hash table during iteration"%string)
  else
    (Hashtable (map (λ _, [zero_bucket]) (table ht)) 0%Z (itercount ht)
       None (Some LinkHead) (frozen ht), None).

(** [keyIterator]: its [ht] is the table the methods are applied to. *)
Record keyIterator : Type := KeyIterator { it_e : option addr }.

Definition iterate (ht : hashtable) : hashtable * keyIterator :=
  (if frozen ht then ht else with_itercount ht (u32 (itercount ht + 1)),
   KeyIterator (head ht)).

(** [Next] returns the key stored through [k], if any, and the iterator. *)
Definition Next (ht : hashtable) (it : keyIterator)
  : outcome (keyIterator * option K) :=
  match it_e it with
  | Some a =>
      e ← deref (get (table ht) a);
      Returns (KeyIterator (next e), Some (key e))
  | None => Returns (it, None)
  end.

Definition Done (ht : hashtable) : hashtable :=
  if frozen ht then ht else with_itercount ht (u32 (itercount ht - 1)).

End Table.

Abbreviation bucket := (list entry) (only parsing).
Abbreviation chain := (list (list entry)) (only parsing).

End hashtable.

(** ** hashString (starlark/hashtable.go) *)

Definition byte_of (c : ascii) : Z := Z.of_N (N_of_ascii c).

Fixpoint bytes (s : string) : list Z :=
  match s with
  | EmptyString => []
  | String c s' => byte_of c :: bytes s'
  end.

(** [softHashString]: the 32-bit FNV-1a hash. *)
Definition softHashString (s : string) : Z :=
  foldl (λ h b, u32 (Z.lxor h b * 16777619)) 2166136261%Z (bytes s).

(** [hashString]; [goStringHash] is the hash of the Go runtime
    ([runtime.stringHash] with seed 0), whose result is cut to 32 bits. *)
Definition hashString (goStringHash : string → Z) (s : string) : Z :=
  if 12 <=? String.length s then u32 (goStringHash s) else softHashString s.

(** ** OrderedStringDict (starlark/hashtable.go) *)

Module osd.

Section Dict.
Context {V : Type}.
Variable nilV : V.
Variable None_ : V.
Variable goStringHash : string → Z.
(** The capacity [append] gives the new backing array when the old one,
    of the capacity given, is full ([runtime.growslice]). *)
Variable growcap : nat → nat.

Record osdEntry : Type := OsdEntry {
  hash : Z;
  key : string;
  value : V
}.

(** [*osdEntry]: an element of a backing array. *)
Record ptr : Type := Ptr { p_array : nat; p_index : nat }.

Abbreviation osdBucket := (list (option ptr)) (only parsing).
Abbreviation chain := (list (list (option ptr))) (only parsing).

(** [[]osdEntry]: a backing array with a length and a capacity. *)
Record slice : Type := Slice { s_array : nat; s_len : nat; s_cap : nat }.

(** The dictionary, with the backing arrays allocated for its entries:
    buckets keep pointers into them. *)
Record OrderedStringDict : Type := Dict {
  table : list chain;
  entries : slice;
  arrays : list (list osdEntry)
}.

Definition zero_osdEntry : osdEntry := OsdEntry 0%Z EmptyString nilV.
Definition zero_osdBucket : osdBucket := replicate hashtable.bucketSize None.
Definition zero : OrderedStringDict := Dict [] (Slice 0 0 0) [].

Definition with_table (d : OrderedStringDict) (t : list chain) :=
  Dict t (entries d) (arrays d).

(** [make([]osdEntry, 0, n)] *)
Definition make_entries (d : OrderedStringDict) (n : nat) : OrderedStringDict :=
  Dict (table d) (Slice (length (arrays d)) 0 n)
       (arrays d ++ [replicate n zero_osdEntry]).

Definition load (d : OrderedStringDict) (p : ptr) : option osdEntry :=
  match arrays d !! p_array p with
  | Some a => a !! p_index p
  | None => None
  end.

Definition store (d : OrderedStringDict) (p : ptr) (e : osdEntry)
  : OrderedStringDict :=
  Dict (table d) (entries d) (alter (<[p_index p := e]>) (p_array p) (arrays d)).

(** [d.entries[i]] *)
Definition entry_at (d : OrderedStringDict) (i : nat) : option osdEntry :=
  if decide (i < s_len (entries d))
  then load d (Ptr (s_array (entries d)) i) else None.

(** [d.entries = append(d.entries, e)] *)
Definition append_entry (d : OrderedStringDict) (e : osdEntry)
  : OrderedStringDict :=
  let s := entries d in
  if decide (s_len s < s_cap s) then
    Dict (table d) (Slice (s_array s) (S (s_len s)) (s_cap s))
         (alter (<[s_len s := e]>) (s_array s) (arrays d))
  else
    let old := take (s_len s) (default [] (arrays d !! s_array s)) in
    let cap := growcap (s_cap s) in
    Dict (table d) (Slice (length (arrays d)) (S (s_len s)) cap)
         (arrays d ++ [old ++ e :: replicate (cap - S (s_len s)) zero_osdEntry]).

Definition slot_index (t : list chain) (h : Z) : nat :=
  Z.to_nat (Z.land h (u32 (Z.of_nat (length t) - 1))).

Definition init (d : OrderedStringDict) (size : Z) : outcome OrderedStringDict :=
  if (size <? 0)%Z then Panics
  else
    nb ← hashtable.init_nb (Z.to_nat (Z.log2_up (size + 1))) size 1;
    Returns (make_entries (with_table d (replicate nb [zero_osdBucket]))
               (Z.to_nat size)).

(** The scan of [getEntry] over one bucket: [None] is the [break] at a
    nil slot or the end of the bucket. *)
Fixpoint get_slots (d : OrderedStringDict) (es : osdBucket) (h : Z) (k : string)
  : outcome (option ptr) :=
  match es with
  | [] => Returns None
  | None :: _ => Returns None
  | Some p :: es' =>
      e ← deref (load d p);
      if (hash e =? h)%Z && String.eqb k (key e) then Returns (Some p)
      else get_slots d es' h k
  end.

Fixpoint get_buckets (d : OrderedStringDict) (bs : chain) (h : Z) (k : string)
  : outcome (option ptr) :=
  match bs with
  | [] => Returns None
  | es :: bs' =>
      r ← get_slots d es h k;
      match r with
      | Some p => Returns (Some p)
      | None => get_buckets d bs' h k
      end
  end.

Definition getEntry (d : OrderedStringDict) (h : Z) (k : string)
  : outcome (option ptr) :=
  match table d with
  | [] => Returns None
  | t =>
      c ← deref (t !! slot_index t h);
      get_buckets d c h k
  end.

Inductive position : Type :=
| Position (b i : nat)       (* slot [i] of bucket [b] of the chain is nil *)
| Duplicate
| Full.                      (* no nil slot: position == -1 *)

Fixpoint pos_slots (d : OrderedStringDict) (b i : nat) (es : osdBucket)
    (k : string) : outcome position :=
  match es with
  | [] => Returns Full
  | None :: _ => Returns (Position b i)
  | Some p :: es' =>
      e ← deref (load d p);
      if String.eqb k (key e) then Returns Duplicate
      else pos_slots d b (S i) es' k
  end.

Fixpoint pos_buckets (d : OrderedStringDict) (b : nat) (bs : chain) (k : string)
  : outcome position :=
  match bs with
  | [] => Returns Full
  | es :: bs' =>
      r ← pos_slots d b 0 es k;
      match r with
      | Full => pos_buckets d (S b) bs' k
      | r => Returns r
      end
  end.

(** [append] after the loop that grows the table. *)
Definition append_at (d : OrderedStringDict) (h : Z) (k : string) (v : V)
  : outcome (OrderedStringDict * option error) :=
  let c := slot_index (table d) h in
  ch ← deref (table d !! c);
  r ← pos_buckets d 0 ch k;
  match r with
  | Duplicate => Returns (d, Some ("duplicate key " ++ k)%string)
  | _ =>
      let '(t, b, i) :=
        match r with
        | Position b i => (table d, b, i)
        | _ => (alter (λ ch : chain, ch ++ [zero_osdBucket]) c (table d),
                length ch, 0)
        end in
      let d1 := append_entry (with_table d t) (OsdEntry h k v) in
      let p := Ptr (s_array (entries d1)) (s_len (entries d1) - 1) in
      Returns (with_table d1
                 (alter (alter (<[i := Some p]>) b) c (table d1)), None)
  end.

(** [for overloaded(len(d.entries), len(d.table)) { d.grow() }] *)
Fixpoint grow_loop (fuel : nat)
    (grow : OrderedStringDict → outcome OrderedStringDict)
    (d : OrderedStringDict) : outcome OrderedStringDict :=
  if hashtable.overloaded (Z.of_nat (s_len (entries d)))
                          (Z.of_nat (length (table d)))
  then match fuel with
       | O => OutOfFuel
       | S f => d' ← grow d; grow_loop f grow d'
       end
  else Returns d.

Definition grow_with
    (app : OrderedStringDict → Z → string → V
           → outcome (OrderedStringDict * option error))
    (d : OrderedStringDict) : outcome OrderedStringDict :=
  let old := take (s_len (entries d))
               (default [] (arrays d !! s_array (entries d))) in
  let d0 := make_entries
              (with_table d (replicate (2 * length (table d)) [zero_osdBucket]))
              (2 * s_len (entries d)) in
  foldl (λ acc e, x ← acc;
           '(x', _) ← app x (hash e) (key e) (value e); Returns x')
        (Returns d0) old.

Fixpoint append (fuel : nat) (d : OrderedStringDict) (h : Z) (k : string) (v : V)
  : outcome (OrderedStringDict * option error) :=
  d ← (match table d with [] => init d 1 | _ => Returns d end);
  d ← match fuel with
      | O => grow_loop 0 Returns d
      | S f => grow_loop f (grow_with (append f)) d
      end;
  append_at d h k v.

Definition grow (fuel : nat) : OrderedStringDict → outcome OrderedStringDict :=
  grow_with (append fuel).

Definition Set_ (d : OrderedStringDict) (k : string) (v : V)
  : outcome (OrderedStringDict * bool) :=
  let h := hashString goStringHash k in
  r ← getEntry d h k;
  match r with
  | Some p =>
      e ← deref (load d p);
      Returns (store d p (OsdEntry (hash e) (key e) v), true)
  | None => Returns (d, false)
  end.

Definition Get (d : OrderedStringDict) (k : string) : outcome (V * bool) :=
  let h := hashString goStringHash k in
  r ← getEntry d h k;
  match r with
  | Some p => e ← deref (load d p); Returns (value e, true)
  | None => Returns (None_, false)
  end.

Definition live_entries (d : OrderedStringDict) : list osdEntry :=
  take (s_len (entries d)) (default [] (arrays d !! s_array (entries d))).

Definition Keys (d : OrderedStringDict) : list string :=
  map key (live_entries d).

Definition Index (d : OrderedStringDict) (i : nat) : outcome V :=
  e ← deref (entry_at d i); Returns (value e).

Definition Len (d : OrderedStringDict) : nat := s_len (entries d).

Definition KeyIndex (d : OrderedStringDict) (i : nat) : outcome (string * V) :=
  e ← deref (entry_at d i); Returns (key e, value e).

End Dict.

End osd.

(** ** starlarkstruct/struct.go *)

Module starlarkstruct.

(** [syntax.Token], as far as [Struct] looks at it. *)
Inductive Token : Type :=
| PLUS
| EQL
| NEQ
| OtherToken (text : string).

Definition Token_String (op : Token) : string :=
  match op with
  | PLUS => "+"
  | EQL => "=="
  | NEQ => "!="
  | OtherToken text => text
  end.

(** [starlark.Side] *)
Inductive Side : Type := Left | Right.

(** [ex.key < ey.key]: strings are compared byte by byte. *)
Definition str_lt (a b : string) : bool :=
  match String_as_OT.compare a b with
  | Lt => true
  | _ => false
  end.

(** Modelled from the spec: [starlark.StringDict] and its method [Keys]
    are not among the sources.  A dictionary is the list of its bindings
    (an assignment [d[k] = v] replaces the binding of [k] or adds one), and
    [Keys] returns its keys "in ascending sorted order". *)
Section StringDict.
Context {Value : Type}.

Definition StringDict : Type := list (string * Value).

Fixpoint sd_set (d : StringDict) (k : string) (v : Value) : StringDict :=
  match d with
  | [] => [(k, v)]
  | (k', v') :: d' =>
      if String.eqb k k' then (k, v) :: d' else (k', v') :: sd_set d' k v
  end.

Fixpoint sd_get (d : StringDict) (k : string) : option Value :=
  match d with
  | [] => None
  | (k', v') :: d' => if String.eqb k k' then Some v' else sd_get d' k
  end.

Fixpoint sorted_add (k : string) (l : list string) : list string :=
  match l with
  | [] => [k]
  | k' :: l' =>
      if str_lt k k' then k :: l
      else if String.eqb k k' then l
      else k' :: sorted_add k l'
  end.

Definition sd_Keys (d : StringDict) : list string :=
  foldr sorted_add [] (map fst d).

Definition sd_len (d : StringDict) : nat := length (sd_Keys d).
End StringDict.
Arguments StringDict : clear implicits.

Section Struct.
(** What [Struct] asks of [starlark.Value]: the methods [Hash] and
    [String], the functions [starlark.Equal] and [starlark.EqualDepth],
    the hash of a [starlark.String], and the nil and [None] values. *)
Context {Value : Type}.
Variable ValueHash : Value → result Z.
Variable ValueEqual : Value → Value → result bool.
Variable EqualDepth : Value → Value → Z → result bool.
Variable ValueString : Value → string.
Variable StringHash : string → Z.
Variable is_nil : Value → bool.
Variable nilValue : Value.
Variable None_ : Value.

(** The string-keyed copy of the table (starlarkstruct/hashtable.go):
    [starlark.String(k).Hash()] cannot fail and keys are compared with
    [==]. *)
Definition strHash (k : string) : result Z := Ok (StringHash k).
Definition strEqual (k k' : string) : result bool := Ok (String.eqb k k').

Abbreviation table_t := (@hashtable.hashtable string Value) (only parsing).
Abbreviation entry_t := (@hashtable.entry string Value) (only parsing).

Definition ht_init : table_t → Z → outcome table_t :=
  hashtable.init EmptyString nilValue.
Definition ht_insert (fuel : nat)
  : table_t → string → Value → outcome (table_t * option error) :=
  hashtable.insert strHash strEqual EmptyString nilValue fuel.
Definition ht_lookup
  : table_t → string → outcome (Value * bool * option error) :=
  hashtable.lookup strHash strEqual nilValue None_.

(** [freeze] of starlarkstruct/hashtable.go walks the buckets and
    freezes the values only; the values frozen are returned. *)
Definition ht_freeze (t : table_t) : table_t * list Value :=
  if hashtable.frozen t then (t, [])
  else
    (hashtable.with_frozen t true,
     flat_map (λ c : list (list entry_t),
       flat_map (λ b : list entry_t,
         flat_map (λ e : entry_t,
           if negb (hashtable.hash e =? 0)%Z then [hashtable.value e] else [])
           b) c) (hashtable.table t)).

Record Struct : Type := MkStruct {
  constructor : Value;
  ht : table_t
}.

(** The type assertion of a value to a [Struct] pointer. *)
Variable as_struct : Value → option Struct.

Definition put (fuel : nat) (s : table_t) (k : string) (v : Value)
  : outcome table_t :=
  '(s', _) ← ht_insert fuel s k v; Returns s'.

Definition FromStringDict (fuel : nat) (constructor : Value)
    (d : StringDict Value) : outcome Struct :=
  if is_nil constructor then Panics
  else
    t ← ht_init hashtable.zero (Z.of_nat (sd_len d));
    t ← foldl (λ acc k, t ← acc; put fuel t k (default nilValue (sd_get d k)))
              (Returns t) (sd_Keys d);
    Returns (MkStruct constructor t).

(** [kwarg[0].(starlark.String)] *)
Variable as_String : Value → option string.

Definition FromKeywords (fuel : nat) (constructor : Value)
    (kwargs : list (Value * Value)) : outcome Struct :=
  if is_nil constructor then Panics
  else
    d ← foldl (λ acc kw, d ← acc;
                 k ← deref (as_String (fst kw));
                 Returns (sd_set d k (snd kw)))
              (Returns []) kwargs;
    FromStringDict fuel constructor d.

Fixpoint hash_loop (es : list entry_t) (x m : Z) : Z * option error :=
  match es with
  | [] => (x, None)
  | e :: es' =>
      let namehash := StringHash (hashtable.key e) in
      let x := Z.lxor x (u32 (3 * namehash)) in
      match ValueHash (hashtable.value e) with
      | Err err => (0%Z, Some err)
      | Ok y => hash_loop es' (Z.lxor x (u32 (y * m))) (u32 (m + 7349))
      end
  end.

Definition Hash (s : Struct) : outcome (Z * option error) :=
  es ← hashtable.list_entries (ht s);
  Returns (hash_loop es 8731%Z 9839%Z).

Definition Freeze (s : Struct) : Struct * list Value :=
  let '(t, vs) := ht_freeze (ht s) in (MkStruct (constructor s) t, vs).

Definition len (s : Struct) : Z := hashtable.len (ht s).

Definition put_entry (fuel : nat) (s : table_t) (e : entry_t) : outcome table_t :=
  put fuel s (hashtable.key e) (hashtable.value e).

Definition put_entries (fuel : nat) (es : list entry_t) (s : table_t)
  : outcome table_t :=
  foldl (λ acc e, t ← acc; put_entry fuel t e) (Returns s) es.

(** The three loops of [Binary] over the lists of x and y. *)
Fixpoint merge_loop (fuel : nat) (xs : list entry_t)
  : list entry_t → table_t → outcome table_t :=
  fix inner (ys : list entry_t) (s : table_t) {struct ys} : outcome table_t :=
    match xs, ys with
    | ex :: xs', ey :: ys' =>
        if str_lt (hashtable.key ex) (hashtable.key ey) then
          s ← put_entry fuel s ex; merge_loop fuel xs' ys s
        else if String.eqb (hashtable.key ex) (hashtable.key ey) then
          s ← put_entry fuel s ey; merge_loop fuel xs' ys' s
        else
          s ← put_entry fuel s ey; inner ys' s
    | _, _ =>
        s ← put_entries fuel xs s; put_entries fuel ys s
    end.

Inductive binary_result : Type :=
| BinValue (s : Struct)
| BinError (e : error)
| BinUnhandled.              (* return nil, nil *)

Definition Binary (fuel : nat) (x : Struct) (op : Token) (y : Value) (side : Side)
  : outcome binary_result :=
  match as_struct y, op with
  | Some y, PLUS =>
      let '(x, y) := match side with Right => (y, x) | Left => (x, y) end in
      match ValueEqual (constructor x) (constructor y) with
      | Err err =>
          Returns (BinError ("in " ++ ValueString (constructor x) ++ " + "
                     ++ ValueString (constructor y)
                     ++ ": error comparing constructors: " ++ err)%string)
      | Ok false =>
          Returns (BinError ("cannot add structs of different constructors: "
                     ++ ValueString (constructor x) ++ " + "
                     ++ ValueString (constructor y))%string)
      | Ok true =>
          t ← ht_init hashtable.zero (len x + len y)%Z;
          xs ← hashtable.list_entries (ht x);
          ys ← hashtable.list_entries (ht y);
          t ← merge_loop fuel xs ys t;
          Returns (BinValue (MkStruct (constructor x) t))
      end
  | _, _ => Returns BinUnhandled
  end.

Definition AttrNames (s : Struct) : outcome (list string) :=
  es ← hashtable.list_entries (ht s);
  Returns (map hashtable.key es).

(** Go's [int] is 64 bits wide. *)
Definition int (z : Z) : Z := ((z + 2 ^ 63) mod 2 ^ 64 - 2 ^ 63)%Z.

(** The loop of [structsEqual]; [ey] is dereferenced at each step. *)
Fixpoint equal_loop (xs ys : list entry_t) (depth : Z)
  : outcome (bool * option error) :=
  match xs with
  | [] => Returns (true, None)
  | ex :: xs' =>
      match ys with
      | [] => Panics
      | ey :: ys' =>
          if negb (String.eqb (hashtable.key ex) (hashtable.key ey))
          then Returns (false, None)
          else
            match EqualDepth (hashtable.value ex) (hashtable.value ey)
                    (int (depth - 1)) with
            | Err err => Returns (false, Some err)
            | Ok false => Returns (false, None)
            | Ok true => equal_loop xs' ys' depth
            end
      end
  end.

Definition structsEqual (x y : Struct) (depth : Z)
  : outcome (bool * option error) :=
  if negb (len x =? len y)%Z then Returns (false, None)
  else
    match ValueEqual (constructor x) (constructor y) with
    | Err err =>
        Returns (false,
                 Some ("error comparing struct constructors "
                       ++ ValueString (constructor x) ++ " and "
                       ++ ValueString (constructor y) ++ ": " ++ err)%string)
    | Ok false => Returns (false, None)
    | Ok true =>
        xs ← hashtable.list_entries (ht x);
        ys ← hashtable.list_entries (ht y);
        equal_loop xs ys depth
    end.

Definition CompareSameType (x : Struct) (op : Token) (y_ : Value) (depth : Z)
  : outcome (bool * option error) :=
  y ← deref (as_struct y_);
  match op with
  | EQL => structsEqual x y depth
  | NEQ => '(eq, err) ← structsEqual x y depth; Returns (negb eq, err)
  | _ =>
      Returns (false,
               Some ("struct " ++ Token_String op ++ " struct not implemented")%string)
  end.

(** *** The other methods of [Struct] *)

(** [starlarkstruct.Default], and the comparison of a constructor with
    it ([s.constructor == Default], on interface values). *)
Variable Default : Value.
Variable is_Default : Value → bool.

(** [Make]: the positional arguments and the keyword arguments of the
    call. *)
Definition Make (fuel : nat) (args : list Value) (kwargs : list (Value * Value))
  : outcome (result Struct) :=
  if (0 <? Z.of_nat (length args))%Z then
    Returns (Err "struct: unexpected positional arguments"%string)
  else
    s ← FromKeywords fuel Default kwargs;
    Returns (Ok s).

(** [ToStringDict]: [d[e.key] = e.value] for each field. *)
Definition ToStringDict (s : Struct) (d : StringDict Value)
  : outcome (StringDict Value) :=
  es ← hashtable.list_entries (ht s);
  Returns (foldl (λ acc e, sd_set acc (hashtable.key e) (hashtable.value e)) d es).

#[local] Existing Instance hashtable.addr_eq_dec.

(** The loop of [String]: [hd] is [s.ht.head], and the separator is
    written before every entry but the one at [hd]. *)
Fixpoint write_fields (fuel : nat) (t : list (list (list entry_t)))
    (hd cur : option hashtable.addr) : outcome string :=
  match cur with
  | None => Returns EmptyString
  | Some a =>
      match fuel with
      | O => OutOfFuel
      | S f =>
          e ← deref (hashtable.get t a);
          rest ← write_fields f t hd (hashtable.next e);
          Returns ((if decide (Some a = hd) then "" else ", ")
                   ++ hashtable.key e ++ " = "
                   ++ ValueString (hashtable.value e) ++ rest)%string
      end
  end.

Definition String_ (s : Struct) : outcome string :=
  let t := hashtable.table (ht s) in
  fields ← write_fields (S (hashtable.slots t)) t
             (hashtable.head (ht s)) (hashtable.head (ht s));
  Returns ((if is_Default (constructor s) then "struct"
            else ValueString (constructor s))
           ++ "(" ++ fields ++ ")")%string.

Definition Constructor (s : Struct) : Value := constructor s.
Definition Type_ (s : Struct) : string := "struct"%string.
Definition Truth (s : Struct) : bool := true.

(** What [Attr] returns: the value, the error of the lookup, or a
    [starlark.NoSuchAttrError] with its message. *)
Inductive attr_result : Type :=
| AttrValue (v : Value)
| AttrError (err : error)
| NoSuchAttrError (msg : string).

Definition Attr (s : Struct) (name : string) : outcome attr_result :=
  '(v, ok, err) ← ht_lookup (ht s) name;
  if ok : bool then Returns (AttrValue v)
  else
    match err with
    | Some err => Returns (AttrError err)
    | None =>
        let ctor :=
          if is_Default (constructor s) then ""%string
          else (ValueString (constructor s) ++ " ")%string in
        Returns (NoSuchAttrError
                   (ctor ++ "struct has no ." ++ name ++ " attribute")%string)
    end.

End Struct.

End starlarkstruct.

(** ** OrderStringDict (starlark/hashtable.go) *)

Module orderdict.

Section Build.
Context {V : Type}.
Variable nilV : V.
Variable goStringHash : string → Z.
Variable growcap : nat → nat.

(** [OrderStringDict]: [init(len(d))], then an [append] for each key of
    [d.Keys()]; the errors of [append] are dropped. *)
Definition OrderStringDict (fuel : nat) (d : starlarkstruct.StringDict V)
  : outcome (@osd.OrderedStringDict V) :=
  d0 ← osd.init nilV osd.zero (Z.of_nat (starlarkstruct.sd_len d));
  foldl (λ acc key,
           x ← acc;
           '(x', _) ← osd.append nilV growcap fuel x
                        (hashString goStringHash key) key
                        (default nilV (starlarkstruct.sd_get d key));
           Returns x')
        (Returns d0) (starlarkstruct.sd_Keys d).

End Build.

End orderdict.

(** ** A universe of values for the examples

    Modelled from the spec: the values of package starlark are not among
    the sources.  The universe has the values the examples need: [nil],
    [None], strings, the unhashable symbols of struct_test.go (one value
    per call of gensym) and structs.  [EqualDepth] follows section 4.3 and
    7 of the specification: a budget below one is the error
    "comparison exceeded maximum recursion depth", values of different
    types are unequal, and structs are compared by [CompareSameType] with
    the budget that is left. *)

Module universe.

#[local] Open Scope string_scope.

#[warnings="-register-all"]
Inductive value : Type :=
| VNil
| VNone
| VString (s : string)
| VSymbol (id : nat) (name : string)
| VStruct (c : value) (t : @hashtable.hashtable string value).

Definition Struct : Type := @starlarkstruct.Struct value.

Definition is_nil (v : value) : bool :=
  match v with VNil => true | _ => false end.

Definition as_struct (v : value) : option Struct :=
  match v with
  | VStruct c t => Some (starlarkstruct.MkStruct c t)
  | _ => None
  end.

Definition as_String (v : value) : option string :=
  match v with VString s => Some s | _ => None end.

Definition of_struct (s : Struct) : value :=
  VStruct (starlarkstruct.constructor s) (starlarkstruct.ht s).

(** The runtime's string hash is seeded per process; the examples use
    names shorter than twelve bytes, which it does not hash. *)
Definition goStringHash (s : string) : Z := softHashString s.
Definition StringHash (s : string) : Z := hashString goStringHash s.

Definition quote : string := String (ascii_of_nat 34) EmptyString.

Definition value_String (v : value) : string :=
  match v with
  | VNil => "<nil>"
  | VNone => "None"
  | VString s => quote ++ s ++ quote
  | VSymbol _ name => name
  | VStruct _ _ => "struct(...)"
  end.

Definition recursion_error : error :=
  "comparison exceeded maximum recursion depth".

(** [n] bounds the nesting of the values that are hashed or compared. *)
Fixpoint value_Hash_n (n : nat) (v : value) : result Z :=
  match v with
  | VNil => Err "nil value"
  | VNone => Ok 0%Z
  | VString s => Ok (StringHash s)
  | VSymbol _ _ => Err "unhashable: symbol"
  | VStruct c t =>
      match n with
      | O => Err "value nested too deeply"
      | S n' =>
          match starlarkstruct.Hash (value_Hash_n n') StringHash
                  (starlarkstruct.MkStruct c t) with
          | Returns (h, None) => Ok h
          | Returns (_, Some err) => Err err
          | _ => Err "panic"
          end
      end
  end.

Fixpoint EqualDepth_n (n : nat) (x y : value) (depth : Z) : result bool :=
  if (depth <? 1)%Z then Err recursion_error
  else
    match x, y with
    | VNil, VNil => Ok true
    | VNone, VNone => Ok true
    | VString a, VString b => Ok (String.eqb a b)
    | VSymbol i _, VSymbol j _ => Ok (Nat.eqb i j)
    | VStruct c t, VStruct _ _ =>
        match n with
        | O => Err "value nested too deeply"
        | S n' =>
            match starlarkstruct.CompareSameType
                    (λ a b, EqualDepth_n n' a b 10%Z) (EqualDepth_n n')
                    value_String as_struct
                    (starlarkstruct.MkStruct c t) starlarkstruct.EQL y depth with
            | Returns (b, None) => Ok b
            | Returns (_, Some err) => Err err
            | _ => Err "panic"
            end
        end
    | _, _ => Ok false
    end.

Definition nesting : nat := 64.
Definition value_Hash : value → result Z := value_Hash_n nesting.
Definition EqualDepth : value → value → Z → result bool := EqualDepth_n nesting.
(** [starlark.Equal]: [EqualDepth] with the budget [CompareLimit]. *)
Definition value_Equal (x y : value) : result bool := EqualDepth x y 10%Z.

(** [starlarkstruct.Default] *)
Definition Default : value := VString "struct".

Definition FromStringDict := starlarkstruct.FromStringDict StringHash is_nil VNil.
Definition FromKeywords :=
  starlarkstruct.FromKeywords StringHash is_nil VNil as_String.
Definition Binary :=
  starlarkstruct.Binary value_Equal value_String StringHash VNil as_struct.
Definition structsEqual :=
  starlarkstruct.structsEqual value_Equal EqualDepth value_String.
Definition CompareSameType :=
  starlarkstruct.CompareSameType value_Equal EqualDepth value_String as_struct.
Definition Hash := starlarkstruct.Hash value_Hash StringHash.

Definition is_Default (v : value) : bool :=
  match v with
  | VString s => String.eqb s "struct"
  | _ => false
  end.

Definition Make := starlarkstruct.Make StringHash is_nil VNil as_String Default.
Definition Attr := starlarkstruct.Attr value_String StringHash VNil VNone is_Default.
Definition String_ := starlarkstruct.String_ value_String is_Default.

End universe.


(** * Properties of the hash table *)

Module table_facts.
Import hashtable.

Lemma bind_returns {A B} (m : outcome A) (f : A → outcome B) (b : B) :
  (m ≫= f) = Returns b ↔ ∃ a, m = Returns a ∧ f a = Returns b.
Proof.
  unfold mbind, outcome_bind. destruct m; split.
  - eauto.
  - by intros (? & [= <-] & ?).
  - done.
  - by intros (? & [=] & ?).
  - done.
  - by intros (? & [=] & ?).
Qed.

Lemma deref_returns {A} (o : option A) (a : A) : deref o = Returns a ↔ o = Some a.
Proof. destruct o; simpl; split; congruence. Qed.

Ltac solve_elem :=
  rewrite ?elem_of_app, ?elem_of_cons, ?list_elem_of_singleton, ?elem_of_nil in *;
  naive_solver.

Section Memory.
Context {K V : Type}.
Implicit Types (t : list (list (list (@entry K V)))) (a : addr) (e : @entry K V).

Lemma get_Some t a e :
  get t a = Some e ↔
  ∃ c b, t !! a_chain a = Some c ∧ c !! a_bucket a = Some b ∧ b !! a_slot a = Some e.
Proof.
  unfold get. split.
  - destruct (t !! a_chain a) as [c|]; [|done].
    destruct (c !! a_bucket a) as [b|] eqn:Hb; [|done]. intros ?. by exists c, b.
  - intros (c & b & -> & -> & ->). done.
Qed.

Lemma get_set_eq t a e :
  is_Some (get t a) → get (set t a e) a = Some e.
Proof.
  intros [e0 (c & b & Hc & Hb & He)%get_Some]. unfold get, set.
  rewrite list_lookup_alter_eq, Hc. simpl.
  rewrite list_lookup_alter_eq, Hb. simpl.
  apply list_lookup_insert_eq. by eapply lookup_lt_Some.
Qed.

Lemma get_set_ne t a a' e : a ≠ a' → get (set t a e) a' = get t a'.
Proof.
  intros Hne. unfold get, set. destruct a as [c b s], a' as [c' b' s']; simpl.
  destruct (decide (c = c')) as [->|Hc]; [|by rewrite list_lookup_alter_ne].
  rewrite list_lookup_alter_eq. destruct (t !! c') as [ch|]; [simpl|done].
  destruct (decide (b = b')) as [->|Hb]; [|by rewrite list_lookup_alter_ne].
  rewrite list_lookup_alter_eq. destruct (ch !! b') as [bk|]; [simpl|done].
  rewrite list_lookup_insert_ne; [done|congruence].
Qed.

Lemma get_set t a a' e :
  get (set t a e) a' = if decide (a = a') then (λ _, e) <$> get t a else get t a'.
Proof.
  case_decide as Ha; [subst|by apply get_set_ne].
  destruct (get t a') as [e0|] eqn:Hg; simpl.
  - apply get_set_eq. by rewrite Hg.
  - unfold get, set in *. rewrite list_lookup_alter_eq.
    destruct (t !! a_chain a') as [c|]; [simpl|done].
    rewrite list_lookup_alter_eq.
    destruct (c !! a_bucket a') as [b|]; [simpl|done].
    apply lookup_ge_None. rewrite length_insert. by apply lookup_ge_None.
Qed.

Lemma length_set t a e : length (set t a e) = length t.
Proof. unfold set. by rewrite length_alter. Qed.

Lemma set_nil a e : set (K:=K) (V:=V) [] a e = [].
Proof. done. Qed.
End Memory.

Section Theory.
Context {K V : Type}.
Variable Hash : K → result Z.
Variable Equal : K → K → result bool.
Variable nilK : K.
Variable nilV : V.
Variable None_ : V.

Abbreviation entry := (@entry K V).
Abbreviation hashtable := (@hashtable K V).
Abbreviation table_t := (list (list (list entry))).
Abbreviation zero_entry := (zero_entry nilK nilV).
Abbreviation zero_bucket := (zero_bucket nilK nilV).
Abbreviation make_table := (make_table nilK nilV).
Abbreviation add_bucket := (add_bucket nilK nilV).
Abbreviation scan_entries := (scan_entries Equal).
Abbreviation scan_buckets := (scan_buckets Equal).
Abbreviation find_entries := (find_entries Equal).
Abbreviation find_buckets := (find_buckets Equal).
Abbreviation init := (init nilK nilV).
Abbreviation insert_retry := (insert_retry Hash Equal nilK nilV).
Abbreviation insert_with := (insert_with Hash nilK nilV).
Abbreviation grow_with := (grow_with nilK nilV).
Abbreviation insert := (insert Hash Equal nilK nilV).
Abbreviation grow := (grow Hash Equal nilK nilV).
Abbreviation lookup := (lookup Hash Equal nilV None_).
Abbreviation delete := (delete Hash Equal nilK nilV None_).
Abbreviation clear := (clear nilK nilV).

Implicit Types (t : table_t) (a : addr) (e : entry) (ht : hashtable)
  (L : list addr) (k : K) (v : V) (h : Z)
  (es : list entry) (bs : list (list entry)).

(** *** The scans *)

Definition forget (r : scan_result) : find_result :=
  match r with
  | ScanFound a => Found a
  | ScanError err => FindError err
  | ScanEnd _ => NotFound
  end.

Lemma find_entries_scan c b es h k : ∀ s ins,
  find_entries c b s es h k = forget (scan_entries c b s es h k ins).
Proof.
  induction es as [|e es IH]; intros s ins; simpl; [done|].
  destruct (hash e =? h)%Z; simpl; [|apply IH].
  destruct (Equal k (key e)) as [[]|]; simpl; auto.
Qed.

Lemma find_buckets_scan c bs h k : ∀ b ins,
  find_buckets c b bs h k = forget (scan_buckets c b bs h k ins).
Proof.
  induction bs as [|es bs IH]; intros b ins; simpl; [done|].
  rewrite (find_entries_scan _ _ _ _ _ _ ins).
  destruct (scan_entries c b 0 es h k ins); simpl; auto.
Qed.

Lemma scan_entries_spec c b es h k : h ≠ 0%Z → ∀ s ins,
  match scan_entries c b s es h k ins with
  | ScanFound a =>
      ∃ i e, a = Addr c b (s + i) ∧ es !! i = Some e ∧ hash e = h
             ∧ Equal k (key e) = Ok true
  | ScanError err =>
      ∃ i e, es !! i = Some e ∧ hash e = h ∧ Equal k (key e) = Err err
  | ScanEnd ins' =>
      (∀ i e, es !! i = Some e → hash e = h → Equal k (key e) = Ok false) ∧
      ((ins' = ins ∧ ∀ i e, es !! i = Some e → hash e ≠ 0%Z) ∨
       (∃ i e, ins' = Some (Addr c b (s + i)) ∧ es !! i = Some e ∧ hash e = 0%Z))
  end.
Proof.
  intros Hh. induction es as [|e es IH]; intros s ins; simpl.
  { split; [by intros ? ? ?|]. left. split; [done|]. by intros ? ? ?. }
  destruct (Z.eqb_spec (hash e) h) as [Heq|Hne]; simpl.
  - destruct (Equal k (key e)) as [[]|err] eqn:HE.
    + exists 0, e. by rewrite Nat.add_0_r.
    + specialize (IH (S s) ins).
      destruct (scan_entries c b (S s) es h k ins) as [a|err|ins'].
      * destruct IH as (i & e' & -> & ? & ? & ?). exists (S i), e'.
        by rewrite Nat.add_succ_r.
      * destruct IH as (i & e' & ? & ? & ?). by exists (S i), e'.
      * destruct IH as [Hall Hins]. split.
        { intros [|i] e'; simpl; [intros [= <-]; done|apply Hall]. }
        destruct Hins as [[-> Hnz]|(i & e' & -> & ? & ?)].
        { left. split; [done|]. intros [|i] e'; simpl; [|apply Hnz].
          intros [= <-]. congruence. }
        right. exists (S i), e'. by rewrite Nat.add_succ_r.
    + by exists 0, e.
  - specialize (IH (S s) (if (hash e =? 0)%Z then Some (Addr c b s) else ins)).
    destruct (scan_entries c b (S s) es h k _) as [a|err|ins'].
    * destruct IH as (i & e' & -> & ? & ? & ?). exists (S i), e'.
      by rewrite Nat.add_succ_r.
    * destruct IH as (i & e' & ? & ? & ?). by exists (S i), e'.
    * destruct IH as [Hall Hins]. split.
      { intros [|i] e'; simpl; [intros [= <-]; done|apply Hall]. }
      destruct Hins as [[-> Hnz]|(i & e' & -> & ? & ?)].
      { destruct (Z.eqb_spec (hash e) 0) as [Hz|Hnz'].
        - right. exists 0, e. by rewrite Nat.add_0_r.
        - left. split; [done|]. intros [|i] e'; simpl; [|apply Hnz].
          by intros [= <-]. }
      right. exists (S i), e'. by rewrite Nat.add_succ_r.
Qed.

Lemma scan_buckets_spec c bs h k : h ≠ 0%Z → ∀ b ins,
  match scan_buckets c b bs h k ins with
  | ScanFound a =>
      ∃ j i es e, a = Addr c (b + j) i ∧ bs !! j = Some es ∧ es !! i = Some e
                  ∧ hash e = h ∧ Equal k (key e) = Ok true
  | ScanError err =>
      ∃ j i es e, bs !! j = Some es ∧ es !! i = Some e
                  ∧ hash e = h ∧ Equal k (key e) = Err err
  | ScanEnd ins' =>
      (∀ j i es e, bs !! j = Some es → es !! i = Some e → hash e = h
                   → Equal k (key e) = Ok false) ∧
      ((ins' = ins ∧ ∀ j i es e, bs !! j = Some es → es !! i = Some e
                                 → hash e ≠ 0%Z) ∨
       (∃ j i es e, ins' = Some (Addr c (b + j) i) ∧ bs !! j = Some es
                    ∧ es !! i = Some e ∧ hash e = 0%Z))
  end.
Proof.
  intros Hh. induction bs as [|es bs IH]; intros b ins; simpl.
  { split; [by intros ? ? ? ? ?|]. left. split; [done|]. by intros ? ? ? ? ?. }
  pose proof (scan_entries_spec c b es h k Hh 0 ins) as Hes.
  destruct (scan_entries c b 0 es h k ins) as [a|err|ins1].
  - destruct Hes as (i & e & -> & ? & ? & ?). exists 0, i, es, e.
    by rewrite Nat.add_0_r.
  - destruct Hes as (i & e & ? & ? & ?). by exists 0, i, es, e.
  - destruct Hes as [Hall1 Hins1]. specialize (IH (S b) ins1).
    destruct (scan_buckets c (S b) bs h k ins1) as [a|err|ins'].
    + destruct IH as (j & i & es' & e & -> & ? & ? & ? & ?).
      exists (S j), i, es', e. by rewrite Nat.add_succ_r.
    + destruct IH as (j & i & es' & e & ? & ? & ? & ?). by exists (S j), i, es', e.
    + destruct IH as [Hall Hins]. split.
      { intros [|j] i es' e; simpl; [intros [= <-]; apply Hall1|apply Hall]. }
      destruct Hins as [[-> Hnz]|(j & i & es' & e & -> & ? & ? & ?)].
      * destruct Hins1 as [[-> Hnz1]|(i & e & -> & ? & ?)].
        { left. split; [done|].
          intros [|j] i es' e; simpl; [intros [= <-]; apply Hnz1|apply Hnz]. }
        right. exists 0, i, es, e. by rewrite Nat.add_0_r.
      * right. exists (S j), i, es', e. by rewrite Nat.add_succ_r.
Qed.

(** *** The table invariant *)

Definition norm (h : Z) : Z := if (h =? 0)%Z then 1%Z else h.

(** The hash an entry for [k] carries, when [k] is hashable. *)
Definition nhash (k : K) : option Z :=
  match Hash k with
  | Ok h => Some (norm h)
  | Err _ => None
  end.

(** The link that leads to position [i] of the list [L]. *)
Definition link_at (L : list addr) (i : nat) : option link :=
  match i with
  | O => Some LinkHead
  | S j => LinkNext <$> L !! j
  end.

(** [L] is the list of the addresses of the entries in use, in the
    order of the doubly-linked list that starts at [hd]. *)
Record linked (t : table_t) (hd : option addr) (L : list addr) : Prop := {
  linked_nodup : NoDup L;
  linked_head : hd = L !! 0;
  linked_entry : ∀ i a, L !! i = Some a →
    ∃ e, get t a = Some e ∧ hash e ≠ 0%Z
         ∧ next e = L !! S i ∧ prevLink e = link_at L i;
  linked_used : ∀ a e, get t a = Some e → hash e ≠ 0%Z → a ∈ L;
  linked_free : ∀ a e, get t a = Some e → hash e = 0%Z → e = zero_entry
}.

(** Every entry in use carries the hash of its key and lies in the
    chain of that hash. *)
Definition hashed (t : table_t) : Prop :=
  ∀ a e, get t a = Some e → hash e ≠ 0%Z →
    nhash (key e) = Some (hash e) ∧ a_chain a = slot_index t (hash e).

(** The load of a table with [n] entries and [nb] chains is such that
    the insertion of entry number [n] did not have to grow it. *)
Definition load_ok (n nb : nat) : Prop :=
  (Z.min (Z.of_nat n) (2 ^ 32) - 1 < 8
   ∨ 2 * (Z.min (Z.of_nat n) (2 ^ 32) - 1) < 13 * Z.of_nat nb)%Z.

Record wf (ht : hashtable) (L : list addr) : Prop := {
  wf_linked : linked (table ht) (head ht) L;
  wf_tail : table ht ≠ [] → tailLink ht = link_at L (length L);
  wf_hashed : hashed (table ht);
  wf_len : len ht = u32 (Z.of_nat (length L));
  wf_load : load_ok (length L) (length (table ht))
}.

(** The entries and the key/value pairs at the addresses [L]. *)
Definition kv (e : entry) : K * V := (key e, value e).
Definition entry_at (t : table_t) (a : addr) : entry :=
  default zero_entry (get t a).
Definition kvs (t : table_t) (L : list addr) : list (K * V) :=
  (λ a, kv (entry_at t a)) <$> L.
Definition data (e : entry) : Z * K * V := (hash e, key e, value e).

Lemma link_at_app L L' i : i ≤ length L → link_at (L ++ L') i = link_at L i.
Proof.
  destruct i as [|j]; simpl; [done|]. intros. by rewrite lookup_app_l by lia.
Qed.

Lemma link_at_delete L i m :
  link_at (base.delete i L) m = link_at L (if decide (m ≤ i) then m else S m).
Proof.
  destruct (decide (m ≤ i)); destruct m as [|m]; simpl; try done; try lia.
  - by rewrite list_lookup_delete_lt by lia.
  - by rewrite list_lookup_delete_ge by lia.
Qed.

Lemma linked_free_notin t hd L a :
  linked t hd L → get t a = Some zero_entry → a ∉ L.
Proof.
  intros HL Ha [i Hi]%list_elem_of_lookup.
  destruct (linked_entry _ _ _ HL i a Hi) as (e & He & Hh & _).
  rewrite Ha in He. by simplify_eq.
Qed.

Lemma linked_empty t hd : linked t hd [] → hd = None.
Proof. intros H. by rewrite (linked_head _ _ _ H). Qed.

(** *** Appending an entry to the list *)

Lemma place_linked ht L a h k v :
  linked (table ht) (head ht) L →
  tailLink ht = link_at L (length L) →
  get (table ht) a = Some zero_entry →
  h ≠ 0%Z →
  ∃ ht', place ht a h k v = Returns ht'
    ∧ linked (table ht') (head ht') (L ++ [a])
    ∧ tailLink ht' = link_at (L ++ [a]) (S (length L))
    ∧ len ht' = u32 (len ht + 1)
    ∧ itercount ht' = itercount ht ∧ frozen ht' = frozen ht
    ∧ length (table ht') = length (table ht)
    ∧ (∀ x, data <$> get (table ht') x =
            if decide (x = a) then Some (h, k, v)
            else data <$> get (table ht) x).
Proof.
  intros HL Htail Ha Hh.
  pose proof (linked_free_notin _ _ _ _ HL Ha) as Hnotin.
  unfold place. rewrite Ha. simpl. rewrite Htail.
  destruct L as [|b0 L0 _] using rev_ind.
  - (* the list was empty: the link is &ht.head *)
    simpl. eexists. split; [done|]. simpl.
    assert (Hget : ∀ x, get (set (table ht) a (Entry h k v None (Some LinkHead))) x
              = if decide (x = a) then Some (Entry h k v None (Some LinkHead))
                else get (table ht) x).
    { intros x. rewrite get_set, Ha. by repeat case_decide; simplify_eq. }
    split_and!; try done.
    + split.
      * apply NoDup_singleton.
      * done.
      * intros [|i] x; simpl; [|done]. intros [= <-].
        eexists. rewrite Hget, decide_True by done. by split_and!.
      * intros x e. rewrite Hget. case_decide; [subst; solve_elem|].
        intros He Hne. by apply (linked_used _ _ _ HL x e He), elem_of_nil in Hne.
      * intros x e. rewrite Hget. case_decide; [by intros [= <-]|].
        apply (linked_free _ _ _ HL).
    + by rewrite length_set.
    + intros x. rewrite Hget. by case_decide.
  - (* the link is the next field of the last entry *)
    rewrite length_app. simpl. rewrite Nat.add_1_r. simpl.
    rewrite list_lookup_middle by done. simpl.
    assert (Hb : (L0 ++ [b0]) !! length L0 = Some b0) by by apply list_lookup_middle.
    destruct (linked_entry _ _ _ HL _ _ Hb) as (eb & Hgb & Hhb & Hnb & Hpb).
    assert (Hne : a ≠ b0) by (intros ->; apply Hnotin; solve_elem).
    rewrite get_set_ne, Hgb by done. simpl.
    eexists. split; [done|]. simpl.
    set (new := Entry h k v None (Some (LinkNext b0))).
    set (t' := set (set (table ht) a new) b0 (with_next eb (Some a))).
    assert (Hget : ∀ x, get t' x
              = if decide (x = b0) then Some (with_next eb (Some a))
                else if decide (x = a) then Some new else get (table ht) x).
    { intros x. unfold t'. rewrite !get_set, Ha, Hgb.
      by repeat case_decide; simplify_eq. }
    split_and!; try done.
    + split.
      * apply NoDup_app. split_and!; [apply (linked_nodup _ _ _ HL)| |apply NoDup_singleton].
        intros x Hx ->%list_elem_of_singleton. by apply Hnotin.
      * rewrite (linked_head _ _ _ HL). symmetry. apply lookup_app_l.
        rewrite length_app. simpl. lia.
      * intros i x Hi.
        assert (i ≤ S (length L0)).
        { apply lookup_lt_Some in Hi. rewrite !length_app in Hi. simpl in Hi. lia. }
        rewrite Hget. rewrite link_at_app by (rewrite length_app; simpl; lia).
        destruct (decide (i = S (length L0))) as [->|Hi1].
        { (* the new entry *)
          rewrite lookup_app_r in Hi by (rewrite length_app; simpl; lia).
          rewrite length_app in Hi. simpl in Hi.
          replace (S (length L0) - (length L0 + 1)) with 0 in Hi by lia.
          injection Hi as <-.
          rewrite decide_False, decide_True by done.
          eexists. split_and!; try done.
          - simpl. symmetry. apply lookup_ge_None. rewrite !length_app. simpl. lia.
          - simpl. by rewrite Hb. }
        rewrite lookup_app_l in Hi by (rewrite length_app; simpl; lia).
        destruct (linked_entry _ _ _ HL _ _ Hi) as (e & Hge & Hhe & Hne' & Hpe).
        case_decide as Hxb.
        { subst x. assert (i = length L0) as ->.
          { eapply NoDup_lookup; [apply (linked_nodup _ _ _ HL)|done..]. }
          eexists. split_and!; try done. simpl.
          rewrite lookup_app_r by (rewrite length_app; simpl; lia).
          rewrite length_app. simpl.
          by replace (S (length L0) - (length L0 + 1)) with 0 by lia. }
        rewrite decide_False.
        2:{ intros ->. apply Hnotin. by eapply list_elem_of_lookup_2. }
        exists e. split_and!; try done.
        rewrite Hne'. destruct (decide (i = length L0)) as [->|].
        { rewrite Hb in Hi. by simplify_eq. }
        symmetry. apply lookup_app_l. rewrite length_app. simpl. lia.
      * intros x e. rewrite Hget. repeat case_decide; subst.
        -- intros _ _. solve_elem.
        -- intros _ _. solve_elem.
        -- intros He Hne'. apply elem_of_app. left.
           by apply (linked_used _ _ _ HL x e).
      * intros x e. rewrite Hget. repeat case_decide; subst.
        -- intros [= <-]. simpl. done.
        -- intros [= <-]. simpl. done.
        -- apply (linked_free _ _ _ HL).
    + replace (S (length L0)) with (length (L0 ++ [b0]))
        by (rewrite length_app; simpl; lia).
      by rewrite list_lookup_middle.
    + unfold t'. by rewrite !length_set.
    + intros x. rewrite Hget. repeat case_decide; subst; try done.
      by rewrite Hgb.
Qed.

(** *** Overwriting a value *)

Lemma update_linked t hd L a e v :
  linked t hd L → get t a = Some e → hash e ≠ 0%Z →
  linked (set t a (with_value e v)) hd L.
Proof.
  intros HL Ha Hh.
  assert (Hget : ∀ x, get (set t a (with_value e v)) x
            = if decide (x = a) then Some (with_value e v) else get t x).
  { intros x. rewrite get_set, Ha. by repeat case_decide; simplify_eq. }
  split.
  - apply (linked_nodup _ _ _ HL).
  - apply (linked_head _ _ _ HL).
  - intros i x Hi. destruct (linked_entry _ _ _ HL _ _ Hi) as (e' & ? & ? & ? & ?).
    rewrite Hget. case_decide; subst; [|by exists e'].
    simplify_eq. by eexists.
  - intros x e'. rewrite Hget. case_decide; subst.
    + intros _ _. by apply (linked_used _ _ _ HL a e).
    + apply (linked_used _ _ _ HL).
  - intros x e'. rewrite Hget. case_decide; subst.
    + by intros [= <-].
    + apply (linked_free _ _ _ HL).
Qed.

(** *** Removing an entry from the list *)

Lemma remove_linked ht L i a e :
  linked (table ht) (head ht) L →
  tailLink ht = link_at L (length L) →
  L !! i = Some a → get (table ht) a = Some e →
  ∃ ht', remove nilK nilV ht a e = Returns ht'
    ∧ linked (table ht') (head ht') (base.delete i L)
    ∧ tailLink ht' = link_at (base.delete i L) (length (base.delete i L))
    ∧ len ht' = u32 (len ht - 1)
    ∧ itercount ht' = itercount ht ∧ frozen ht' = frozen ht
    ∧ length (table ht') = length (table ht)
    ∧ (∀ x, data <$> get (table ht') x =
            if decide (x = a) then Some (data zero_entry)
            else data <$> get (table ht) x).
Proof.
  intros HL Htail Hi Ha.
  pose proof (linked_nodup _ _ _ HL) as Hnd.
  destruct (linked_entry _ _ _ HL _ _ Hi) as (e' & He' & Hh & Hn & Hp).
  assert (e' = e) as -> by congruence. clear He'.
  assert (Hlen : i < length L) by by eapply lookup_lt_Some.
  (* the state after the removal, whatever the position of the entry *)
  assert (∃ ht', remove nilK nilV ht a e = Returns ht'
    ∧ head ht' = (if decide (i = 0) then L !! 1 else head ht)
    ∧ tailLink ht' = (if decide (S i = length L) then link_at L i else tailLink ht)
    ∧ len ht' = u32 (len ht - 1)
    ∧ itercount ht' = itercount ht ∧ frozen ht' = frozen ht
    ∧ length (table ht') = length (table ht)
    ∧ (∀ x, get (table ht') x =
         if decide (x = a) then Some zero_entry
         else if decide (L !! S i = Some x)
           then (λ e, with_prevLink e (link_at L i)) <$> get (table ht) x
         else if decide (link_at L i = Some (LinkNext x))
           then (λ e, with_next e (L !! S i)) <$> get (table ht) x
         else get (table ht) x))
    as (ht' & Hrm & Hhead & Htl & Hl & Hic & Hfr & Hlt & Hget).
  { unfold remove. rewrite Hp, Hn.
    destruct i as [|j]; simpl.
    - (* the first entry: the link is &ht.head *)
      destruct (L !! 1) as [n|] eqn:Hn1; simpl.
      + destruct (linked_entry _ _ _ HL _ _ Hn1) as (en & Hgn & _).
        rewrite Hgn. simpl.
        assert (n ≠ a).
        { intros ->. by pose proof (NoDup_lookup _ _ _ _ Hnd Hi Hn1). }
        eexists. split; [done|]. simpl. split_and!; try done.
        * rewrite decide_False; [done|]. apply lookup_lt_Some in Hn1. lia.
        * by rewrite !length_set.
        * intros x. rewrite !get_set, Hgn.
          repeat case_decide; simplify_eq; rewrite ?Ha, ?Hgn; try done.
      + eexists. split; [done|]. simpl. split_and!; try done.
        * rewrite decide_True; [done|]. apply lookup_ge_None in Hn1. lia.
        * by rewrite !length_set.
        * intros x. rewrite !get_set, Ha.
          repeat case_decide; simplify_eq; rewrite ?Ha; try done.
    - (* the link is the next field of the entry before *)
      destruct (L !! j) as [p|] eqn:Hpj; simpl.
      2:{ apply lookup_ge_None in Hpj. lia. }
      destruct (linked_entry _ _ _ HL _ _ Hpj) as (ep & Hgp & _).
      rewrite Hgp. simpl.
      assert (p ≠ a).
      { intros ->. pose proof (NoDup_lookup _ _ _ _ Hnd Hi Hpj). lia. }
      destruct (L !! S (S j)) as [n|] eqn:Hn1; simpl.
      + destruct (linked_entry _ _ _ HL _ _ Hn1) as (en & Hgn & _).
        assert (n ≠ a).
        { intros ->. pose proof (NoDup_lookup _ _ _ _ Hnd Hi Hn1). lia. }
        assert (n ≠ p).
        { intros ->. pose proof (NoDup_lookup _ _ _ _ Hnd Hpj Hn1). lia. }
        rewrite get_set_ne, Hgn by done. simpl.
        eexists. split; [done|]. simpl. split_and!; try done.
        * rewrite decide_False; [done|]. apply lookup_lt_Some in Hn1. lia.
        * by rewrite !length_set.
        * intros x. rewrite !get_set.
          repeat case_decide; simplify_eq; rewrite ?Ha, ?Hgn, ?Hgp; simpl;
            try done.
      + eexists. split; [done|]. simpl. split_and!; try done.
        * rewrite decide_True; [done|]. apply lookup_ge_None in Hn1. lia.
        * by rewrite !length_set.
        * intros x. rewrite !get_set.
          repeat case_decide; simplify_eq; rewrite ?Ha, ?Hgn, ?Hgp; simpl;
            try done. }
  exists ht'. split; [done|].
  assert (Hdel : ∀ m x, base.delete i L !! m = Some x →
            ∃ m', m' = (if decide (m < i) then m else S m) ∧ L !! m' = Some x
                  ∧ x ≠ a).
  { intros m x Hm. rewrite list_lookup_delete in Hm.
    eexists. split; [done|]. split; [done|].
    intros ->. pose proof (NoDup_lookup _ _ _ _ Hnd Hi Hm).
    case_decide; lia. }
  assert (Hhd : head ht' = base.delete i L !! 0).
  { rewrite Hhead. destruct (decide (i = 0)) as [->|].
    - by rewrite list_lookup_delete_ge by lia.
    - rewrite list_lookup_delete_lt by lia. apply (linked_head _ _ _ HL). }
  assert (Htl' : tailLink ht' = link_at (base.delete i L) (length (base.delete i L))).
  { rewrite Htl, link_at_delete, length_delete by (by rewrite Hi).
    rewrite Htail.
    destruct (decide (S i = length L)), (decide (length L - 1 ≤ i)); try lia.
    - by replace (length L - 1) with i by lia.
    - by replace (S (length L - 1)) with (length L) by lia. }
  clear Hhead Htl.
  split_and!; try done.
  - split.
    + eapply sublist_NoDup; [done|apply sublist_delete].
    + done.
    + intros m x Hm. destruct (Hdel _ _ Hm) as (m' & Hm' & Hx & Hxa).
      destruct (linked_entry _ _ _ HL _ _ Hx) as (ex & Hgx & Hhx & Hnx & Hpx).
      rewrite Hget, decide_False, Hgx by done. simpl.
      rewrite link_at_delete.
      destruct (decide (L !! S i = Some x)) as [Hxn|Hxn].
      { (* the entry after the one removed *)
        pose proof (NoDup_lookup _ _ _ _ Hnd Hx Hxn). subst m'.
        assert (m = i) as -> by (case_decide; lia).
        eexists. split_and!; try done; simpl.
        - rewrite Hnx, decide_False by lia.
          by rewrite list_lookup_delete_ge by lia.
        - by rewrite decide_True by lia. }
      destruct (decide (link_at L i = Some (LinkNext x))) as [Hxp|Hxp].
      { (* the entry before the one removed *)
        destruct i as [|j]; [done|]. simpl in Hxp.
        destruct (L !! j) as [p|] eqn:Hpj; [|done]. simpl in Hxp. simplify_eq.
        pose proof (NoDup_lookup _ _ _ _ Hnd Hx Hpj).
        assert (m = j) as -> by (case_decide; lia).
        eexists. split_and!; try done; simpl.
        - by rewrite list_lookup_delete_ge by lia.
        - rewrite decide_True by lia. rewrite Hpx.
          by rewrite decide_True by lia. }
      exists ex. split_and!; try done.
      * rewrite Hnx. subst m'. destruct (decide (m < i)).
        -- rewrite list_lookup_delete_lt; [done|].
           destruct (decide (S m = i)) as [<-|]; [|lia].
           exfalso. apply Hxp. simpl. by rewrite Hx.
        -- by rewrite list_lookup_delete_ge by lia.
      * rewrite Hpx. subst m'.
        destruct (decide (m < i)), (decide (m ≤ i)); try done; try lia.
        assert (m = i) as -> by lia. by destruct Hxn.
    + intros x ex. rewrite Hget. destruct (decide (x = a)); [by intros [= <-]|].
      intros Hgx Hhx.
      assert (x ∈ L) as [m Hm]%list_elem_of_lookup.
      { repeat case_decide.
        - destruct (get (table ht) x) as [e0|] eqn:Hg0; simplify_eq/=.
          by apply (linked_used _ _ _ HL x e0).
        - destruct (get (table ht) x) as [e0|] eqn:Hg0; simplify_eq/=.
          by apply (linked_used _ _ _ HL x e0).
        - by apply (linked_used _ _ _ HL x ex). }
      assert (m ≠ i) by (intros ->; congruence).
      apply list_elem_of_lookup.
      exists (if decide (m < i) then m else pred m).
      rewrite list_lookup_delete.
      destruct (decide (m < i)).
      * by rewrite decide_True by lia.
      * rewrite decide_False by lia. by replace (S (pred m)) with m by lia.
    + intros x ex. rewrite Hget. destruct (decide (x = a)); [by intros [= <-]|].
      destruct (decide (L !! S i = Some x)) as [Hxn|Hxn].
      { destruct (get (table ht) x) as [ey|] eqn:Hg0; [|done].
        intros [= <-] Hz. simpl in Hz.
        destruct (linked_entry _ _ _ HL _ _ Hxn) as (e1 & ? & ? & _).
        congruence. }
      destruct (decide (link_at L i = Some (LinkNext x))) as [Hxp|Hxp].
      { destruct (get (table ht) x) as [ey|] eqn:Hg0; [|done].
        intros [= <-] Hz. simpl in Hz.
        destruct i as [|j]; [done|]. simpl in Hxp.
        destruct (L !! j) as [p|] eqn:Hpj; [|done]. simpl in Hxp. simplify_eq.
        destruct (linked_entry _ _ _ HL _ _ Hpj) as (e1 & ? & ? & _).
        congruence. }
      apply (linked_free _ _ _ HL).
  - intros x. rewrite Hget. repeat case_decide; try done.
    + by destruct (get (table ht) x).
    + by destruct (get (table ht) x).
Qed.

(** *** A new bucket at the end of a chain *)

Lemma get_add_bucket_old t c x e :
  get t x = Some e → get (add_bucket t c) x = Some e.
Proof.
  intros (ch & b & Hc & Hb & He)%get_Some. unfold get, hashtable.add_bucket.
  destruct (decide (c = a_chain x)) as [->|].
  - rewrite list_lookup_alter_eq, Hc. simpl.
    by rewrite (lookup_app_l_Some _ _ _ _ Hb).
  - rewrite list_lookup_alter_ne, Hc, Hb by done. done.
Qed.

Lemma get_add_bucket_inv t c x e :
  get (add_bucket t c) x = Some e → get t x = Some e ∨ e = zero_entry.
Proof.
  intros (ch & b & Hc & Hb & He)%get_Some. unfold hashtable.add_bucket in Hc.
  destruct (decide (c = a_chain x)) as [->|].
  - rewrite list_lookup_alter_eq in Hc.
    destruct (t !! a_chain x) as [ch0|] eqn:Hc0; simplify_eq/=.
    apply lookup_app_Some in Hb as [Hb|[_ Hb]].
    + left. apply get_Some. by exists ch0, b.
    + right. apply list_elem_of_lookup_2, list_elem_of_singleton in Hb. subst b.
      unfold hashtable.zero_bucket in He. by apply lookup_replicate in He as [-> _].
  - rewrite list_lookup_alter_ne in Hc by done. left. apply get_Some. by exists ch, b.
Qed.

Lemma get_add_bucket_new t c (p : list (list entry)) :
  t !! c = Some p →
  get (add_bucket t c) (Addr c (length p) 0) = Some zero_entry.
Proof.
  intros Hc. unfold get, hashtable.add_bucket. simpl.
  rewrite list_lookup_alter_eq, Hc. simpl.
  by rewrite list_lookup_middle.
Qed.

Lemma length_add_bucket t c : length (add_bucket t c) = length t.
Proof. unfold hashtable.add_bucket. by rewrite length_alter. Qed.

Lemma linked_add_bucket t hd L c :
  linked t hd L → linked (add_bucket t c) hd L.
Proof.
  intros HL. split.
  - apply (linked_nodup _ _ _ HL).
  - apply (linked_head _ _ _ HL).
  - intros i x Hi. destruct (linked_entry _ _ _ HL _ _ Hi) as (e & He & ?).
    exists e. split; [|done]. by apply get_add_bucket_old.
  - intros x e [He| ->]%get_add_bucket_inv Hh; [|done].
    by apply (linked_used _ _ _ HL x e).
  - intros x e [He| ->]%get_add_bucket_inv Hh; [|done].
    by apply (linked_free _ _ _ HL x e).
Qed.

(** *** The chain of a hash *)

Lemma land_bound (h m : Z) : (0 ≤ m → 0 ≤ Z.land h m ≤ m)%Z.
Proof.
  intros Hm. split; [apply Z.land_nonneg; by right|].
  assert (Hz : Z.land (Z.ldiff m h) (Z.land h m) = 0%Z).
  { apply Z.bits_inj'. intros n Hn.
    rewrite !Z.land_spec, Z.ldiff_spec, Z.bits_0.
    destruct (Z.testbit m n), (Z.testbit h n); done. }
  assert (Hsum : (Z.ldiff m h + Z.land h m = m)%Z).
  { rewrite (Z.add_nocarry_lxor _ _ Hz), (Z.lxor_lor _ _ Hz).
    rewrite (Z.land_comm h m). apply Z.lor_ldiff_and. }
  assert (0 ≤ Z.ldiff m h)%Z by (apply Z.ldiff_nonneg; by left).
  lia.
Qed.

Lemma slot_index_lt t h : t ≠ [] → slot_index t h < length t.
Proof.
  intros Ht. unfold slot_index, u32.
  assert (0 < length t) by (destruct t; [done|simpl; lia]).
  assert (0 ≤ (Z.of_nat (length t) - 1) `mod` 2 ^ 32 ≤ Z.of_nat (length t) - 1)%Z.
  { split; [apply Z.mod_pos_bound; lia|]. apply Z.mod_le; lia. }
  pose proof (land_bound h ((Z.of_nat (length t) - 1) `mod` 2 ^ 32)). lia.
Qed.

Lemma slot_index_length t t' h :
  length t' = length t → slot_index t' h = slot_index t h.
Proof. unfold slot_index. by intros ->. Qed.

Lemma hashed_ext t t' :
  length t' = length t → hashed t →
  (∀ x e', get t' x = Some e' → hash e' ≠ 0%Z →
     (∃ e, get t x = Some e ∧ hash e = hash e' ∧ key e = key e')
     ∨ (nhash (key e') = Some (hash e') ∧ a_chain x = slot_index t (hash e'))) →
  hashed t'.
Proof.
  intros Hlen Hh Hext x e' He' Hne.
  rewrite (slot_index_length _ _ _ Hlen).
  destruct (Hext x e' He' Hne) as [(e & He & Hhe & Hke)|?]; [|done].
  rewrite <- Hhe, <- Hke. apply Hh; [done|congruence].
Qed.

Lemma hashed_data t t' a d :
  length t' = length t → hashed t →
  (∀ x, data <$> get t' x = if decide (x = a) then Some d
                            else data <$> get t x) →
  (d.1.1 ≠ 0%Z → nhash d.1.2 = Some d.1.1 ∧ a_chain a = slot_index t d.1.1) →
  hashed t'.
Proof.
  intros Hlen Hh Hd Hnew. apply (hashed_ext t); [done..|].
  intros x e' He' Hne. specialize (Hd x). rewrite He' in Hd. simpl in Hd.
  destruct (decide (x = a)) as [->|].
  - right. injection Hd as <-. by apply Hnew.
  - left. destruct (get t x) as [e|]; [|done]. exists e.
    unfold data in Hd. simpl in Hd. split_and!; congruence.
Qed.

(** *** The pairs of a table *)

Lemma kvs_ext t t' L :
  (∀ x, x ∈ L → data <$> get t' x = data <$> get t x) → kvs t' L = kvs t L.
Proof.
  intros Hd. apply list_fmap_ext. intros i x Hx.
  specialize (Hd x (list_elem_of_lookup_2 _ _ _ Hx)). unfold entry_at, kv.
  unfold data in Hd.
  destruct (get t x), (get t' x); simpl in *; congruence.
Qed.

Lemma kvs_app t L L' : kvs t (L ++ L') = kvs t L ++ kvs t L'.
Proof. apply fmap_app. Qed.

Lemma kvs_delete t L i : kvs t (base.delete i L) = base.delete i (kvs t L).
Proof. apply list_fmap_delete. Qed.

Lemma length_kvs t L : length (kvs t L) = length L.
Proof. apply length_fmap. Qed.

Lemma kvs_lookup t L i a e :
  L !! i = Some a → get t a = Some e → kvs t L !! i = Some (key e, value e).
Proof.
  intros Hi He. unfold kvs. rewrite list_lookup_fmap, Hi. simpl.
  unfold entry_at. by rewrite He.
Qed.

Lemma elem_of_kvs t hd L k v :
  linked t hd L → (k, v) ∈ kvs t L →
  ∃ a e, a ∈ L ∧ get t a = Some e ∧ hash e ≠ 0%Z ∧ key e = k ∧ value e = v.
Proof.
  intros HL (a & Hkv & [i Hi]%list_elem_of_lookup)%list_elem_of_fmap.
  destruct (linked_entry _ _ _ HL _ _ Hi) as (e & He & Hh & _).
  exists a, e. unfold entry_at, kv in Hkv. rewrite He in Hkv. simpl in Hkv.
  split_and!; try done; try congruence. by eapply list_elem_of_lookup_2.
Qed.

Lemma kvs_elem_of t hd L a e :
  linked t hd L → get t a = Some e → hash e ≠ 0%Z → (key e, value e) ∈ kvs t L.
Proof.
  intros HL He Hh. apply list_elem_of_fmap. exists a.
  unfold entry_at, kv. rewrite He. split; [done|].
  by apply (linked_used _ _ _ HL a e).
Qed.

(** *** The list is no longer than the table has slots *)

Fixpoint bucket_addrs (c b s : nat) (es : list entry) : list addr :=
  match es with
  | [] => []
  | _ :: es' => Addr c b s :: bucket_addrs c b (S s) es'
  end.

Fixpoint chain_addrs (c b : nat) (bs : list (list entry)) : list addr :=
  match bs with
  | [] => []
  | es :: bs' => bucket_addrs c b 0 es ++ chain_addrs c (S b) bs'
  end.

Fixpoint table_addrs (c : nat) (t : table_t) : list addr :=
  match t with
  | [] => []
  | ch :: t' => chain_addrs c 0 ch ++ table_addrs (S c) t'
  end.

Lemma bucket_addrs_spec c b es : ∀ s i e,
  es !! i = Some e → Addr c b (s + i) ∈ bucket_addrs c b s es.
Proof.
  induction es as [|e0 es IH]; intros s [|i] e; simpl; try done.
  - intros _. rewrite Nat.add_0_r. apply elem_of_cons. by left.
  - intros Hi. apply elem_of_cons. right.
    rewrite Nat.add_succ_r. by apply (IH (S s) i e).
Qed.

Lemma chain_addrs_spec c bs : ∀ b j i es e,
  bs !! j = Some es → es !! i = Some e → Addr c (b + j) i ∈ chain_addrs c b bs.
Proof.
  induction bs as [|es0 bs IH]; intros b [|j] i es e; simpl; try done.
  - intros [= <-] Hi. rewrite Nat.add_0_r. apply elem_of_app. left.
    by apply (bucket_addrs_spec c b es0 0 i e).
  - intros Hj Hi. apply elem_of_app. right.
    rewrite Nat.add_succ_r. by apply (IH (S b) j i es e).
Qed.

Lemma table_addrs_spec t : ∀ c i j s ch es e,
  t !! i = Some ch → ch !! j = Some es → es !! s = Some e →
  Addr (c + i) j s ∈ table_addrs c t.
Proof.
  induction t as [|ch0 t IH]; intros c [|i] j s ch es e; simpl; try done.
  - intros [= <-] Hj Hs. rewrite Nat.add_0_r. apply elem_of_app. left.
    by apply (chain_addrs_spec c ch0 0 j s es e).
  - intros Hi Hj Hs. apply elem_of_app. right.
    rewrite Nat.add_succ_r. by apply (IH (S c) i j s ch es e).
Qed.

Lemma length_bucket_addrs c b es : ∀ s, length (bucket_addrs c b s es) = length es.
Proof. induction es; intros s; simpl; [done|]. by rewrite IHes. Qed.

Lemma length_chain_addrs c bs : ∀ b,
  length (chain_addrs c b bs) = sum_list (map (λ b : list entry, length b) bs).
Proof.
  induction bs; intros b; simpl; [done|].
  by rewrite length_app, length_bucket_addrs, IHbs.
Qed.

Lemma length_table_addrs t : ∀ c, length (table_addrs c t) = slots t.
Proof.
  unfold slots. induction t; intros c; simpl; [done|].
  by rewrite length_app, length_chain_addrs, IHt.
Qed.

Lemma linked_length_le t hd L : linked t hd L → length L ≤ slots t.
Proof.
  intros HL. rewrite <- (length_table_addrs t 0).
  apply submseteq_length, NoDup_submseteq; [apply (linked_nodup _ _ _ HL)|].
  intros x [i Hi]%list_elem_of_lookup.
  destruct (linked_entry _ _ _ HL _ _ Hi) as (e & He & _).
  apply get_Some in He as (ch & es & ? & ? & ?).
  destruct x as [c b s]. by apply (table_addrs_spec t 0 c b s ch es e).
Qed.

(** *** Walking the list *)

Lemma walk_linked t hd L : linked t hd L → ∀ fuel i,
  length L - i < fuel →
  walk fuel t (L !! i) = Returns (entry_at t <$> drop i L).
Proof.
  intros HL. induction fuel as [|fuel IH]; intros i Hi; [lia|].
  destruct (L !! i) as [a|] eqn:Ha; simpl.
  - destruct (linked_entry _ _ _ HL i a Ha) as (e & He & _ & Hn & _).
    rewrite He. simpl. rewrite Hn, IH.
    2:{ apply lookup_lt_Some in Ha. lia. }
    simpl. rewrite (drop_S _ _ _ Ha). simpl. unfold entry_at at 2. by rewrite He.
  - apply lookup_ge_None in Ha. by rewrite drop_ge.
Qed.

Lemma list_entries_linked ht L :
  linked (table ht) (head ht) L →
  list_entries ht = Returns (entry_at (table ht) <$> L).
Proof.
  intros HL. unfold list_entries. rewrite (linked_head _ _ _ HL).
  rewrite (walk_linked _ _ _ HL) by (pose proof (linked_length_le _ _ _ HL); lia).
  by rewrite drop_0.
Qed.

(** The pairs of the table in the order of its list: what the loops of
    [keys], [items] and of a [keyIterator] go through. *)
Definition contents (ht : hashtable) : outcome (list (K * V)) :=
  es ← list_entries ht; Returns (kv <$> (es : list entry)).

Lemma contents_linked ht L :
  linked (table ht) (head ht) L → contents ht = Returns (kvs (table ht) L).
Proof.
  intros HL. unfold contents. rewrite (list_entries_linked _ _ HL). simpl.
  unfold kvs. by rewrite <- list_fmap_compose.
Qed.

Lemma keys_linked ht L :
  linked (table ht) (head ht) L → keys ht = Returns ((kvs (table ht) L).*1).
Proof.
  intros HL. unfold keys. rewrite (list_entries_linked _ _ HL). simpl.
  unfold kvs. by rewrite <- !list_fmap_compose.
Qed.

(** *** What the operations do to the pairs of a table

    The relations allow an [Equal] that fails or that is not an
    equivalence: then the result depends on the order of the entries in
    a chain, which the pairs do not show. *)

Inductive insert_rel0 (l : list (K * V)) (k : K) (v : V)
  : list (K * V) → option error → Prop :=
| ins_error k' v' err :
    (k', v') ∈ l → nhash k' = nhash k → Equal k k' = Err err →
    insert_rel0 l k v l (Some err)
| ins_update i k' v' :
    l !! i = Some (k', v') → nhash k' = nhash k → Equal k k' = Ok true →
    insert_rel0 l k v (<[i := (k', v)]> l) None
| ins_append :
    (∀ k' v', (k', v') ∈ l → nhash k' = nhash k → Equal k k' = Ok false) →
    insert_rel0 l k v (l ++ [(k, v)]) None.

(** [grow]: the pairs are inserted again, one after the other. *)
Inductive refold : list (K * V) → list (K * V) → list (K * V) → Prop :=
| refold_nil acc : refold [] acc acc
| refold_cons k v rest acc acc' r res :
    insert_rel0 acc k v acc' r → refold rest acc' res →
    refold ((k, v) :: rest) acc res.

Inductive insert_rel (l : list (K * V)) (k : K) (v : V)
  : list (K * V) → option error → Prop :=
| ins_direct l' r : insert_rel0 l k v l' r → insert_rel l k v l' r
| ins_grown l0 :
    (∀ k' v', (k', v') ∈ l → nhash k' = nhash k → Equal k k' = Ok false) →
    refold l [] l0 →
    insert_rel l k v (l0 ++ [(k, v)]) None.

Inductive find_rel (l : list (K * V)) (k : K)
  : option (nat * K * V) → option error → Prop :=
| find_error k' v' err :
    (k', v') ∈ l → nhash k' = nhash k → Equal k k' = Err err →
    find_rel l k None (Some err)
| find_found i k' v' :
    l !! i = Some (k', v') → nhash k' = nhash k → Equal k k' = Ok true →
    find_rel l k (Some (i, k', v')) None
| find_none :
    (∀ k' v', (k', v') ∈ l → nhash k' = nhash k → Equal k k' = Ok false) →
    find_rel l k None None.

Lemma nhash_norm k h0 : Hash k = Ok h0 → nhash k = Some (norm h0).
Proof. unfold nhash. by intros ->. Qed.

Lemma norm_nonzero h0 : norm h0 ≠ 0%Z.
Proof. unfold norm. destruct (Z.eqb_spec h0 0); lia. Qed.

(** What the scan of the chain of [k] finds in a well-formed table. *)
Lemma scan_wf ht L k h0 :
  wf ht L → table ht ≠ [] → Hash k = Ok h0 →
  let c := slot_index (table ht) (norm h0) in
  ∃ p, table ht !! c = Some p ∧
    match scan_buckets c 0 p (norm h0) k None with
    | ScanFound a =>
        ∃ i e, L !! i = Some a ∧ get (table ht) a = Some e
               ∧ nhash (key e) = nhash k ∧ Equal k (key e) = Ok true
    | ScanError err =>
        ∃ i a e, L !! i = Some a ∧ get (table ht) a = Some e
               ∧ nhash (key e) = nhash k ∧ Equal k (key e) = Err err
    | ScanEnd ins =>
        (∀ k' v', (k', v') ∈ kvs (table ht) L → nhash k' = nhash k
                  → Equal k k' = Ok false)
        ∧ match ins with
          | Some a => a_chain a = c ∧ get (table ht) a = Some zero_entry
          | None => True
          end
    end.
Proof.
  intros Hwf Hne Hk c.
  pose proof (wf_linked _ _ Hwf) as HL. pose proof (wf_hashed _ _ Hwf) as Hh.
  destruct (table ht !! c) as [p|] eqn:Hp.
  2:{ apply lookup_ge_None in Hp. pose proof (slot_index_lt (table ht) (norm h0) Hne).
      unfold c in Hp. lia. }
  exists p. split; [done|].
  assert (Hin : ∀ j i es e, p !! j = Some es → es !! i = Some e →
            get (table ht) (Addr c j i) = Some e).
  { intros j i es e ? ?. apply get_Some. by exists p, es. }
  assert (Hused : ∀ a e, get (table ht) a = Some e → hash e = norm h0 →
            ∃ i, L !! i = Some a ∧ nhash (key e) = nhash k).
  { intros a e He Hhe. pose proof (norm_nonzero h0).
    assert (hash e ≠ 0%Z) by congruence.
    destruct (Hh a e He) as [Hn _]; [done|].
    assert (a ∈ L) as [i Hi]%list_elem_of_lookup
      by by apply (linked_used _ _ _ HL a e).
    exists i. split; [done|]. rewrite Hn, (nhash_norm _ _ Hk). congruence. }
  pose proof (scan_buckets_spec c p (norm h0) k (norm_nonzero h0) 0 None) as Hscan.
  destruct (scan_buckets c 0 p (norm h0) k None) as [a|err|ins].
  - destruct Hscan as (j & i & es & e & -> & Hj & Hi & Hhe & HE). simpl.
    pose proof (Hin _ _ _ _ Hj Hi) as He.
    destruct (Hused _ _ He Hhe) as (m & Hm & Hn). by exists m, e.
  - destruct Hscan as (j & i & es & e & Hj & Hi & Hhe & HE).
    pose proof (Hin _ _ _ _ Hj Hi) as He.
    destruct (Hused _ _ He Hhe) as (m & Hm & Hn). by exists m, (Addr c j i), e.
  - destruct Hscan as [Hall Hins]. split.
    + intros k' v' (a & e & Ha & He & Hhe & <- & <-)%(elem_of_kvs _ _ _ _ _ HL) Hn.
      destruct (Hh a e He Hhe) as [Hn' Hc].
      assert (hash e = norm h0) as Hhe'.
      { rewrite Hn', (nhash_norm _ _ Hk) in Hn. congruence. }
      rewrite Hhe' in Hc. fold c in Hc.
      apply get_Some in He as (p' & es & Hp' & Hes & Hi).
      rewrite Hc, Hp in Hp'. simplify_eq. by eapply Hall.
    + destruct Hins as [[-> _]|(j & i & es & e & -> & Hj & Hi & Hz)]; [done|].
      simpl. split; [done|].
      pose proof (Hin _ _ _ _ Hj Hi) as He.
      by rewrite (linked_free _ _ _ HL _ _ He Hz) in He.
Qed.

(** *** Insertion without growth *)

Lemma insert_retry_unfold fuel ht h k v :
  insert_retry fuel ht h k v =
  (let c := slot_index (table ht) h in
   p ← deref (table ht !! c);
   match scan_buckets c 0 p h k None with
   | ScanFound a =>
       e ← deref (get (table ht) a);
       Returns (with_table ht (set (table ht) a (with_value e v)), None)
   | ScanError err => Returns (ht, Some err)
   | ScanEnd ins =>
       if overloaded (len ht) (Z.of_nat (length (table ht))) then
         match fuel with
         | O => OutOfFuel
         | S f =>
             ht' ← grow_with (insert_with (insert_retry f)) ht;
             insert_retry f ht' h k v
         end
       else
         let '(ht1, a) :=
           match ins with
           | Some a => (ht, a)
           | None => (with_table ht (add_bucket (table ht) c), Addr c (length p) 0)
           end in
         ht2 ← place ht1 a h k v;
         Returns (ht2, None)
   end).
Proof. by destruct fuel. Qed.

Lemma overloaded_false (e nb : Z) :
  overloaded e nb = false ↔ (e < 8 ∨ 2 * e < 13 * nb)%Z.
Proof.
  unfold overloaded, bucketSize. rewrite andb_false_iff, !Z.leb_gt. simpl. lia.
Qed.

Lemma u32_range z : (0 ≤ u32 z < 2 ^ 32)%Z.
Proof. unfold u32. apply Z.mod_pos_bound. lia. Qed.

Lemma u32_le z : (0 ≤ z → u32 z ≤ z)%Z.
Proof. intros. unfold u32. apply Z.mod_le; lia. Qed.

Lemma u32_small z : (0 ≤ z < 2 ^ 32 → u32 z = z)%Z.
Proof. intros. unfold u32. by apply Z.mod_small. Qed.

Lemma u32_succ z : u32 (u32 z + 1) = u32 (z + 1).
Proof. unfold u32. by rewrite Zplus_mod_idemp_l. Qed.

Lemma u32_pred z : u32 (u32 z - 1) = u32 (z - 1).
Proof. unfold u32. by rewrite Zminus_mod_idemp_l. Qed.

Lemma load_ok_succ n nb :
  load_ok n nb → overloaded (u32 (Z.of_nat n)) (Z.of_nat nb) = false →
  load_ok (S n) nb.
Proof.
  unfold load_ok. rewrite overloaded_false. intros Hl Ho.
  destruct (decide (Z.of_nat n < 2 ^ 32)%Z).
  - rewrite u32_small in Ho by lia. lia.
  - lia.
Qed.

Lemma load_ok_le n m nb : load_ok n nb → m ≤ n → load_ok m nb.
Proof. unfold load_ok. lia. Qed.

Lemma kvs_update t hd L i a e v :
  linked t hd L → L !! i = Some a → get t a = Some e →
  kvs (set t a (with_value e v)) L = <[i := (key e, v)]> (kvs t L).
Proof.
  intros HL Hi He. apply list_eq. intros j.
  destruct (decide (j = i)) as [->|Hne].
  - rewrite list_lookup_insert_eq by (rewrite length_kvs; by eapply lookup_lt_Some).
    unfold kvs. rewrite list_lookup_fmap, Hi. simpl. unfold entry_at.
    rewrite get_set_eq by by rewrite He. done.
  - rewrite list_lookup_insert_ne by done. unfold kvs.
    rewrite !list_lookup_fmap. destruct (L !! j) as [x|] eqn:Hj; [simpl|done].
    unfold entry_at. rewrite get_set_ne; [done|].
    intros ->. by pose proof (NoDup_lookup _ _ _ _ (linked_nodup _ _ _ HL) Hi Hj).
Qed.

Lemma insert_retry_nogrow fuel ht L k v h0 :
  wf ht L → table ht ≠ [] → Hash k = Ok h0 →
  (∀ p ins, table ht !! slot_index (table ht) (norm h0) = Some p →
     scan_buckets (slot_index (table ht) (norm h0)) 0 p (norm h0) k None
       = ScanEnd ins →
     overloaded (len ht) (Z.of_nat (length (table ht))) = false) →
  ∃ ht' L' r, insert_retry fuel ht (norm h0) k v = Returns (ht', r)
    ∧ wf ht' L' ∧ length (table ht') = length (table ht)
    ∧ frozen ht' = frozen ht ∧ itercount ht' = itercount ht
    ∧ insert_rel0 (kvs (table ht) L) k v (kvs (table ht') L') r.
Proof.
  intros Hwf Hne Hk Hroom.
  pose proof (wf_linked _ _ Hwf) as HL. pose proof (wf_hashed _ _ Hwf) as Hh.
  destruct (scan_wf ht L k h0 Hwf Hne Hk) as (p & Hp & Hscan).
  rewrite insert_retry_unfold. cbv zeta. rewrite Hp. simpl.
  specialize (Hroom p). 
  destruct (scan_buckets _ 0 p (norm h0) k None) as [a|err|ins].
  - (* the key is present: its value is overwritten *)
    destruct Hscan as (i & e & Hi & He & Hn & HE).
    destruct (linked_entry _ _ _ HL _ _ Hi) as (e' & He' & Hhe & _).
    assert (e' = e) as -> by congruence.
    rewrite He. simpl. eexists _, L, None. split; [done|]. simpl.
    split_and!; try done.
    + split; simpl.
      * by apply update_linked.
      * intros _. by apply (wf_tail _ _ Hwf).
      * apply (hashed_data (table ht) _ a (hash e, key e, v));
          [by rewrite length_set|done| |].
        -- intros x. rewrite get_set, He.
           repeat case_decide; simplify_eq; done.
        -- simpl. intros _. by apply Hh.
      * apply (wf_len _ _ Hwf).
      * rewrite length_set. apply (wf_load _ _ Hwf).
    + by rewrite length_set.
    + rewrite (kvs_update _ _ _ i a e v HL Hi He).
      apply (ins_update _ _ _ i (key e) (value e)); try done.
      by apply kvs_lookup with a.
  - (* the comparison with a key failed *)
    destruct Hscan as (i & a & e & Hi & He & Hn & HE).
    eexists ht, L, (Some err). split_and!; try done.
    apply (ins_error _ _ _ (key e) (value e)); try done.
    apply list_elem_of_lookup. exists i. by apply kvs_lookup with a.
  - (* the key is new *)
    destruct Hscan as [Hall Hins].
    rewrite (Hroom ins) by done.
    set (c := slot_index (table ht) (norm h0)) in *.
    assert (∃ ht1 a,
      (match ins with
       | Some a => (ht, a)
       | None => (with_table ht (add_bucket (table ht) c), Addr c (length p) 0)
       end) = (ht1, a)
      ∧ linked (table ht1) (head ht1) L
      ∧ tailLink ht1 = tailLink ht ∧ head ht1 = head ht ∧ len ht1 = len ht
      ∧ frozen ht1 = frozen ht ∧ itercount ht1 = itercount ht
      ∧ length (table ht1) = length (table ht)
      ∧ hashed (table ht1)
      ∧ kvs (table ht1) L = kvs (table ht) L
      ∧ a_chain a = c ∧ get (table ht1) a = Some zero_entry)
      as (ht1 & a & -> & HL1 & Ht1 & Hhd1 & Hl1 & Hf1 & Hi1 & Hlen1 & Hh1 & Hkv1 & Hac & Ha).
    { destruct ins as [a|].
      - destruct Hins as [? ?]. by exists ht, a.
      - eexists _, _. split; [done|]. simpl. split_and!; try done.
        + by apply linked_add_bucket.
        + apply length_add_bucket.
        + apply (hashed_ext (table ht)); [apply length_add_bucket|done|].
          intros x e' [He'| ->]%get_add_bucket_inv Hne'; [|done].
          left. by exists e'.
        + apply kvs_ext. intros x [i Hi]%list_elem_of_lookup.
          destruct (linked_entry _ _ _ HL _ _ Hi) as (e & He & _).
          by rewrite He, (get_add_bucket_old _ c _ _ He).
        + by apply get_add_bucket_new. }
    destruct (place_linked ht1 L a (norm h0) k v) as
      (ht' & Hpl & HL' & Htl' & Hlen' & Hic' & Hfr' & Hlt' & Hd'); try done.
    { rewrite Ht1. apply (wf_tail _ _ Hwf Hne). }
    { apply norm_nonzero. }
    rewrite Hpl. simpl. exists ht', (L ++ [a]), None. split; [done|].
    assert (Hkv' : kvs (table ht') (L ++ [a]) = kvs (table ht) L ++ [(k, v)]).
    { rewrite kvs_app, <- Hkv1. f_equal.
      - apply kvs_ext. intros x Hx. rewrite Hd', decide_False; [done|].
        intros ->. by apply (linked_free_notin _ _ _ _ HL1 Ha).
      - unfold kvs. simpl. unfold entry_at, kv.
        specialize (Hd' a). rewrite decide_True in Hd' by done.
        destruct (get (table ht') a) as [e'|]; [|done].
        unfold data in Hd'. simpl in *. repeat f_equal; congruence. }
    split_and!; try congruence.
    + split.
      * done.
      * intros _. by rewrite Htl', length_app, Nat.add_1_r.
      * apply (hashed_data (table ht1) _ a (norm h0, k, v)); try done.
        simpl. intros _. split; [by apply nhash_norm|].
        rewrite Hac. unfold c. by rewrite (slot_index_length _ _ _ Hlen1).
      * rewrite Hlen', Hl1, (wf_len _ _ Hwf), u32_succ, length_app. simpl.
        f_equal. lia.
      * rewrite length_app, Nat.add_1_r, Hlt', Hlen1.
        apply load_ok_succ; [apply (wf_load _ _ Hwf)|].
        rewrite <- (wf_len _ _ Hwf). by apply (Hroom ins).
    + rewrite Hkv'. by apply ins_append.
Qed.

(** *** Tables without entries *)

Lemma get_make_table nb a e : get (make_table nb) a = Some e → e = zero_entry.
Proof.
  intros (c & b & Hc & Hb & He)%get_Some.
  unfold hashtable.make_table in Hc. apply lookup_replicate in Hc as [-> _].
  apply list_elem_of_lookup_2, list_elem_of_singleton in Hb as ->.
  unfold hashtable.zero_bucket in He. by apply lookup_replicate in He as [-> _].
Qed.

Lemma linked_make_table nb : linked (make_table nb) None [].
Proof.
  split; try done.
  - apply NoDup_nil_2.
  - by intros x e ->%get_make_table.
  - by intros x e ->%get_make_table.
Qed.

Lemma hashed_make_table nb : hashed (make_table nb).
Proof. by intros x e ->%get_make_table. Qed.

Lemma length_make_table nb : length (make_table nb) = nb.
Proof. apply length_replicate. Qed.

Lemma wf_fresh nb ic fr :
  wf (Hashtable (make_table nb) 0%Z ic None (Some LinkHead) fr) [].
Proof.
  split; simpl; try done.
  - apply linked_make_table.
  - apply hashed_make_table.
  - unfold load_ok. simpl. lia.
Qed.

Lemma wf_zero : wf (@hashtable.zero K V) [].
Proof.
  split; simpl; try done.
  - split; try done. apply NoDup_nil_2.
  - unfold load_ok. simpl. lia.
Qed.

Lemma wf_nil ht L : wf ht L → table ht = [] → L = [].
Proof.
  intros Hwf Ht. destruct L as [|a L]; [done|].
  destruct (linked_entry _ _ _ (wf_linked _ _ Hwf) 0 a eq_refl) as (e & He & _).
  rewrite Ht in He. by destruct a.
Qed.

Lemma init_nb_returns size : ∀ fuel nb,
  1 ≤ nb → (size < 2 ^ Z.of_nat fuel * Z.of_nat nb)%Z →
  ∃ nb', init_nb fuel size nb = Returns nb' ∧ nb ≤ nb'
         ∧ overloaded size (Z.of_nat nb') = false.
Proof.
  induction fuel as [|fuel IH]; intros nb Hnb Hsize; cbn [hashtable.init_nb].
  - destruct (overloaded size (Z.of_nat nb)) eqn:Ho; [|by exists nb].
    unfold overloaded in Ho. apply andb_true_iff in Ho as [_ Ho%Z.leb_le].
    simpl in Hsize. lia.
  - destruct (overloaded size (Z.of_nat nb)) eqn:Ho; [|by exists nb].
    destruct (IH (2 * nb)) as (nb' & -> & ? & ?); [lia| |].
    + rewrite Nat2Z.inj_succ, Z.pow_succ_r in Hsize by lia. lia.
    + exists nb'. split_and!; try done. lia.
Qed.

Lemma init_returns ht size :
  (0 ≤ size)%Z →
  ∃ nb, init ht size
        = Returns (with_tailLink (with_table ht (make_table nb)) (Some LinkHead))
    ∧ 1 ≤ nb ∧ overloaded size (Z.of_nat nb) = false.
Proof.
  intros Hsize. unfold hashtable.init.
  destruct (Z.ltb_spec size 0) as [|_]; [lia|].
  destruct (init_nb_returns size (Z.to_nat (Z.log2_up (size + 1))) 1)
    as (nb & -> & ? & ?); [lia| |by exists nb].
  rewrite Z2Nat.id by apply Z.log2_up_nonneg.
  change (Z.of_nat 1) with 1%Z. rewrite Z.mul_1_r.
  destruct (decide (size = 0%Z)) as [->|]; [done|].
  pose proof (Z.log2_up_spec (size + 1)). lia.
Qed.

Lemma init_wf ht size :
  wf ht [] → (0 ≤ size)%Z →
  ∃ ht', init ht size = Returns ht' ∧ wf ht' [] ∧ table ht' ≠ []
    ∧ frozen ht' = frozen ht ∧ itercount ht' = itercount ht
    ∧ len ht' = len ht
    ∧ overloaded size (Z.of_nat (length (table ht'))) = false.
Proof.
  intros Hwf Hsize. destruct (init_returns ht size Hsize) as (nb & -> & Hnb & Ho).
  eexists. split; [done|]. simpl. rewrite length_make_table.
  split_and!; try done.
  - split; simpl.
    + rewrite (linked_head _ _ _ (wf_linked _ _ Hwf)). apply linked_make_table.
    + done.
    + apply hashed_make_table.
    + apply (wf_len _ _ Hwf).
    + unfold load_ok. simpl. lia.
  - destruct nb; [lia|done].
Qed.

(** [insert] makes sure that the table has buckets. *)
Lemma ensure_table ht L :
  wf ht L →
  ∃ ht0, (match table ht with [] => init ht 1 | _ => Returns ht end) = Returns ht0
    ∧ wf ht0 L ∧ table ht0 ≠ []
    ∧ frozen ht0 = frozen ht ∧ itercount ht0 = itercount ht
    ∧ len ht0 = len ht
    ∧ kvs (table ht0) L = kvs (table ht) L
    ∧ (table ht ≠ [] → ht0 = ht)
    ∧ (table ht = [] → overloaded (len ht0) (Z.of_nat (length (table ht0))) = false).
Proof.
  intros Hwf. destruct (table ht) as [|c t] eqn:Ht.
  - pose proof (wf_nil _ _ Hwf Ht) as ->.
    destruct (init_wf ht 1 Hwf) as (ht' & Hi & ? & ? & ? & ? & Hl & ?); [lia|].
    exists ht'. split_and!; try done.
    intros _. rewrite Hl, (wf_len _ _ Hwf). by apply overloaded_false; left.
  - exists ht. split_and!; try done; by rewrite Ht.
Qed.

(** *** A run of insertions that do not grow the table *)

Definition hashable (k : K) : Prop := ∃ h0, Hash k = Ok h0.

(** A table of [nb] chains takes [n] entries without growing. *)
Definition roomy (n nb : nat) : Prop :=
  ∀ m, m < n → overloaded (u32 (Z.of_nat m)) (Z.of_nat nb) = false.

Definition insert_all
    (ins : hashtable → K → V → outcome (hashtable * option error))
    (ht : hashtable) (l : list (K * V)) : outcome hashtable :=
  foldl (λ acc p, h ← acc; '(h', _) ← ins h p.1 p.2; Returns h') (Returns ht) l.

Lemma insert_rel0_length l k v l' r :
  insert_rel0 l k v l' r → length l ≤ length l' ≤ S (length l).
Proof.
  destruct 1.
  - lia.
  - rewrite length_insert. lia.
  - rewrite length_app. simpl. lia.
Qed.

Lemma insert_nogrow fuel ht L k v :
  wf ht L → frozen ht = false → (0 <? itercount ht)%Z = false → hashable k →
  (table ht ≠ [] → overloaded (len ht) (Z.of_nat (length (table ht))) = false) →
  ∃ ht' L' r, insert fuel ht k v = Returns (ht', r)
    ∧ wf ht' L' ∧ table ht' ≠ []
    ∧ (table ht ≠ [] → length (table ht') = length (table ht))
    ∧ frozen ht' = frozen ht ∧ itercount ht' = itercount ht
    ∧ insert_rel0 (kvs (table ht) L) k v (kvs (table ht') L') r.
Proof.
  intros Hwf Hfr Hic [h0 Hk] Hroom.
  unfold hashtable.insert, hashtable.insert_with. rewrite Hfr, Hic.
  destruct (ensure_table ht L Hwf)
    as (ht0 & -> & Hwf0 & Hne0 & Hfr0 & Hic0 & Hl0 & Hkv0 & Hsame & Hnew).
  simpl. rewrite Hk. change (if (h0 =? 0)%Z then 1%Z else h0) with (norm h0).
  destruct (insert_retry_nogrow fuel ht0 L k v h0 Hwf0 Hne0 Hk)
    as (ht' & L' & r & -> & Hwf' & Hlen' & Hfr' & Hic' & Hrel).
  { intros _ _ _ _. destruct (decide (table ht = [])) as [Ht|Ht]; [by apply Hnew|].
    rewrite (Hsame Ht). by apply Hroom. }
  exists ht', L', r. split_and!; try done; try congruence.
  - intros Ht. apply (f_equal length) in Ht. rewrite Hlen' in Ht.
    by destruct (table ht0).
  - intros Ht. by rewrite Hlen', (Hsame Ht).
Qed.

Lemma roomy_le n m nb : roomy n nb → m ≤ n → roomy m nb.
Proof. intros Hr Hm j Hj. apply Hr. lia. Qed.

Lemma insert_all_nogrow fuel : ∀ l ht L,
  wf ht L → table ht ≠ [] → frozen ht = false → (0 <? itercount ht)%Z = false →
  (∀ k v, (k, v) ∈ l → hashable k) →
  roomy (length L + length l) (length (table ht)) →
  ∃ ht' L', insert_all (insert fuel) ht l = Returns ht'
    ∧ wf ht' L' ∧ length (table ht') = length (table ht)
    ∧ frozen ht' = frozen ht ∧ itercount ht' = itercount ht
    ∧ refold l (kvs (table ht) L) (kvs (table ht') L')
    ∧ length L' ≤ length L + length l.
Proof.
  induction l as [|[k v] l IH]; intros ht L Hwf Hne Hfr Hic Hhash Hroom.
  { exists ht, L. split_and!; try done; [constructor|simpl; lia]. }
  destruct (insert_nogrow fuel ht L k v Hwf Hfr Hic)
    as (ht1 & L1 & r & Hins & Hwf1 & Hne1 & Hlen1 & Hfr1 & Hic1 & Hrel).
  { apply (Hhash k v). apply elem_of_cons. by left. }
  { intros _. rewrite (wf_len _ _ Hwf). apply Hroom. simpl. lia. }
  pose proof (insert_rel0_length _ _ _ _ _ Hrel) as HlenL.
  rewrite !length_kvs in HlenL.
  destruct (IH ht1 L1) as (ht' & L' & Hall & Hwf' & Hlen' & Hfr' & Hic' & Href & HL');
    try done; try congruence.
  { intros k' v' Hin. apply (Hhash k' v'). apply elem_of_cons. by right. }
  { rewrite (Hlen1 Hne). eapply roomy_le; [done|]. simpl. lia. }
  exists ht', L'. unfold insert_all in *. simpl. rewrite Hins. simpl.
  split_and!; try done; try congruence.
  - rewrite Hlen'. by apply Hlen1.
  - by econstructor.
  - simpl. lia.
Qed.

Lemma refold_subset l : ∀ acc res k v,
  refold l acc res → (k, v) ∈ res →
  (∃ v', (k, v') ∈ acc) ∨ (∃ v', (k, v') ∈ l).
Proof.
  induction l as [|[k0 v0] l IH]; intros acc res k v Href Hin;
    inversion Href as [|? ? ? ? acc' r ? Hins Hrest]; simplify_eq.
  { left. by exists v. }
  destruct (IH _ _ _ _ Hrest Hin) as [[v' Hv']|[v' Hv']].
  - inversion Hins as [| i k1 v1 |]; simplify_eq.
    + left. by exists v'.
    + apply list_elem_of_lookup in Hv' as [j Hj].
      destruct (decide (j = i)) as [->|].
      * rewrite list_lookup_insert_eq in Hj by (by eapply lookup_lt_Some).
        simplify_eq. left. exists v1. by eapply list_elem_of_lookup_2.
      * rewrite list_lookup_insert_ne in Hj by done.
        left. exists v'. by eapply list_elem_of_lookup_2.
    + apply elem_of_app in Hv' as [?|Hv'].
      * left. by exists v'.
      * apply list_elem_of_singleton in Hv'. simplify_eq.
        right. exists v0. apply elem_of_cons. by left.
  - right. exists v'. apply elem_of_cons. by right.
Qed.

(** *** Growth *)

Lemma load_ok_roomy n nb : load_ok n nb → 1 ≤ nb → roomy (S n) (2 * nb).
Proof.
  unfold load_ok. intros Hl Hnb m Hm. apply overloaded_false.
  pose proof (u32_range (Z.of_nat m)). pose proof (u32_le (Z.of_nat m)). lia.
Qed.

Lemma nhash_hashable k h : nhash k = Some h → hashable k.
Proof. unfold nhash, hashable. destruct (Hash k); [eauto|done]. Qed.

Lemma kvs_hashable ht L k v :
  wf ht L → (k, v) ∈ kvs (table ht) L → hashable k.
Proof.
  intros Hwf (a & e & _ & He & Hh & <- & _)%(elem_of_kvs _ _ _ _ _ (wf_linked _ _ Hwf)).
  destruct (wf_hashed _ _ Hwf a e He Hh) as [Hn _]. by eapply nhash_hashable.
Qed.

Lemma grow_with_insert_all ins ht L :
  linked (table ht) (head ht) L →
  grow_with ins ht =
  insert_all ins
    (Hashtable (make_table (2 * length (table ht))) 0%Z (itercount ht) None
       (Some LinkHead) (frozen ht))
    (kvs (table ht) L).
Proof.
  intros HL. unfold hashtable.grow_with. rewrite (list_entries_linked _ _ HL).
  simpl. unfold insert_all, kvs. by rewrite !foldl_fmap.
Qed.

Lemma grow_spec fuel ht L :
  wf ht L → table ht ≠ [] → frozen ht = false → (0 <? itercount ht)%Z = false →
  ∃ ht1 L1, grow_with (insert fuel) ht = Returns ht1
    ∧ wf ht1 L1 ∧ length (table ht1) = 2 * length (table ht)
    ∧ frozen ht1 = frozen ht ∧ itercount ht1 = itercount ht
    ∧ refold (kvs (table ht) L) [] (kvs (table ht1) L1)
    ∧ length L1 ≤ length L.
Proof.
  intros Hwf Hne Hfr Hic.
  rewrite (grow_with_insert_all _ _ L (wf_linked _ _ Hwf)).
  assert (1 ≤ length (table ht)) by (destruct (table ht); [done|simpl; lia]).
  destruct (insert_all_nogrow fuel (kvs (table ht) L)
              (Hashtable (make_table (2 * length (table ht))) 0%Z (itercount ht)
                 None (Some LinkHead) (frozen ht)) [])
    as (ht1 & L1 & Hall & Hwf1 & Hlen1 & Hfr1 & Hic1 & Href & HL1); simpl; try done.
  - apply wf_fresh.
  - destruct (length (table ht)); [lia|done].
  - intros k v. by apply kvs_hashable.
  - rewrite length_make_table, length_kvs.
    eapply roomy_le; [apply load_ok_roomy; [apply (wf_load _ _ Hwf)|done]|lia].
  - exists ht1, L1. simpl in *. rewrite length_make_table in Hlen1.
    rewrite length_kvs in HL1. by split_and!.
Qed.

(** *** Insertion *)

Lemma insert_retry_spec fuel ht0 L k v h0 :
  wf ht0 L → table ht0 ≠ [] → frozen ht0 = false →
  (0 <? itercount ht0)%Z = false → Hash k = Ok h0 → 1 ≤ fuel →
  ∃ ht' L' r, insert_retry fuel ht0 (norm h0) k v = Returns (ht', r)
    ∧ wf ht' L' ∧ table ht' ≠ []
    ∧ frozen ht' = frozen ht0 ∧ itercount ht' = itercount ht0
    ∧ insert_rel (kvs (table ht0) L) k v (kvs (table ht') L') r.
Proof.
  intros Hwf0 Hne0 Hfr Hic Hk Hfuel.
  destruct (scan_wf ht0 L k h0 Hwf0 Hne0 Hk) as (p & Hp & Hscan).
  set (c := slot_index (table ht0) (norm h0)) in *.
  destruct (scan_buckets c 0 p (norm h0) k None) as [a|err|ins] eqn:Hs.
  1,2: destruct (insert_retry_nogrow fuel ht0 L k v h0 Hwf0 Hne0 Hk)
         as (ht' & L' & r & -> & Hwf' & Hlen' & Hfr' & Hic' & Hrel);
       [intros p' ins' Hp' Hs'; fold c in Hp', Hs'; congruence|];
       exists ht', L', r; split_and!; try done;
       [intros Ht; apply (f_equal length) in Ht; rewrite Hlen' in Ht;
        by destruct (table ht0)
       |by apply ins_direct].
  destruct (overloaded (len ht0) (Z.of_nat (length (table ht0)))) eqn:Ho.
  2:{ destruct (insert_retry_nogrow fuel ht0 L k v h0 Hwf0 Hne0 Hk)
         as (ht' & L' & r & -> & Hwf' & Hlen' & Hfr' & Hic' & Hrel); [done|].
      exists ht', L', r. split_and!; try done; [|by apply ins_direct].
      intros Ht. apply (f_equal length) in Ht. rewrite Hlen' in Ht.
      by destruct (table ht0). }
  (* the table grows, and the scan is made again *)
  destruct Hscan as [Hall _].
  rewrite insert_retry_unfold. cbv zeta. fold c. rewrite Hp. simpl. rewrite Hs, Ho.
  destruct fuel as [|f]; [lia|].
  change (insert_with (insert_retry f)) with (insert f).
  destruct (grow_spec f ht0 L Hwf0 Hne0 Hfr Hic)
    as (ht1 & L1 & -> & Hwf1 & Hlen1 & Hfr1 & Hic1 & Href & HL1).
  simpl.
  assert (Hne1 : table ht1 ≠ []).
  { intros Ht. apply (f_equal length) in Ht. rewrite Hlen1 in Ht.
    destruct (table ht0); [done|simpl in Ht; lia]. }
  destruct (insert_retry_nogrow f ht1 L1 k v h0 Hwf1 Hne1 Hk)
    as (ht' & L' & r & -> & Hwf' & Hlen' & Hfr' & Hic' & Hrel).
  { intros _ _ _ _. rewrite (wf_len _ _ Hwf1), Hlen1, Nat2Z.inj_mul.
    assert (1 ≤ length (table ht0)) by (destruct (table ht0); [done|simpl; lia]).
    pose proof (load_ok_roomy _ _ (wf_load _ _ Hwf0) H (length L1)) as Hr.
    rewrite Nat2Z.inj_mul in Hr. apply Hr. lia. }
  exists ht', L', r. split_and!; try congruence.
  { intros Ht. apply (f_equal length) in Ht. rewrite Hlen' in Ht.
    by destruct (table ht1). }
  assert (Hall1 : ∀ k' v', (k', v') ∈ kvs (table ht1) L1 → nhash k' = nhash k
            → Equal k k' = Ok false).
  { intros k' v' Hin Hn.
    destruct (refold_subset _ _ _ _ _ Href Hin) as [[v'' Hv]|[v'' Hv]].
    - by apply elem_of_nil in Hv.
    - by apply (Hall k' v''). }
  inversion Hrel as [k' v' err Hin Hn HE|i k' v' Hi Hn HE|]; simplify_eq.
  - rewrite (Hall1 k' v' Hin Hn) in HE. done.
  - apply list_elem_of_lookup_2 in Hi. rewrite (Hall1 k' v' Hi Hn) in HE. done.
  - by apply ins_grown.
Qed.

Lemma insert_spec fuel ht L k v :
  wf ht L → frozen ht = false → (0 <? itercount ht)%Z = false → hashable k →
  1 ≤ fuel →
  ∃ ht' L' r, insert fuel ht k v = Returns (ht', r)
    ∧ wf ht' L' ∧ table ht' ≠ []
    ∧ frozen ht' = frozen ht ∧ itercount ht' = itercount ht
    ∧ insert_rel (kvs (table ht) L) k v (kvs (table ht') L') r.
Proof.
  intros Hwf Hfr Hic [h0 Hk] Hfuel.
  unfold hashtable.insert, hashtable.insert_with. rewrite Hfr, Hic.
  destruct (ensure_table ht L Hwf)
    as (ht0 & -> & Hwf0 & Hne0 & Hfr0 & Hic0 & Hl0 & Hkv0 & Hsame & Hnew).
  simpl. rewrite Hk. change (if (h0 =? 0)%Z then 1%Z else h0) with (norm h0).
  destruct (insert_retry_spec fuel ht0 L k v h0)
    as (ht' & L' & r & -> & ? & ? & ? & ? & ?); try done; try congruence.
  exists ht', L', r. split_and!; try done; congruence.
Qed.

(** *** Lookup and deletion *)

Definition lookup_result (res : option (nat * K * V)) (err : option error)
  : V * bool * option error :=
  match err, res with
  | Some e, _ => (nilV, false, Some e)
  | None, Some (_, _, v) => (v, true, None)
  | None, None => (None_, false, None)
  end.

(** What the scan of [lookup] and [delete] finds. *)
Lemma find_wf ht L k h0 :
  wf ht L → table ht ≠ [] → Hash k = Ok h0 →
  let c := slot_index (table ht) (norm h0) in
  ∃ p, table ht !! c = Some p ∧
    match find_buckets c 0 p (norm h0) k with
    | Found a =>
        ∃ i e, L !! i = Some a ∧ get (table ht) a = Some e
               ∧ find_rel (kvs (table ht) L) k (Some (i, key e, value e)) None
    | FindError err => find_rel (kvs (table ht) L) k None (Some err)
    | NotFound => find_rel (kvs (table ht) L) k None None
    end.
Proof.
  intros Hwf Hne Hk c. destruct (scan_wf ht L k h0 Hwf Hne Hk) as (p & Hp & Hscan).
  exists p. split; [done|]. fold c in Hscan.
  rewrite (find_buckets_scan _ _ _ _ _ None).
  destruct (scan_buckets c 0 p (norm h0) k None) as [a|err|ins]; simpl.
  - destruct Hscan as (i & e & Hi & He & Hn & HE). exists i, e.
    split_and!; try done. apply find_found; try done. by apply kvs_lookup with a.
  - destruct Hscan as (i & a & e & Hi & He & Hn & HE).
    apply (find_error _ _ (key e) (value e)); try done.
    apply list_elem_of_lookup. exists i. by apply kvs_lookup with a.
  - destruct Hscan as [Hall _]. by apply find_none.
Qed.

Lemma lookup_spec ht L k :
  wf ht L → hashable k →
  ∃ res err, find_rel (kvs (table ht) L) k res err
    ∧ lookup ht k = Returns (lookup_result res err).
Proof.
  intros Hwf [h0 Hk]. unfold hashtable.lookup. rewrite Hk.
  change (if (h0 =? 0)%Z then 1%Z else h0) with (norm h0).
  destruct (table ht) as [|c0 t0] eqn:Ht.
  { exists None, None. split; [|done]. apply find_none.
    rewrite (wf_nil _ _ Hwf Ht). by intros k' v' ?%elem_of_nil. }
  rewrite <- Ht.
  destruct (find_wf ht L k h0 Hwf) as (p & -> & Hfind); [by rewrite Ht|done|].
  simpl. destruct (find_buckets _ 0 p (norm h0) k) as [a|err|].
  - destruct Hfind as (i & e & Hi & He & Hrel). rewrite He. simpl.
    by exists (Some (i, key e, value e)), None.
  - by exists None, (Some err).
  - by exists None, None.
Qed.

Lemma lookup_unhashable ht k err :
  Hash k = Err err → lookup ht k = Returns (nilV, false, Some err).
Proof. intros Hk. unfold hashtable.lookup. by rewrite Hk. Qed.

Lemma NoDup_delete_notin (L : list addr) i a :
  NoDup L → L !! i = Some a → a ∉ base.delete i L.
Proof.
  intros Hnd Hi [m Hm]%list_elem_of_lookup. rewrite list_lookup_delete in Hm.
  pose proof (NoDup_lookup _ _ _ _ Hnd Hi Hm). case_decide; lia.
Qed.

Lemma delete_spec ht L k :
  wf ht L → frozen ht = false → (0 <? itercount ht)%Z = false → hashable k →
  ∃ ht' L' res err, delete ht k = Returns (ht', lookup_result res err)
    ∧ wf ht' L'
    ∧ frozen ht' = frozen ht ∧ itercount ht' = itercount ht
    ∧ find_rel (kvs (table ht) L) k res err
    ∧ kvs (table ht') L' =
        match res with
        | Some (i, _, _) => base.delete i (kvs (table ht) L)
        | None => kvs (table ht) L
        end
    ∧ (res = None → ht' = ht).
Proof.
  intros Hwf Hfr Hic [h0 Hk]. unfold hashtable.delete. rewrite Hfr, Hic.
  destruct (table ht) as [|c0 t0] eqn:Ht.
  { exists ht, L, None, None. split_and!; try done.
    - apply find_none.
      rewrite (wf_nil _ _ Hwf Ht). by intros k' v' ?%elem_of_nil.
    - by rewrite Ht. }
  rewrite <- Ht. rewrite Hk.
  change (if (h0 =? 0)%Z then 1%Z else h0) with (norm h0).
  assert (Hne : table ht ≠ []) by by rewrite Ht.
  destruct (find_wf ht L k h0 Hwf) as (p & -> & Hfind); [done..|].
  simpl. destruct (find_buckets _ 0 p (norm h0) k) as [a|err|].
  - destruct Hfind as (i & e & Hi & He & Hrel). rewrite He. simpl.
    pose proof (wf_linked _ _ Hwf) as HL.
    destruct (remove_linked ht L i a e HL (wf_tail _ _ Hwf Hne) Hi He)
      as (ht' & -> & HL' & Htl' & Hlen' & Hic' & Hfr' & Hlt' & Hd').
    simpl. exists ht', (base.delete i L), (Some (i, key e, value e)), None.
    assert (Hi' : i < length L) by by eapply lookup_lt_Some.
    split_and!; try done; try congruence.
    + split; try done.
      * apply (hashed_data (table ht) _ a (data zero_entry));
          [done|apply (wf_hashed _ _ Hwf)|done|done].
      * rewrite Hlen', (wf_len _ _ Hwf), u32_pred.
        rewrite length_delete by by rewrite Hi. f_equal. lia.
      * rewrite Hlt'. eapply load_ok_le; [apply (wf_load _ _ Hwf)|].
        rewrite length_delete by by rewrite Hi. lia.
    + simpl. rewrite <- kvs_delete. apply kvs_ext. intros x Hx.
      rewrite Hd', decide_False; [done|]. intros ->.
      by apply (NoDup_delete_notin L i a (linked_nodup _ _ _ HL) Hi).
  - by exists ht, L, None, (Some err).
  - by exists ht, L, None, None.
Qed.

(** *** Every operation keeps the table well formed *)

Lemma insert_rel_error l k v l' err :
  insert_rel l k v l' (Some err) → l' = l.
Proof.
  intros Hrel. inversion Hrel as [? ? Hrel0|]; simplify_eq.
  by inversion Hrel0.
Qed.

Lemma wf_same_length ht ht' L L' :
  wf ht L → wf ht' L' →
  length (kvs (table ht') L') = length (kvs (table ht) L) → len ht' = len ht.
Proof.
  intros Hwf Hwf' Hkv. rewrite !length_kvs in Hkv.
  by rewrite (wf_len _ _ Hwf), (wf_len _ _ Hwf'), Hkv.
Qed.

Lemma insert_cases fuel ht L k v :
  wf ht L → 1 ≤ fuel →
  ∃ ht' L' r, insert fuel ht k v = Returns (ht', r)
    ∧ wf ht' L'
    ∧ frozen ht' = frozen ht ∧ itercount ht' = itercount ht
    ∧ ((frozen ht = true ∧ ht' = ht ∧ L' = L
        ∧ r = Some "cannot insert into frozen hash table"%string)
       ∨ (frozen ht = false ∧ (0 <? itercount ht)%Z = true ∧ ht' = ht ∧ L' = L
          ∧ r = Some "cannot insert into hash table during iteration"%string)
       ∨ (frozen ht = false ∧ (0 <? itercount ht)%Z = false
          ∧ ∃ err, Hash k = Err err ∧ r = Some err ∧ L' = L
                   ∧ kvs (table ht') L' = kvs (table ht) L)
       ∨ (frozen ht = false ∧ (0 <? itercount ht)%Z = false ∧ hashable k
          ∧ insert_rel (kvs (table ht) L) k v (kvs (table ht') L') r)).
Proof.
  intros Hwf Hfuel.
  destruct (frozen ht) eqn:Hfr.
  { exists ht, L, (Some "cannot insert into frozen hash table"%string).
    unfold hashtable.insert, hashtable.insert_with. rewrite Hfr.
    split_and!; try done. by left. }
  destruct (0 <? itercount ht)%Z eqn:Hic.
  { exists ht, L, (Some "cannot insert into hash table during iteration"%string).
    unfold hashtable.insert, hashtable.insert_with. rewrite Hfr, Hic.
    split_and!; try done. right. by left. }
  destruct (Hash k) as [h0|err] eqn:Hk.
  - destruct (insert_spec fuel ht L k v Hwf Hfr Hic) as
      (ht' & L' & r & Hins & Hwf' & _ & Hfr' & Hic' & Hrel); [by exists h0|done|].
    exists ht', L', r. split_and!; try done; try congruence.
    do 3 right. split_and!; try done. by exists h0.
  - unfold hashtable.insert, hashtable.insert_with. rewrite Hfr, Hic.
    destruct (ensure_table ht L Hwf)
      as (ht0 & -> & Hwf0 & Hne0 & Hfr0 & Hic0 & Hl0 & Hkv0 & _).
    simpl. rewrite Hk. exists ht0, L, (Some err).
    split_and!; try done; try congruence.
    do 2 right. left. split_and!; try done. by exists err.
Qed.

Lemma delete_cases ht L k :
  wf ht L →
  ∃ ht' L' out, delete ht k = Returns (ht', out)
    ∧ wf ht' L'
    ∧ frozen ht' = frozen ht ∧ itercount ht' = itercount ht
    ∧ ((frozen ht = true ∧ ht' = ht ∧ L' = L
        ∧ out = (nilV, false, Some "cannot delete from frozen hash table"%string))
       ∨ (frozen ht = false ∧ (0 <? itercount ht)%Z = true ∧ ht' = ht ∧ L' = L
          ∧ out = (nilV, false,
                   Some "cannot delete from hash table during iteration"%string))
       ∨ (frozen ht = false ∧ (0 <? itercount ht)%Z = false ∧ ht' = ht ∧ L' = L
          ∧ ((table ht = [] ∧ out = (None_, false, None))
             ∨ (table ht ≠ [] ∧ ∃ err, Hash k = Err err
                                       ∧ out = (nilV, false, Some err))))
       ∨ (frozen ht = false ∧ (0 <? itercount ht)%Z = false ∧ hashable k
          ∧ ∃ res err, out = lookup_result res err
              ∧ find_rel (kvs (table ht) L) k res err
              ∧ kvs (table ht') L' =
                  match res with
                  | Some (i, _, _) => base.delete i (kvs (table ht) L)
                  | None => kvs (table ht) L
                  end
              ∧ (res = None → ht' = ht))).
Proof.
  intros Hwf.
  destruct (frozen ht) eqn:Hfr.
  { eexists ht, L, _. unfold hashtable.delete. rewrite Hfr.
    split_and!; try done. by left. }
  destruct (0 <? itercount ht)%Z eqn:Hic.
  { eexists ht, L, _. unfold hashtable.delete. rewrite Hfr, Hic.
    split_and!; try done. right. by left. }
  destruct (Hash k) as [h0|err] eqn:Hk.
  - destruct (delete_spec ht L k Hwf Hfr Hic) as
      (ht' & L' & res & err & Hdel & Hwf' & Hfr' & Hic' & Hrel & Hkv & Hsame);
      [by exists h0|].
    eexists ht', L', _. split_and!; try done; try congruence.
    do 3 right. split_and!; try done; [by exists h0|]. by exists res, err.
  - unfold hashtable.delete. rewrite Hfr, Hic, Hk.
    destruct (table ht) eqn:Ht.
    + eexists ht, L, _. split_and!; try done.
      do 2 right. left. split_and!; try done. by left.
    + eexists ht, L, _. split_and!; try done.
      do 2 right. left. split_and!; try done. right. split; [done|]. by exists err.
Qed.

Lemma clear_wf ht L :
  wf ht L →
  (frozen ht = false → (0 <? itercount ht)%Z = false → wf (clear ht).1 [])
  ∧ ((clear ht).2 ≠ None → (clear ht).1 = ht).
Proof.
  intros Hwf. unfold hashtable.clear.
  destruct (frozen ht); [done|]. destruct (0 <? itercount ht)%Z; [done|].
  simpl. split; [|done]. intros _ _.
  assert (Hz : ∀ a e,
    get ((λ _ : list (list entry), [zero_bucket]) <$> table ht) a = Some e →
    e = zero_entry).
  { intros a e (c & b & Hc & Hb & He)%get_Some.
    rewrite list_lookup_fmap in Hc. destruct (table ht !! a_chain a); simplify_eq/=.
    apply list_elem_of_lookup_2, list_elem_of_singleton in Hb as ->.
    unfold hashtable.zero_bucket in He. by apply lookup_replicate in He as [-> _]. }
  split; simpl; try done.
  - split; try done.
    + apply NoDup_nil_2.
    + by intros a e ->%Hz.
    + by intros a e ->%Hz.
  - by intros a e ->%Hz.
  - unfold load_ok. simpl. lia.
Qed.

Lemma wf_with_frozen ht L b : wf ht L → wf (with_frozen ht b) L.
Proof. by intros []. Qed.

Lemma wf_with_itercount ht L n : wf ht L → wf (with_itercount ht n) L.
Proof. by intros []. Qed.

Lemma freeze_returns ht L :
  wf ht L →
  ∃ log, freeze ht = Returns (if frozen ht then ht else with_frozen ht true, log).
Proof.
  intros Hwf. unfold hashtable.freeze. destruct (frozen ht); [by eexists|].
  rewrite (list_entries_linked _ _ (wf_linked _ _ Hwf)). simpl. by eexists.
Qed.

(** [items] returns the contents of a table with fewer than 2^31
    entries. *)
Lemma items_contents ht L :
  wf ht L → (Z.of_nat (length L) < 2 ^ 31)%Z → items ht = contents ht.
Proof.
  intros Hwf Hlen. unfold items, contents.
  rewrite (list_entries_linked _ _ (wf_linked _ _ Hwf)). simpl.
  rewrite length_fmap. rewrite (wf_len _ _ Hwf).
  rewrite (u32_small (Z.of_nat (length L))) by lia.
  rewrite u32_small by lia.
  by destruct (Z.leb_spec (2 * Z.of_nat (length L)) (Z.of_nat (length L) * 2)); [|lia].
Qed.

(** A table as it is created: the zero value, or [init] on it with a
    size that float64 represents exactly. *)
Definition fresh (ht : hashtable) : Prop :=
  ht = hashtable.zero
  ∨ ∃ size, (size < 2 ^ 50)%Z ∧ init hashtable.zero size = Returns ht.

Lemma fresh_wf ht :
  fresh ht →
  wf ht [] ∧ frozen ht = false ∧ (0 <? itercount ht)%Z = false.
Proof.
  intros [->|(size & _ & Hinit)]; [by split; [apply wf_zero|]|].
  unfold hashtable.init in Hinit.
  destruct (Z.ltb_spec size 0) as [|Hsize]; [done|].
  destruct (init_wf hashtable.zero size wf_zero Hsize)
    as (ht' & Hi & Hwf & _ & Hfr & Hic & _).
  unfold hashtable.init in Hi. destruct (Z.ltb_spec size 0); [lia|].
  rewrite Hinit in Hi. simplify_eq. by rewrite Hfr, Hic.
Qed.

(** *** Keys with a lawful equality

    [Equal] does not fail on hashable keys, is an equivalence, and equal
    keys have equal hashes.  Then the table is an association list. *)

Section Lawful.
Variable eqv : K → K → bool.
Hypothesis Equal_eqv :
  ∀ k k', hashable k → hashable k' → Equal k k' = Ok (eqv k k').
Hypothesis eqv_refl : ∀ k, eqv k k = true.
Hypothesis eqv_sym : ∀ k k', eqv k k' = eqv k' k.
Hypothesis eqv_trans :
  ∀ k1 k2 k3, eqv k1 k2 = true → eqv k2 k3 = true → eqv k1 k3 = true.
Hypothesis eqv_hash :
  ∀ k k', hashable k → hashable k' → eqv k k' = true → Hash k = Hash k'.

Implicit Types (l : list (K * V)).

Fixpoint ainsert l k v : list (K * V) :=
  match l with
  | [] => [(k, v)]
  | (k', v') :: l' =>
      if eqv k k' then (k', v) :: l' else (k', v') :: ainsert l' k v
  end.

Fixpoint adelete l k : list (K * V) :=
  match l with
  | [] => []
  | (k', v') :: l' => if eqv k k' then l' else (k', v') :: adelete l' k
  end.

Fixpoint alookup l k : option V :=
  match l with
  | [] => None
  | (k', v') :: l' => if eqv k k' then Some v' else alookup l' k
  end.

Definition fresh_in l k : Prop := ∀ k' v', (k', v') ∈ l → eqv k k' = false.

Fixpoint distinct l : Prop :=
  match l with
  | [] => True
  | (k, v) :: l' => fresh_in l' k ∧ distinct l'
  end.

Definition good l : Prop :=
  distinct l ∧ ∀ k v, (k, v) ∈ l → hashable k.

Lemma eqv_false_l k1 k2 k3 :
  eqv k1 k2 = true → eqv k1 k3 = false → eqv k2 k3 = false.
Proof.
  intros H12 H13. destruct (eqv k2 k3) eqn:H23; [|done].
  by rewrite (eqv_trans _ _ _ H12 H23) in H13.
Qed.

Lemma ainsert_fresh l k v : fresh_in l k → ainsert l k v = l ++ [(k, v)].
Proof.
  induction l as [|[k' v'] l IH]; intros Hf; simpl; [done|].
  rewrite (Hf k' v') by (apply elem_of_cons; by left).
  rewrite IH; [done|]. intros k'' v'' Hin. apply (Hf k'' v'').
  apply elem_of_cons. by right.
Qed.

Lemma ainsert_update l k v : ∀ i k' v',
  distinct l → l !! i = Some (k', v') → eqv k k' = true →
  ainsert l k v = <[i := (k', v)]> l.
Proof.
  induction l as [|[k0 v0] l IH]; intros [|i] k' v' Hd Hi HE; simplify_eq/=.
  - by rewrite HE.
  - destruct Hd as [Hf Hd].
    assert (eqv k k0 = false) as ->.
    { apply (eqv_false_l k' k k0).
      - by rewrite eqv_sym.
      - rewrite eqv_sym. apply (Hf k' v'). by eapply list_elem_of_lookup_2. }
    f_equal. by apply (IH i k' v').
Qed.

Lemma alookup_fresh l k : fresh_in l k → alookup l k = None ∧ adelete l k = l.
Proof.
  induction l as [|[k' v'] l IH]; intros Hf; simpl; [done|].
  rewrite (Hf k' v') by (apply elem_of_cons; by left).
  destruct IH as [-> ->]; [|done].
  intros k'' v'' Hin. apply (Hf k'' v''). apply elem_of_cons. by right.
Qed.

Lemma alookup_found l k : ∀ i k' v',
  distinct l → l !! i = Some (k', v') → eqv k k' = true →
  alookup l k = Some v' ∧ adelete l k = base.delete i l.
Proof.
  induction l as [|[k0 v0] l IH]; intros [|i] k' v' Hd Hi HE; simplify_eq/=.
  - by rewrite HE.
  - destruct Hd as [Hf Hd].
    assert (eqv k k0 = false) as ->.
    { apply (eqv_false_l k' k k0).
      - by rewrite eqv_sym.
      - rewrite eqv_sym. apply (Hf k' v'). by eapply list_elem_of_lookup_2. }
    destruct (IH i k' v') as [-> ->]; done.
Qed.

Lemma elem_of_ainsert l k v k' v' :
  (k', v') ∈ ainsert l k v → (k' = k ∧ v' = v) ∨ ∃ v'', (k', v'') ∈ l.
Proof.
  induction l as [|[k0 v0] l IH]; simpl.
  - intros ?%list_elem_of_singleton. simplify_eq. by left.
  - destruct (eqv k k0).
    + intros [?|?]%elem_of_cons; simplify_eq.
      * right. exists v0. apply elem_of_cons. by left.
      * right. exists v'. apply elem_of_cons. by right.
    + intros [?|Hin]%elem_of_cons; simplify_eq.
      * right. exists v0. apply elem_of_cons. by left.
      * destruct (IH Hin) as [?|[v'' ?]]; [by left|].
        right. exists v''. apply elem_of_cons. by right.
Qed.

Lemma elem_of_adelete l k k' v' : (k', v') ∈ adelete l k → (k', v') ∈ l.
Proof.
  induction l as [|[k0 v0] l IH]; simpl; [done|].
  destruct (eqv k k0).
  - intros ?. apply elem_of_cons. by right.
  - intros [?|?]%elem_of_cons; apply elem_of_cons; [by left|right; auto].
Qed.

Lemma good_ainsert l k v : good l → hashable k → good (ainsert l k v).
Proof.
  intros [Hd Hh] Hk. split.
  - clear Hh. induction l as [|[k0 v0] l IH]; simpl.
    { split; [|done]. by intros k' v' ?%elem_of_nil. }
    destruct Hd as [Hf Hd]. destruct (eqv k k0) eqn:HE; simpl.
    + done.
    + split; [|by apply IH].
      intros k' v' [[-> ->]|[v'' Hin]]%elem_of_ainsert.
      * by rewrite eqv_sym.
      * by apply (Hf k' v'').
  - intros k' v' [[-> ->]|[v'' Hin]]%elem_of_ainsert; [done|].
    by apply (Hh k' v'').
Qed.

Lemma good_adelete l k : good l → good (adelete l k).
Proof.
  intros [Hd Hh]. split.
  - clear Hh. induction l as [|[k0 v0] l IH]; simpl; [done|].
    destruct Hd as [Hf Hd]. destruct (eqv k k0); [done|]. simpl.
    split; [|by apply IH]. intros k' v' Hin%elem_of_adelete. by apply (Hf k' v').
  - intros k' v' Hin%elem_of_adelete. by apply (Hh k' v').
Qed.

Lemma good_nil : good [].
Proof. split; [done|]. by intros k v ?%elem_of_nil. Qed.



Lemma nhash_eqv k k' :
  hashable k → hashable k' → eqv k k' = true → nhash k' = nhash k.
Proof. intros Hk Hk' HE. unfold nhash. by rewrite (eqv_hash k k' Hk Hk' HE). Qed.

(** On good lists the relations are the functions above. *)
Lemma insert_rel0_det l k v l' r :
  good l → hashable k → insert_rel0 l k v l' r →
  r = None ∧ l' = ainsert l k v.
Proof.
  intros [Hd Hh] Hk Hrel. destruct Hrel as [k' v' err Hin Hn HE|i k' v' Hi Hn HE|Hall].
  - rewrite Equal_eqv in HE; [done|done|]. by apply (Hh k' v').
  - split; [done|]. symmetry. apply (ainsert_update l k v i k' v'); try done.
    rewrite Equal_eqv in HE; [congruence|done|].
    apply (Hh k' v'). by eapply list_elem_of_lookup_2.
  - split; [done|]. symmetry. apply ainsert_fresh. intros k' v' Hin.
    destruct (eqv k k') eqn:HE; [|done].
    pose proof (Hh k' v' Hin) as Hk'.
    specialize (Hall k' v' Hin (nhash_eqv k k' Hk Hk' HE)).
    rewrite Equal_eqv in Hall by done. congruence.
Qed.

Lemma distinct_app_fresh l1 l2 k v :
  distinct (l1 ++ (k, v) :: l2) → fresh_in l1 k.
Proof.
  induction l1 as [|[k0 v0] l1 IH]; simpl.
  { by intros _ k' v' ?%elem_of_nil. }
  intros [Hf Hd] k' v' [?|Hin]%elem_of_cons; simplify_eq.
  - rewrite eqv_sym. apply (Hf k v). apply elem_of_app. right.
    apply elem_of_cons. by left.
  - by apply (IH Hd k' v').
Qed.

Lemma refold_good : ∀ rest acc res,
  good (acc ++ rest) → refold rest acc res → res = acc ++ rest.
Proof.
  induction rest as [|[k v] rest IH]; intros acc res [Hd Hh] Href;
    inversion Href as [|? ? ? ? acc' r ? Hins Hrest]; simplify_eq.
  { by rewrite app_nil_r. }
  assert (good acc) as Hacc.
  { split.
    - clear -Hd. induction acc as [|[k0 v0] acc IH]; simpl in *; [done|].
      destruct Hd as [Hf Hd]. split; [|by apply IH].
      intros k' v' Hin. apply (Hf k' v'). apply elem_of_app. by left.
    - intros k' v' Hin. apply (Hh k' v'). apply elem_of_app. by left. }
  assert (hashable k) as Hk.
  { apply (Hh k v). apply elem_of_app. right. apply elem_of_cons. by left. }
  destruct (insert_rel0_det _ _ _ _ _ Hacc Hk Hins) as [-> ->].
  rewrite (ainsert_fresh acc k v) in Hrest by by eapply distinct_app_fresh.
  rewrite (IH (acc ++ [(k, v)]) res); [by rewrite <- app_assoc| |done].
  by rewrite <- app_assoc.
Qed.

Lemma insert_rel_det l k v l' r :
  good l → hashable k → insert_rel l k v l' r →
  r = None ∧ l' = ainsert l k v.
Proof.
  intros Hg Hk Hrel. destruct Hrel as [l' r Hrel0|l0 Hall Href].
  { by apply insert_rel0_det. }
  apply (refold_good l [] l0 Hg) in Href. simpl in Href. subst l0.
  by apply insert_rel0_det, ins_append.
Qed.

Lemma find_rel_det l k res err :
  good l → hashable k → find_rel l k res err →
  err = None
  ∧ alookup l k = (λ x, x.2) <$> res
  ∧ adelete l k = match res with
                  | Some (i, _, _) => base.delete i l
                  | None => l
                  end.
Proof.
  intros [Hd Hh] Hk Hrel.
  destruct Hrel as [k' v' e Hin Hn HE|i k' v' Hi Hn HE|Hall].
  - rewrite Equal_eqv in HE; [done|done|]. by apply (Hh k' v').
  - rewrite Equal_eqv in HE; [|done|].
    2:{ apply (Hh k' v'). by eapply list_elem_of_lookup_2. }
    destruct (alookup_found l k i k' v') as [-> ->]; try done. congruence.
  - destruct (alookup_fresh l k) as [-> ->]; [|done].
    intros k' v' Hin. destruct (eqv k k') eqn:HE; [|done].
    pose proof (Hh k' v' Hin) as Hk'.
    specialize (Hall k' v' Hin (nhash_eqv k k' Hk Hk' HE)).
    rewrite Equal_eqv in Hall by done. congruence.
Qed.

(** *** Sequences of operations *)

Inductive op : Type :=
| OpInsert (k : K) (v : V)
| OpDelete (k : K).

Definition op_key (o : op) : K :=
  match o with
  | OpInsert k _ => k
  | OpDelete k => k
  end.

Definition apply_op (fuel : nat) (ht : hashtable) (o : op)
  : outcome (hashtable * option error) :=
  match o with
  | OpInsert k v => insert fuel ht k v
  | OpDelete k => '(ht', out) ← delete ht k; Returns (ht', out.2)
  end.

(** The table after the operations, and the error of each of them. *)
Fixpoint run (fuel : nat) (ops : list op) (ht : hashtable)
  : outcome (hashtable * list (option error)) :=
  match ops with
  | [] => Returns (ht, [])
  | o :: ops' =>
      '(ht1, e) ← apply_op fuel ht o;
      '(ht2, es) ← run fuel ops' ht1;
      Returns (ht2, e :: es)
  end.

Definition amodel (l : list (K * V)) (o : op) : list (K * V) :=
  match o with
  | OpInsert k v => ainsert l k v
  | OpDelete k => adelete l k
  end.



Lemma apply_op_refines fuel ht L o :
  wf ht L → good (kvs (table ht) L) →
  frozen ht = false → (0 <? itercount ht)%Z = false →
  hashable (op_key o) → 1 ≤ fuel →
  ∃ ht' L', apply_op fuel ht o = Returns (ht', None)
    ∧ wf ht' L' ∧ kvs (table ht') L' = amodel (kvs (table ht) L) o
    ∧ frozen ht' = false ∧ (0 <? itercount ht')%Z = false.
Proof.
  intros Hwf Hg Hfr Hic Hk Hfuel. destruct o as [k v|k]; simpl in *.
  - destruct (insert_spec fuel ht L k v Hwf Hfr Hic Hk Hfuel)
      as (ht' & L' & r & -> & Hwf' & _ & Hfr' & Hic' & Hrel).
    destruct (insert_rel_det _ _ _ _ _ Hg Hk Hrel) as [-> Hkv].
    exists ht', L'. split_and!; try done; congruence.
  - destruct (delete_spec ht L k Hwf Hfr Hic Hk)
      as (ht' & L' & res & err & -> & Hwf' & Hfr' & Hic' & Hrel & Hkv & _).
    destruct (find_rel_det _ _ _ _ Hg Hk Hrel) as (-> & _ & Hdel).
    simpl. exists ht', L'. split_and!; try done; try congruence.
    by destruct res as [[[? ?] ?]|].
Qed.

Lemma good_amodel l o : good l → hashable (op_key o) → good (amodel l o).
Proof.
  destruct o; simpl; intros; [by apply good_ainsert|by apply good_adelete].
Qed.

Lemma run_refines fuel : ∀ ops ht L,
  wf ht L → good (kvs (table ht) L) →
  frozen ht = false → (0 <? itercount ht)%Z = false →
  Forall (λ o, hashable (op_key o)) ops → 1 ≤ fuel →
  ∃ ht' L' errs, run fuel ops ht = Returns (ht', errs)
    ∧ Forall (λ r, r = None) errs
    ∧ wf ht' L' ∧ kvs (table ht') L' = foldl amodel (kvs (table ht) L) ops
    ∧ good (kvs (table ht') L')
    ∧ frozen ht' = false ∧ (0 <? itercount ht')%Z = false.
Proof.
  induction ops as [|o ops IH]; intros ht L Hwf Hg Hfr Hic Hops Hfuel.
  { exists ht, L, []. by split_and!. }
  apply Forall_cons in Hops as [Ho Hops].
  destruct (apply_op_refines fuel ht L o) as (ht1 & L1 & Hap & Hwf1 & Hkv1 & Hfr1 & Hic1);
    try done.
  destruct (IH ht1 L1) as (ht' & L' & errs & Hrun & Herrs & Hwf' & Hkv' & Hg' & ? & ?);
    try done.
  { rewrite Hkv1. by apply good_amodel. }
  exists ht', L', (None :: errs). simpl. rewrite Hap. simpl. rewrite Hrun. simpl.
  split_and!; try done.
  - by constructor.
  - by rewrite Hkv', Hkv1.
Qed.


Lemma lookup_refines ht L k :
  wf ht L → good (kvs (table ht) L) → hashable k →
  lookup ht k = Returns (match alookup (kvs (table ht) L) k with
                         | Some v => (v, true, None)
                         | None => (None_, false, None)
                         end).
Proof.
  intros Hwf Hg Hk.
  destruct (lookup_spec ht L k Hwf Hk) as (res & err & Hrel & ->).
  destruct (find_rel_det _ _ _ _ Hg Hk Hrel) as (-> & -> & _).
  by destruct res as [[[? ?] ?]|].
Qed.











End Lawful.

(** *** The tables that the operations build *)

Inductive reachable : hashtable → Prop :=
| reach_fresh ht : fresh ht → reachable ht
| reach_insert fuel ht k v ht' r :
    reachable ht → 1 ≤ fuel → insert fuel ht k v = Returns (ht', r) →
    reachable ht'
| reach_delete ht k ht' out :
    reachable ht → delete ht k = Returns (ht', out) → reachable ht'
| reach_clear ht : reachable ht → reachable (clear ht).1
| reach_freeze ht ht' log :
    reachable ht → freeze ht = Returns (ht', log) → reachable ht'
| reach_iterate ht : reachable ht → reachable (iterate ht).1
| reach_Done ht : reachable ht → reachable (Done ht).

Lemma reachable_wf ht : reachable ht → ∃ L, wf ht L.
Proof.
  induction 1 as [ht Hf|fuel ht k v ht' r _ [L Hwf] Hfuel Hins
                 |ht k ht' out _ [L Hwf] Hdel|ht _ [L Hwf]
                 |ht ht' log _ [L Hwf] Hfz|ht _ [L Hwf]|ht _ [L Hwf]].
  - exists []. by apply fresh_wf.
  - destruct (insert_cases fuel ht L k v Hwf Hfuel) as (ht1 & L' & r1 & Hins1 & Hwf' & _).
    rewrite Hins1 in Hins. simplify_eq. by exists L'.
  - destruct (delete_cases ht L k Hwf) as (ht1 & L' & out1 & Hdel1 & Hwf' & _).
    rewrite Hdel1 in Hdel. simplify_eq. by exists L'.
  - destruct (clear_wf ht L Hwf) as [Hc1 Hc2]. unfold hashtable.clear in *.
    destruct (frozen ht); [by exists L|].
    destruct (0 <? itercount ht)%Z; [by exists L|]. exists []. by apply Hc1.
  - destruct (freeze_returns ht L Hwf) as [log' Hfz']. rewrite Hfz' in Hfz.
    simplify_eq. exists L. destruct (frozen ht); [done|by apply wf_with_frozen].
  - exists L. unfold hashtable.iterate. simpl.
    destruct (frozen ht); [done|by apply wf_with_itercount].
  - exists L. unfold hashtable.Done.
    destruct (frozen ht); [done|by apply wf_with_itercount].
Qed.

(** C10. On every table that the operations build, [insert], [delete]
    and [clear] return, and when one of them returns an error (the
    table is frozen or iterated over, the key is unhashable, or a
    comparison of keys failed) the pairs of the table, their order and
    its length are what they were before the call. *)
Theorem failed_mutation_keeps_state fuel ht k v :
  reachable ht → 1 ≤ fuel →
  (∃ l, contents ht = Returns l)
  ∧ (∃ ht' r, insert fuel ht k v = Returns (ht', r)
       ∧ (r ≠ None → contents ht' = contents ht ∧ len ht' = len ht))
  ∧ (∃ ht' out, delete ht k = Returns (ht', out)
       ∧ (out.2 ≠ None → contents ht' = contents ht ∧ len ht' = len ht))
  ∧ ((clear ht).2 ≠ None →
       contents (clear ht).1 = contents ht ∧ len (clear ht).1 = len ht).
Proof.
  intros [L Hwf]%reachable_wf Hfuel. split_and!.
  - exists (kvs (table ht) L). apply contents_linked, (wf_linked _ _ Hwf).
  - destruct (insert_cases fuel ht L k v Hwf Hfuel)
      as (ht' & L' & r & Hins & Hwf' & _ & _ & Hcases).
    exists ht', r. split; [done|]. intros Hr.
    assert (kvs (table ht') L' = kvs (table ht) L) as Hkv.
    { destruct Hcases as [(_ & -> & -> & _)|[(_ & _ & -> & -> & _)
        |[(_ & _ & err & _ & _ & _ & Hkv)|(_ & _ & _ & Hrel)]]]; try done.
      destruct r as [err|]; [|done]. by apply insert_rel_error in Hrel. }
    rewrite (contents_linked _ _ (wf_linked _ _ Hwf)).
    rewrite (contents_linked _ _ (wf_linked _ _ Hwf')).
    split; [by rewrite Hkv|].
    apply (wf_same_length ht ht' L L' Hwf Hwf'). by rewrite Hkv.
  - destruct (delete_cases ht L k Hwf)
      as (ht' & L' & out & Hdel & Hwf' & _ & _ & Hcases).
    exists ht', out. split; [done|]. intros Hout.
    assert (ht' = ht) as ->; [|done].
    destruct Hcases as [(_ & -> & _)|[(_ & _ & -> & _)
      |[(_ & _ & -> & _)|(_ & _ & _ & res & err & -> & Hrel & _ & Hsame)]]];
      try done.
    apply Hsame. inversion Hrel; simplify_eq; done.
  - intros Hc. destruct (clear_wf ht L Hwf) as [_ Hsame]. by rewrite (Hsame Hc).
Qed.

(** C3. After [freeze], on every table that the operations build:
    [insert], [delete] and [clear] return the error of a frozen table
    and leave the table as it is; [lookup], [keys] and the walk of the pairs return
    what they returned before; [iterate] and [Done] do not touch the
    table; and a second [freeze] changes nothing and freezes no value. *)
Theorem freeze_is_final fuel ht k v :
  reachable ht →
  ∃ htf log, freeze ht = Returns (htf, log)
    ∧ frozen htf = true
    ∧ insert fuel htf k v
      = Returns (htf, Some "cannot insert into frozen hash table"%string)
    ∧ delete htf k
      = Returns (htf, (nilV, false,
                       Some "cannot delete from frozen hash table"%string))
    ∧ clear htf = (htf, Some "cannot clear frozen hash table"%string)
    ∧ (∃ out, lookup ht k = Returns out ∧ lookup htf k = Returns out)
    ∧ (∃ ks, keys ht = Returns ks ∧ keys htf = Returns ks)
    ∧ (∃ l, contents ht = Returns l ∧ contents htf = Returns l)
    ∧ iterate htf = (htf, KeyIterator (head ht))
    ∧ Done htf = htf
    ∧ freeze htf = Returns (htf, []).
Proof.
  intros [L Hwf]%reachable_wf.
  destruct (freeze_returns ht L Hwf) as [log Hfz].
  set (htf := if frozen ht then ht else with_frozen ht true) in *.
  assert (Hfr : frozen htf = true).
  { unfold htf. by destruct (frozen ht) eqn:?. }
  assert (Hsame : table htf = table ht ∧ head htf = head ht).
  { unfold htf. by destruct (frozen ht). }
  destruct Hsame as [Ht Hh].
  exists htf, log. split_and!; try done.
  - unfold hashtable.insert, hashtable.insert_with. by rewrite Hfr.
  - unfold hashtable.delete. by rewrite Hfr.
  - unfold hashtable.clear. by rewrite Hfr.
  - assert (lookup htf k = lookup ht k) as ->.
    { unfold hashtable.lookup. by rewrite Ht. }
    destruct (Hash k) as [h0|err] eqn:Hk.
    + destruct (lookup_spec ht L k Hwf) as (res & err & _ & ->); [by exists h0|].
      by eexists.
    + rewrite (lookup_unhashable ht k err Hk). by eexists.
  - exists (kvs (table ht) L).*1.
    assert (keys htf = keys ht) as ->.
    { unfold hashtable.keys, list_entries. by rewrite Ht, Hh. }
    split; apply keys_linked, (wf_linked _ _ Hwf).
  - exists (kvs (table ht) L).
    assert (contents htf = contents ht) as ->.
    { unfold contents, list_entries. by rewrite Ht, Hh. }
    split; apply contents_linked, (wf_linked _ _ Hwf).
  - unfold hashtable.iterate. by rewrite Hfr, Hh.
  - unfold hashtable.Done. by rewrite Hfr.
  - unfold hashtable.freeze. by rewrite Hfr.
Qed.

(** *** Iterators *)





Lemma u32_add_l (x y : Z) : u32 (u32 x + y) = u32 (x + y).
Proof. unfold u32. by rewrite Zplus_mod_idemp_l. Qed.






End Theory.
End table_facts.


(** * The table on integer keys

    An instance: keys and values are integers, negative keys are
    unhashable, the hash of a key is its remainder modulo 4 (so that
    chains overflow and the table grows), and [Equal] is the equality of
    integers. *)

Module table_examples.
Import hashtable table_facts.

Definition KHash (k : Z) : result Z :=
  if (k <? 0)%Z then Err "unhashable: negative"%string else Ok (k mod 4)%Z.
Definition KEqual (a b : Z) : result bool := Ok (a =? b)%Z.

Abbreviation insert := (hashtable.insert KHash KEqual 0%Z 0%Z).
Abbreviation delete := (hashtable.delete KHash KEqual 0%Z 0%Z (-1)%Z).
Abbreviation lookup := (hashtable.lookup KHash KEqual 0%Z (-1)%Z).
Abbreviation clear := (hashtable.clear (K:=Z) (V:=Z) 0%Z 0%Z).
Abbreviation zero := (@hashtable.zero Z Z).

Lemma KEqual_eqv k k' :
  hashable KHash k → hashable KHash k' → KEqual k k' = Ok (k =? k')%Z.
Proof. done. Qed.

Lemma Zeqb_trans k1 k2 k3 :
  (k1 =? k2)%Z = true → (k2 =? k3)%Z = true → (k1 =? k3)%Z = true.
Proof. rewrite !Z.eqb_eq. congruence. Qed.

Lemma KHash_eqv k k' :
  hashable KHash k → hashable KHash k' → (k =? k')%Z = true → KHash k = KHash k'.
Proof. intros _ _ ->%Z.eqb_eq. done. Qed.

(** Twenty insertions (the table grows twice), then two deletions and an
    update. *)
Definition some_ops : list (op (K:=Z) (V:=Z)) :=
  ((λ i, OpInsert (Z.of_nat i) (10 * Z.of_nat i)%Z) <$> seq 0 20)
  ++ [OpDelete 7%Z; OpDelete 0%Z; OpInsert 3%Z 99%Z].

Lemma some_ops_hashable : Forall (λ o, hashable KHash (op_key o)) some_ops.
Proof. repeat constructor; by eexists. Qed.

Example some_ops_run :
  (λ r, (keys r.1, len r.1, length (table r.1), lookup r.1 3%Z, lookup r.1 7%Z))
    <$> (match run KHash KEqual 0%Z 0%Z (-1)%Z 1 some_ops zero with
         | Returns r => Some r
         | _ => None
         end)
  = Some (Returns [1; 2; 3; 4; 5; 6; 8; 9; 10; 11; 12; 13; 14; 15; 16; 17; 18; 19]%Z,
          18%Z, 4, Returns (99%Z, true, None), Returns (-1, false, None)%Z).
Proof. vm_compute. reflexivity. Qed.




(** A table with one pair and one active iterator. *)
Definition iterated : @hashtable.hashtable Z Z :=
  match insert 1 zero 5%Z 50%Z with
  | Returns (ht, _) => (iterate ht).1
  | _ => zero
  end.

Lemma iterated_reachable : reachable KHash KEqual 0%Z 0%Z (-1)%Z iterated.
Proof.
  apply reach_iterate.
  eapply (reach_insert _ _ _ _ _ 1 zero 5%Z 50%Z _ None).
  - apply reach_fresh. by left.
  - lia.
  - vm_compute. reflexivity.
Defined.

Lemma failed_mutation_keeps_state_witness :
  (∃ l, contents iterated = Returns l)
  ∧ (∃ ht' r, insert 1 iterated 6%Z 60%Z = Returns (ht', r)
       ∧ (r ≠ None → contents ht' = contents iterated ∧ len ht' = len iterated))
  ∧ (∃ ht' out, delete iterated 6%Z = Returns (ht', out)
       ∧ (out.2 ≠ None → contents ht' = contents iterated ∧ len ht' = len iterated))
  ∧ ((clear iterated).2 ≠ None →
       contents (clear iterated).1 = contents iterated
       ∧ len (clear iterated).1 = len iterated).
Proof.
  apply (failed_mutation_keeps_state KHash KEqual 0%Z 0%Z (-1)%Z 1 iterated 6%Z 60%Z).
  - exact iterated_reachable.
  - lia.
Defined.

(** The same table without the iterator. *)
Definition one_pair : @hashtable.hashtable Z Z := Done iterated.

Lemma one_pair_reachable : reachable KHash KEqual 0%Z 0%Z (-1)%Z one_pair.
Proof. apply reach_Done, iterated_reachable. Defined.

Lemma freeze_is_final_witness :
  ∃ htf log, freeze one_pair = Returns (htf, log)
    ∧ frozen htf = true
    ∧ insert 1 htf 6%Z 60%Z
      = Returns (htf, Some "cannot insert into frozen hash table"%string)
    ∧ delete htf 6%Z
      = Returns (htf, (0%Z, false,
                       Some "cannot delete from frozen hash table"%string))
    ∧ clear htf = (htf, Some "cannot clear frozen hash table"%string)
    ∧ (∃ out, lookup one_pair 6%Z = Returns out ∧ lookup htf 6%Z = Returns out)
    ∧ (∃ ks, keys one_pair = Returns ks ∧ keys htf = Returns ks)
    ∧ (∃ l, contents one_pair = Returns l ∧ contents htf = Returns l)
    ∧ iterate htf = (htf, KeyIterator (head one_pair))
    ∧ Done htf = htf
    ∧ freeze htf = Returns (htf, []).
Proof.
  apply (freeze_is_final KHash KEqual 0%Z 0%Z (-1)%Z 1 one_pair 6%Z 60%Z).
  exact one_pair_reachable.
Defined.



End table_examples.


(** * OrderedStringDict: [Set], [Get] and [Index] *)

Module osd_facts.
Import osd.

Section Facts.
Context {V : Type}.
Variable nilV : V.
Variable None_ : V.
Variable goStringHash : string → Z.
Variable growcap : nat → nat.

Abbreviation dict := (@OrderedStringDict V).
Abbreviation Set_ := (@osd.Set_ V goStringHash).
Abbreviation Get := (@osd.Get V None_ goStringHash).

(** [Set] of a key that [getEntry] does not find returns false and the
    dictionary as it is. *)
Lemma Set_missing (d d' : dict) k v :
  Set_ d k v = Returns (d', false) → d' = d.
Proof.
  unfold osd.Set_. destruct (getEntry d _ k) as [[p|]| |]; simpl; try done.
  - destruct (load d p); simpl; [|done]. by intros [= _].
  - by intros [= ->].
Qed.

Lemma Set_missing_iff (d : dict) k v :
  getEntry d (hashString goStringHash k) k = Returns None →
  Set_ d k v = Returns (d, false) ∧ Get d k = Returns (None_, false).
Proof. unfold osd.Set_, osd.Get. by intros ->. Qed.

(** [Set] never changes the length of the sequence of entries, and it
    changes no key. *)
Lemma Set_keeps_Len (d d' : dict) k v b :
  Set_ d k v = Returns (d', b) → Len d' = Len d.
Proof.
  unfold osd.Set_. destruct (getEntry d _ k) as [[p|]| |]; simpl; try done.
  - destruct (load d p); simpl; [|done]. by intros [= <- _].
  - by intros [= <- _].
Qed.

Lemma Set_keeps_Keys (d d' : dict) k v b :
  Set_ d k v = Returns (d', b) → Keys d' = Keys d.
Proof.
  unfold osd.Set_. destruct (getEntry d _ k) as [[p|]| |]; simpl; try done;
    [|by intros [= <- _]].
  destruct (load d p) as [e|] eqn:Hl; simpl; [|done]. intros [= <- _].
  unfold Keys, live_entries, store. simpl.
  unfold load in Hl. destruct (arrays d !! p_array p) as [a|] eqn:Ha; [|done].
  destruct (decide (s_array (entries d) = p_array p)) as [Heq|Hne].
  - rewrite Heq, list_lookup_alter_eq, Ha. simpl.
    apply list_eq. intros i. rewrite !list_lookup_fmap, !lookup_take.
    case_decide; [|done].
    destruct (decide (i = p_index p)) as [->|Hi].
    + rewrite list_lookup_insert_eq by (by eapply lookup_lt_Some).
      by rewrite Hl.
    + by rewrite list_lookup_insert_ne.
  - by rewrite list_lookup_alter_ne.
Qed.

End Facts.

(** ** The pointers of the buckets after [append] has moved the entries

    A dictionary that starts as the zero value gets a backing array of
    capacity one from [init(1)].  The second [append] finds it full, so
    that Go's [append] copies the entries to a new array; the bucket
    still points to the entry in the old one. *)

Section Stale.
Variable goStringHash : string → Z.
Variable growcap : nat → nat.

Abbreviation h := (hashString goStringHash).
Abbreviation append := (osd.append (V:=Z) 0%Z growcap 0).

(** C9. On the dictionary built from the zero value by the appends of
    "a" with 1 and of "b" with 2, [Set("a", 9)] returns true and
    [Get("a")] returns 9 afterwards, but [Index(0)] and [KeyIndex(0)],
    the position of "a", still return 1. *)
Theorem Set_updates_a_stale_entry :
  ∃ d1 d2 d3,
    append osd.zero (h "a") "a"%string 1%Z = Returns (d1, None)
    ∧ append d1 (h "b") "b"%string 2%Z = Returns (d2, None)
    ∧ Keys d2 = ["a"; "b"]%string
    ∧ Index d2 0 = Returns 1%Z
    ∧ osd.Set_ goStringHash d2 "a"%string 9%Z = Returns (d3, true)
    ∧ osd.Get (-1)%Z goStringHash d3 "a"%string = Returns (9%Z, true)
    ∧ Keys d3 = ["a"; "b"]%string
    ∧ Index d3 0 = Returns 1%Z
    ∧ KeyIndex d3 0 = Returns ("a"%string, 1%Z).
Proof.
  do 3 eexists. split_and!.
  - vm_compute. reflexivity.
  - vm_compute. reflexivity.
  - vm_compute. reflexivity.
  - vm_compute. reflexivity.
  - vm_compute. reflexivity.
  - vm_compute. reflexivity.
  - vm_compute. reflexivity.
  - vm_compute. reflexivity.
  - vm_compute. reflexivity.
Qed.

End Stale.

End osd_facts.


(** * Structs: sorted fields, merge, hash and equality *)

Module struct_facts.
Import hashtable table_facts.

(** ** The order of field names *)

Definition precedes (a b : string) : Prop := starlarkstruct.str_lt a b = true.

(** The names of a list, each before all that follow. *)
Definition ascending (l : list string) : Prop := StronglySorted precedes l.

Lemma precedes_lt a b : precedes a b ↔ String_as_OT.lt a b.
Proof.
  unfold precedes, starlarkstruct.str_lt, String_as_OT.lt.
  destruct (String_as_OT.compare a b); split; congruence.
Qed.

Lemma precedes_trans a b c : precedes a b → precedes b c → precedes a c.
Proof.
  rewrite !precedes_lt. apply (StrictOrder_Transitive (R:=String_as_OT.lt)).
Qed.

Lemma str_lt_irrefl a : starlarkstruct.str_lt a a = false.
Proof.
  destruct (starlarkstruct.str_lt a a) eqn:H; [|done].
  apply precedes_lt in H.
  by apply (StrictOrder_Irreflexive (R:=String_as_OT.lt)) in H.
Qed.

Lemma precedes_neq a b : precedes a b → String.eqb a b = false.
Proof.
  intros H. apply String.eqb_neq. intros ->.
  unfold precedes in H. by rewrite str_lt_irrefl in H.
Qed.

Lemma precedes_neq_r a b : precedes a b → String.eqb b a = false.
Proof. rewrite String.eqb_sym. apply precedes_neq. Qed.

Lemma precedes_asym a b : precedes a b → starlarkstruct.str_lt b a = false.
Proof.
  intros H. destruct (starlarkstruct.str_lt b a) eqn:H'; [|done].
  pose proof (precedes_trans _ _ _ H H') as Haa.
  unfold precedes in Haa. by rewrite str_lt_irrefl in Haa.
Qed.

(** Of two names, one is before the other or they are equal. *)
Lemma str_lt_total a b :
  starlarkstruct.str_lt a b = false → String.eqb a b = false → precedes b a.
Proof.
  intros Hlt Hne. apply String.eqb_neq in Hne. apply precedes_lt.
  unfold starlarkstruct.str_lt in Hlt.
  destruct (String_as_OT.compare_spec a b) as [Heq|Hl|Hg]; try done.
Qed.

Example str_lt_bytes :
  starlarkstruct.str_lt "a" "b" = true
  ∧ starlarkstruct.str_lt "ab" "b" = true
  ∧ starlarkstruct.str_lt "a" "ab" = true
  ∧ starlarkstruct.str_lt "Z" "a" = true
  ∧ starlarkstruct.str_lt "b" "a" = false
  ∧ starlarkstruct.str_lt "a" "a" = false.
Proof. by vm_compute. Qed.

Lemma ascending_cons k l :
  ascending (k :: l) ↔ Forall (precedes k) l ∧ ascending l.
Proof.
  split.
  - intros H. inversion H; subst. done.
  - intros [H1 H2]. by constructor.
Qed.

Lemma ascending_NoDup l : ascending l → NoDup l.
Proof.
  induction l as [|k l IH]; [constructor|].
  intros [Hk Hl]%ascending_cons. constructor; [|by apply IH].
  intros Hin. rewrite Forall_forall in Hk. specialize (Hk k Hin).
  unfold precedes in Hk. by rewrite str_lt_irrefl in Hk.
Qed.

(** Two ascending lists with the same names are the same list. *)
Lemma ascending_unique l1 l2 :
  ascending l1 → ascending l2 → (∀ k, k ∈ l1 ↔ k ∈ l2) → l1 = l2.
Proof.
  revert l2. induction l1 as [|a l1 IH]; intros [|b l2] H1 H2 Hin.
  - done.
  - assert (b ∈ []) as Hb by (apply Hin; by left). by apply elem_of_nil in Hb.
  - assert (a ∈ []) as Ha by (apply Hin; by left). by apply elem_of_nil in Ha.
  - apply ascending_cons in H1 as [Ha H1]. apply ascending_cons in H2 as [Hb H2].
    rewrite Forall_forall in Ha, Hb.
    assert (a = b) as ->.
    { assert (a ∈ b :: l2) as [->|Hab]%elem_of_cons by (apply Hin; by left); [done|].
      assert (b ∈ a :: l1) as [->|Hba]%elem_of_cons by (apply Hin; by left); [done|].
      pose proof (precedes_asym _ _ (Ha b Hba)) as Hn.
      by rewrite (Hb a Hab) in Hn. }
    f_equal. apply IH; [done..|]. intros k. split; intros Hk.
    + assert (k ∈ b :: l2) as [->|?]%elem_of_cons by (apply Hin; by right); [|done].
      specialize (Ha b Hk). unfold precedes in Ha. by rewrite str_lt_irrefl in Ha.
    + assert (k ∈ b :: l1) as [->|?]%elem_of_cons by (apply Hin; by right); [|done].
      specialize (Hb b Hk). unfold precedes in Hb. by rewrite str_lt_irrefl in Hb.
Qed.

(** ** [StringDict.Keys] *)

Section Keys.
Context {Value : Type}.
Implicit Types (d : starlarkstruct.StringDict Value) (k : string) (l : list string).

Lemma elem_of_sorted_add k l x :
  x ∈ starlarkstruct.sorted_add k l ↔ x = k ∨ x ∈ l.
Proof.
  induction l as [|k' l IH]; simpl.
  - rewrite list_elem_of_singleton. split; [by left|].
    intros [?|?%elem_of_nil]; done.
  - destruct (starlarkstruct.str_lt k k'); [by rewrite elem_of_cons|].
    destruct (String.eqb_spec k k') as [->|Hne].
    + rewrite elem_of_cons. tauto.
    + rewrite !elem_of_cons, IH. tauto.
Qed.

Lemma ascending_sorted_add k l :
  ascending l → ascending (starlarkstruct.sorted_add k l).
Proof.
  induction l as [|k' l IH]; simpl; intros Hl.
  - apply ascending_cons. split; [constructor|done].
  - destruct (starlarkstruct.str_lt k k') eqn:Hlt.
    + apply ascending_cons. split; [|done].
      apply ascending_cons in Hl as [Hk' _]. constructor; [done|].
      eapply Forall_impl; [exact Hk'|]. intros x Hx.
      by apply (precedes_trans _ k').
    + destruct (String.eqb k k') eqn:Heq; [done|].
      apply ascending_cons in Hl as [Hk' Hl]. apply ascending_cons.
      split; [|by apply IH].
      apply Forall_forall. intros x [->|Hx]%elem_of_sorted_add.
      * by apply str_lt_total.
      * rewrite Forall_forall in Hk'. by apply Hk'.
Qed.

Lemma ascending_Keys d : ascending (starlarkstruct.sd_Keys d).
Proof.
  unfold starlarkstruct.sd_Keys. induction (map fst d) as [|k l IH]; simpl.
  - constructor.
  - by apply ascending_sorted_add.
Qed.

Lemma elem_of_Keys d k : k ∈ starlarkstruct.sd_Keys d ↔ k ∈ d.*1.
Proof.
  unfold starlarkstruct.sd_Keys. change (map fst d) with (d.*1).
  induction (d.*1) as [|k' l IH]; simpl; [done|].
  rewrite elem_of_sorted_add, elem_of_cons, IH. done.
Qed.

End Keys.

(** ** The entries that the merge inserts *)

Section Merge.
Context {Value : Type}.

Abbreviation entry_t := (@hashtable.entry string Value).
Abbreviation eqs := String.eqb (only parsing).
Implicit Types (ex ey : entry_t) (xs ys es : list entry_t) (k : string).

Definition names (es : list entry_t) : list string := key <$> es.
Definition pairs (es : list entry_t) : list (string * Value) := kv <$> es.

Lemma pairs_names es : (pairs es).*1 = names es.
Proof. unfold pairs, names. by rewrite <- list_fmap_compose. Qed.

(** The entries of the lists of x and y in the order in which the
    loops of [Binary] insert them. *)
Fixpoint merged (xs : list entry_t) : list entry_t → list entry_t :=
  fix inner (ys : list entry_t) : list entry_t :=
    match xs, ys with
    | ex :: xs', ey :: ys' =>
        if starlarkstruct.str_lt (key ex) (key ey) then ex :: merged xs' ys
        else if String.eqb (key ex) (key ey) then ey :: merged xs' ys'
        else ey :: inner ys'
    | _, _ => xs ++ ys
    end.

Lemma merged_cons ex xs ey ys :
  merged (ex :: xs) (ey :: ys)
  = if starlarkstruct.str_lt (key ex) (key ey) then ex :: merged xs (ey :: ys)
    else if String.eqb (key ex) (key ey) then ey :: merged xs ys
    else ey :: merged (ex :: xs) ys.
Proof. reflexivity. Qed.

Lemma merged_nil_l ys : merged [] ys = ys.
Proof. by destruct ys. Qed.

Lemma merged_nil_r xs : merged xs [] = xs.
Proof. destruct xs; simpl; [done|]. by rewrite app_nil_r. Qed.

Lemma elem_of_names_merged xs : ∀ ys k,
  k ∈ names (merged xs ys) ↔ k ∈ names xs ∨ k ∈ names ys.
Proof.
  induction xs as [|ex xs IHx]; intros ys k.
  { rewrite merged_nil_l. unfold names at 2. simpl. rewrite elem_of_nil. tauto. }
  induction ys as [|ey ys IHy].
  { rewrite merged_nil_r. unfold names at 3. simpl. rewrite elem_of_nil. tauto. }
  rewrite merged_cons.
  destruct (starlarkstruct.str_lt (key ex) (key ey)).
  { unfold names in *. csimpl. rewrite !elem_of_cons, IHx. csimpl.
    rewrite elem_of_cons. tauto. }
  destruct (String.eqb_spec (key ex) (key ey)) as [Heq|Hne].
  - unfold names in *. csimpl. rewrite !elem_of_cons, IHx, Heq. tauto.
  - unfold names in *. csimpl. rewrite !elem_of_cons, IHy. csimpl.
    rewrite elem_of_cons. tauto.
Qed.

Lemma ascending_merged xs : ∀ ys,
  ascending (names xs) → ascending (names ys) → ascending (names (merged xs ys)).
Proof.
  induction xs as [|ex xs IHx]; intros ys Hx Hy.
  { by rewrite merged_nil_l. }
  induction ys as [|ey ys IHy].
  { by rewrite merged_nil_r. }
  rewrite merged_cons.
  pose proof Hx as Hx0. pose proof Hy as Hy0.
  apply ascending_cons in Hx as [Hex Hx]. apply ascending_cons in Hy as [Hey Hy].
  rewrite Forall_forall in Hex, Hey.
  destruct (starlarkstruct.str_lt (key ex) (key ey)) eqn:Hlt.
  { apply ascending_cons. split; [|by apply IHx].
    apply Forall_forall. intros k [Hk|Hk]%elem_of_names_merged; [by apply Hex|].
    change (names (ey :: ys)) with (key ey :: names ys) in Hk.
    apply elem_of_cons in Hk as [->|Hk]; [done|].
    by apply (precedes_trans _ (key ey)), Hey. }
  destruct (String.eqb_spec (key ex) (key ey)) as [Heq|Hne].
  - apply ascending_cons. split; [|by apply IHx].
    apply Forall_forall. intros k [Hk|Hk]%elem_of_names_merged.
    + rewrite <- Heq. by apply Hex.
    + by apply Hey.
  - assert (precedes (key ey) (key ex)) as Hgt.
    { apply str_lt_total; [done|]. by apply String.eqb_neq. }
    apply ascending_cons. split; [|by apply IHy].
    apply Forall_forall. intros k [Hk|Hk]%elem_of_names_merged; [|by apply Hey].
    change (names (ex :: xs)) with (key ex :: names xs) in Hk.
    apply elem_of_cons in Hk as [->|Hk]; [done|].
    by apply (precedes_trans _ (key ex)), Hex.
Qed.

(** A name that is before all names of a list is not among them. *)
Lemma alookup_before es k :
  Forall (precedes k) (names es) → alookup String.eqb (pairs es) k = None.
Proof.
  induction es as [|e es IH]; [done|].
  intros [Hk Hes]%Forall_cons. simpl. by rewrite (precedes_neq _ _ Hk), IH.
Qed.

(** On names that x and y share the merge has the value of y, on the
    others the value that x or y has. *)
Lemma alookup_merged xs : ∀ ys k,
  ascending (names xs) → ascending (names ys) →
  alookup String.eqb (pairs (merged xs ys)) k
  = match alookup String.eqb (pairs ys) k with
    | Some v => Some v
    | None => alookup String.eqb (pairs xs) k
    end.
Proof.
  induction xs as [|ex xs IHx]; intros ys k Hx Hy.
  { rewrite merged_nil_l. by destruct (alookup _ (pairs ys) k). }
  induction ys as [|ey ys IHy].
  { by rewrite merged_nil_r. }
  rewrite merged_cons.
  pose proof Hx as Hx0. pose proof Hy as Hy0.
  apply ascending_cons in Hx as [Hex Hx]. apply ascending_cons in Hy as [Hey Hy].
  destruct (starlarkstruct.str_lt (key ex) (key ey)) eqn:Hlt.
  { change (pairs (ex :: merged xs (ey :: ys)))
      with (kv ex :: pairs (merged xs (ey :: ys))).
    change (pairs (ex :: xs)) with (kv ex :: pairs xs).
    cbn [alookup kv]. destruct (String.eqb_spec k (key ex)) as [->|Hne].
    - rewrite alookup_before; [done|].
      change (names (ey :: ys)) with (key ey :: names ys). constructor; [done|].
      eapply Forall_impl; [exact Hey|]. intros x Hx'.
      by apply (precedes_trans _ (key ey)).
    - by apply IHx. }
  destruct (String.eqb_spec (key ex) (key ey)) as [Heq|Hne].
  - change (pairs (ey :: merged xs ys)) with (kv ey :: pairs (merged xs ys)).
    change (pairs (ex :: xs)) with (kv ex :: pairs xs).
    change (pairs (ey :: ys)) with (kv ey :: pairs ys).
    cbn [alookup kv]. rewrite Heq.
    destruct (String.eqb k (key ey)); [done|]. by apply IHx.
  - assert (precedes (key ey) (key ex)) as Hgt.
    { apply str_lt_total; [done|]. by apply String.eqb_neq. }
    change (pairs (ey :: merged (ex :: xs) ys))
      with (kv ey :: pairs (merged (ex :: xs) ys)).
    change (pairs (ey :: ys)) with (kv ey :: pairs ys).
    cbn [alookup kv]. destruct (String.eqb_spec k (key ey)) as [->|Hne'].
    + done.
    + by apply IHy.
Qed.

(** Appending pairs whose names ascend gives the pairs themselves. *)
Lemma ascending_fresh_in (l : list (string * Value)) k :
  Forall (λ k', precedes k' k) l.*1 → fresh_in String.eqb l k.
Proof.
  rewrite Forall_forall. intros Hl k' v' Hin. apply precedes_neq_r, Hl.
  apply list_elem_of_fmap. by exists (k', v').
Qed.

Lemma ascending_snoc l k :
  ascending l → Forall (λ k', precedes k' k) l → ascending (l ++ [k]).
Proof.
  intros Hl Hk. apply StronglySorted_app_2; [|done|].
  - intros x1 x2 H1 ->%list_elem_of_singleton.
    rewrite Forall_forall in Hk. by apply Hk.
  - apply ascending_cons. split; constructor.
Qed.

Lemma ascending_distinct (l : list (string * Value)) :
  ascending l.*1 → distinct String.eqb l.
Proof.
  induction l as [|[k v] l IH]; [done|]. csimpl.
  intros [Hk Hl]%ascending_cons. split; [|by apply IH].
  intros k' v' Hin. apply precedes_neq. rewrite Forall_forall in Hk.
  apply Hk, list_elem_of_fmap. by exists (k', v').
Qed.

Lemma foldl_ainsert_ascending {A} (f : A → string * Value) (xs : list A) :
  ∀ l, ascending (l.*1 ++ (f <$> xs).*1) →
  foldl (λ acc x, ainsert String.eqb acc (f x).1 (f x).2) l xs = l ++ (f <$> xs).
Proof.
  induction xs as [|x xs IH]; intros l Hl; simpl.
  { by rewrite app_nil_r. }
  csimpl in Hl. rewrite ainsert_fresh.
  - rewrite IH.
    + rewrite <- app_assoc. csimpl. by destruct (f x).
    + rewrite fmap_app. csimpl. by rewrite <- app_assoc.
  - apply ascending_fresh_in. apply Forall_forall. intros k' Hk'.
    apply (StronglySorted_app_1_elem_of _ _ _ _ _ Hl Hk'). by left.
Qed.

End Merge.

(** ** The table of a struct *)

Section Records.
Context {Value : Type}.
Variable ValueHash : Value → result Z.
Variable ValueEqual : Value → Value → result bool.
Variable EqualDepth : Value → Value → Z → result bool.
Variable ValueString : Value → string.
Variable StringHash : string → Z.
Variable is_nil : Value → bool.
Variable nilValue : Value.
Variable None_ : Value.
Variable as_struct : Value → option (@starlarkstruct.Struct Value).
Variable as_String : Value → option string.

Abbreviation Struct := (@starlarkstruct.Struct Value).
Abbreviation table_t := (@hashtable.hashtable string Value).
Abbreviation entry_t := (@hashtable.entry string Value).
Abbreviation strHash := (starlarkstruct.strHash StringHash).
Abbreviation strEqual := starlarkstruct.strEqual.
Abbreviation wf := (table_facts.wf strHash EmptyString nilValue).
Abbreviation kvs := (table_facts.kvs EmptyString nilValue).
Abbreviation put := (starlarkstruct.put StringHash nilValue).
Abbreviation put_entries := (starlarkstruct.put_entries StringHash nilValue).
Abbreviation merge_loop := (starlarkstruct.merge_loop StringHash nilValue).
Abbreviation ht_init := (starlarkstruct.ht_init nilValue).
Abbreviation FromStringDict :=
  (starlarkstruct.FromStringDict StringHash is_nil nilValue).
Abbreviation FromKeywords :=
  (starlarkstruct.FromKeywords StringHash is_nil nilValue as_String).
Abbreviation Binary :=
  (starlarkstruct.Binary ValueEqual ValueString StringHash nilValue as_struct).
Abbreviation Hash := (starlarkstruct.Hash ValueHash StringHash).
Abbreviation hash_loop := (starlarkstruct.hash_loop ValueHash StringHash).
Abbreviation structsEqual :=
  (starlarkstruct.structsEqual ValueEqual EqualDepth ValueString).
Abbreviation equal_loop := (starlarkstruct.equal_loop (Value:=Value) EqualDepth).
Abbreviation CompareSameType :=
  (starlarkstruct.CompareSameType ValueEqual EqualDepth ValueString as_struct).
Abbreviation AttrNames := (@starlarkstruct.AttrNames Value).
Abbreviation Freeze := (@starlarkstruct.Freeze Value).
Abbreviation constructor := (@starlarkstruct.constructor Value).
Abbreviation ht := (@starlarkstruct.ht Value).

Implicit Types (s x y : Struct) (t : table_t) (l : list (string * Value)).
Implicit Types (k : string) (v c : Value).

(** Names are hashable, and [==] on names is a lawful equality. *)
Lemma str_hashable k : hashable strHash k.
Proof. by eexists. Qed.

Lemma strEqual_eqb k k' :
  hashable strHash k → hashable strHash k' → strEqual k k' = Ok (String.eqb k k').
Proof. done. Qed.

Lemma eqb_trans (k1 k2 k3 : string) :
  String.eqb k1 k2 = true → String.eqb k2 k3 = true → String.eqb k1 k3 = true.
Proof. rewrite !String.eqb_eq. congruence. Qed.

Lemma strHash_eqb k k' :
  hashable strHash k → hashable strHash k' → String.eqb k k' = true →
  strHash k = strHash k'.
Proof. by intros _ _ ->%String.eqb_eq. Qed.

(** The pairs of a table, in the order of its list. *)
Definition holds (t : table_t) (l : list (string * Value)) : Prop :=
  ∃ L, wf t L ∧ kvs (table t) L = l.

(** A struct whose fields are the pairs [l], in ascending order of
    their names. *)
Definition record (s : Struct) (l : list (string * Value)) : Prop :=
  holds (ht s) l ∧ ascending l.*1.

Lemma holds_entries t l :
  holds t l → ∃ es, list_entries t = Returns es ∧ pairs es = l.
Proof.
  intros (L & Hwf & <-). eexists. split.
  - apply (list_entries_linked _ _ _ _ (wf_linked _ _ _ _ _ Hwf)).
  - unfold pairs, table_facts.kvs. by rewrite <- list_fmap_compose.
Qed.

Lemma holds_len t l : holds t l → len t = u32 (Z.of_nat (length l)).
Proof.
  intros (L & Hwf & <-). rewrite length_kvs. apply (wf_len _ _ _ _ _ Hwf).
Qed.

Lemma holds_keys t l : holds t l → keys t = Returns l.*1.
Proof.
  intros (L & Hwf & <-). apply (keys_linked _ _ _ _ (wf_linked _ _ _ _ _ Hwf)).
Qed.

Lemma good_distinct l : distinct String.eqb l → good strHash String.eqb l.
Proof. intros Hd. split; [done|]. intros. apply str_hashable. Qed.

Lemma put_spec fuel t l k v :
  holds t l → distinct String.eqb l →
  frozen t = false → (0 <? itercount t)%Z = false → 1 ≤ fuel →
  ∃ t', put fuel t k v = Returns t'
    ∧ holds t' (ainsert String.eqb l k v)
    ∧ distinct String.eqb (ainsert String.eqb l k v)
    ∧ frozen t' = false ∧ (0 <? itercount t')%Z = false.
Proof.
  intros (L & Hwf & <-) Hd Hfr Hic Hfuel.
  destruct (insert_spec strHash strEqual EmptyString nilValue fuel t L k v
              Hwf Hfr Hic (str_hashable k) Hfuel)
    as (t' & L' & r & Hins & Hwf' & _ & Hfr' & Hic' & Hrel).
  destruct (insert_rel_det strHash strEqual String.eqb strEqual_eqb
              String.eqb_sym eqb_trans strHash_eqb _ _ _ _ _
              (good_distinct _ Hd) (str_hashable k) Hrel) as [-> Hkv].
  exists t'. split_and!.
  - unfold starlarkstruct.put, starlarkstruct.ht_insert. by rewrite Hins.
  - by exists L'.
  - apply (good_ainsert strHash String.eqb String.eqb_sym _ k v
             (good_distinct _ Hd) (str_hashable k)).
  - congruence.
  - congruence.
Qed.

Lemma puts_spec {A} (f : A → string * Value) fuel (xs : list A) : ∀ t l,
  holds t l → distinct String.eqb l →
  frozen t = false → (0 <? itercount t)%Z = false → 1 ≤ fuel →
  ∃ t', foldl (λ acc a, t0 ← acc; put fuel t0 (f a).1 (f a).2) (Returns t) xs
        = Returns t'
    ∧ holds t' (foldl (λ acc a, ainsert String.eqb acc (f a).1 (f a).2) l xs)
    ∧ frozen t' = false ∧ (0 <? itercount t')%Z = false.
Proof.
  induction xs as [|a xs IH]; intros t l Hh Hd Hfr Hic Hfuel.
  { by exists t. }
  destruct (put_spec fuel t l (f a).1 (f a).2 Hh Hd Hfr Hic Hfuel)
    as (t1 & Hput & Hh1 & Hd1 & Hfr1 & Hic1).
  destruct (IH t1 _ Hh1 Hd1 Hfr1 Hic1 Hfuel) as (t' & Hfold & Hh' & Hfr' & Hic').
  exists t'. split_and!; try done. simpl. by rewrite Hput.
Qed.

Lemma init_holds (size : Z) :
  (0 ≤ size)%Z →
  ∃ t, ht_init hashtable.zero size = Returns t
    ∧ holds t [] ∧ frozen t = false ∧ (0 <? itercount t)%Z = false.
Proof.
  intros Hsize.
  destruct (init_wf strHash EmptyString nilValue hashtable.zero size
              (wf_zero _ _ _) Hsize) as (t & Hinit & Hwf & _ & Hfr & Hic & _).
  exists t. split_and!; try done.
  - by exists [].
  - by rewrite Hic.
Qed.

(** *** Construction *)

(** The pairs that [FromStringDict] inserts: the keys of [d] in the
    order of [Keys], each with its value in [d]. *)
Definition dict_pairs (d : starlarkstruct.StringDict Value)
  : list (string * Value) :=
  (λ k, (k, default nilValue (starlarkstruct.sd_get d k)))
    <$> starlarkstruct.sd_Keys d.

Lemma dict_pairs_names d : (dict_pairs d).*1 = starlarkstruct.sd_Keys d.
Proof.
  unfold dict_pairs. rewrite <- list_fmap_compose.
  induction (starlarkstruct.sd_Keys d) as [|k ks IH]; csimpl; [done|].
  by rewrite IH.
Qed.

Lemma FromStringDict_record fuel c d :
  1 ≤ fuel → is_nil c = false →
  ∃ s, FromStringDict fuel c d = Returns s
    ∧ constructor s = c ∧ record s (dict_pairs d) ∧ frozen (ht s) = false.
Proof.
  intros Hfuel Hc. unfold starlarkstruct.FromStringDict. rewrite Hc.
  destruct (init_holds (Z.of_nat (starlarkstruct.sd_len d)))
    as (t & -> & Hh & Hfr & Hic); [lia|]. simpl.
  destruct (puts_spec (λ k, (k, default nilValue (starlarkstruct.sd_get d k)))
              fuel (starlarkstruct.sd_Keys d) t [] Hh I Hfr Hic Hfuel)
    as (t' & Hfold & Hh' & Hfr' & Hic').
  simpl in Hfold. rewrite Hfold. simpl. eexists. split; [done|].
  rewrite foldl_ainsert_ascending in Hh'.
  - split_and!; try done. split; [done|].
    rewrite dict_pairs_names. apply ascending_Keys.
  - csimpl. fold (dict_pairs d). rewrite dict_pairs_names. apply ascending_Keys.
Qed.

Lemma FromKeywords_dict fuel c kwargs s :
  FromKeywords fuel c kwargs = Returns s →
  is_nil c = false ∧ ∃ d, FromStringDict fuel c d = Returns s.
Proof.
  unfold starlarkstruct.FromKeywords. destruct (is_nil c); [done|].
  destruct (foldl _ _ kwargs) as [d| |]; simpl; [|done..].
  intros H. split; [done|]. by exists d.
Qed.

(** *** The loops of [Binary] *)

Lemma put_entries_bind fuel es : ∀ (m : outcome table_t),
  foldl (λ acc e, t0 ← acc; starlarkstruct.put_entry StringHash nilValue fuel t0 e)
        m es
  = t ← m; put_entries fuel es t.
Proof.
  induction es as [|e es IH]; intros m; simpl.
  { by destruct m. }
  rewrite IH. destruct m as [t| |]; simpl; [|done..].
  unfold starlarkstruct.put_entries. simpl. by rewrite IH.
Qed.

Lemma put_entries_cons fuel e es t :
  put_entries fuel (e :: es) t
  = t' ← starlarkstruct.put_entry StringHash nilValue fuel t e;
    put_entries fuel es t'.
Proof. unfold starlarkstruct.put_entries at 1. simpl. apply put_entries_bind. Qed.

Lemma put_entries_app fuel es1 : ∀ es2 t,
  put_entries fuel (es1 ++ es2) t
  = t' ← put_entries fuel es1 t; put_entries fuel es2 t'.
Proof.
  induction es1 as [|e es1 IH]; intros es2 t; [done|].
  simpl. rewrite !put_entries_cons.
  destruct (starlarkstruct.put_entry _ _ fuel t e) as [t1| |]; simpl; [|done..].
  apply IH.
Qed.

Lemma merge_loop_cons fuel ex xs ey ys t :
  merge_loop fuel (ex :: xs) (ey :: ys) t
  = if starlarkstruct.str_lt (key ex) (key ey) then
      t' ← starlarkstruct.put_entry StringHash nilValue fuel t ex;
      merge_loop fuel xs (ey :: ys) t'
    else if String.eqb (key ex) (key ey) then
      t' ← starlarkstruct.put_entry StringHash nilValue fuel t ey;
      merge_loop fuel xs ys t'
    else
      t' ← starlarkstruct.put_entry StringHash nilValue fuel t ey;
      merge_loop fuel (ex :: xs) ys t'.
Proof. reflexivity. Qed.

Lemma merge_loop_merged fuel xs : ∀ ys t,
  merge_loop fuel xs ys t = put_entries fuel (merged xs ys) t.
Proof.
  induction xs as [|ex xs IHx]; intros ys.
  { intros t. rewrite merged_nil_l. by destruct ys. }
  induction ys as [|ey ys IHy]; intros t.
  { rewrite merged_nil_r. simpl.
    destruct (put_entries fuel (ex :: xs) t); done. }
  rewrite merge_loop_cons, merged_cons.
  destruct (starlarkstruct.str_lt (key ex) (key ey)).
  { rewrite put_entries_cons.
    destruct (starlarkstruct.put_entry _ _ fuel t ex); simpl; [|done..].
    apply IHx. }
  destruct (String.eqb (key ex) (key ey)); rewrite put_entries_cons;
    destruct (starlarkstruct.put_entry _ _ fuel t ey); simpl; done.
Qed.

Lemma put_entries_ascending fuel es t :
  holds t [] → frozen t = false → (0 <? itercount t)%Z = false → 1 ≤ fuel →
  ascending (names es) →
  ∃ t', put_entries fuel es t = Returns t' ∧ holds t' (pairs es)
    ∧ frozen t' = false.
Proof.
  intros Hh Hfr Hic Hfuel Hes.
  destruct (puts_spec kv fuel es t [] Hh I Hfr Hic Hfuel)
    as (t' & Hfold & Hh' & Hfr' & _).
  exists t'. split_and!; [exact Hfold| |done].
  rewrite foldl_ainsert_ascending in Hh'; [done|].
  csimpl. fold (pairs es). by rewrite pairs_names.
Qed.

Abbreviation ht_lookup := (starlarkstruct.ht_lookup StringHash nilValue None_).

Lemma record_lookup s l k :
  record s l →
  ht_lookup (ht s) k
  = Returns (match alookup String.eqb l k with
             | Some v => (v, true, None)
             | None => (None_, false, None)
             end).
Proof.
  intros [(L & Hwf & <-) Hasc].
  apply (lookup_refines strHash strEqual EmptyString nilValue None_ String.eqb
           strEqual_eqb String.eqb_sym eqb_trans strHash_eqb (ht s) L k Hwf).
  - by apply good_distinct, ascending_distinct.
  - apply str_hashable.
Qed.

Lemma record_AttrNames s l : record s l → AttrNames s = Returns l.*1.
Proof.
  intros [Hh _]. destruct (holds_entries _ _ Hh) as (es & Hes & <-).
  unfold starlarkstruct.AttrNames. rewrite Hes. simpl.
  by rewrite pairs_names.
Qed.

(** [Binary] after the comparison of the constructors. *)
Lemma merge_body fuel a b la lb :
  1 ≤ fuel → record a la → record b lb →
  ∃ t l,
    (t0 ← ht_init hashtable.zero (starlarkstruct.len a + starlarkstruct.len b)%Z;
     xs ← list_entries (ht a);
     ys ← list_entries (ht b);
     t ← merge_loop fuel xs ys t0;
     Returns (starlarkstruct.BinValue (starlarkstruct.MkStruct (constructor a) t)))
    = Returns (starlarkstruct.BinValue (starlarkstruct.MkStruct (constructor a) t))
    ∧ record (starlarkstruct.MkStruct (constructor a) t) l
    ∧ frozen t = false
    ∧ (∀ k, k ∈ l.*1 ↔ k ∈ la.*1 ∨ k ∈ lb.*1)
    ∧ (∀ k, alookup String.eqb l k
            = match alookup String.eqb lb k with
              | Some v => Some v
              | None => alookup String.eqb la k
              end).
Proof.
  intros Hfuel [Ha Hla] [Hb Hlb].
  destruct (init_holds (starlarkstruct.len a + starlarkstruct.len b))
    as (t0 & -> & Hh0 & Hfr0 & Hic0).
  { unfold starlarkstruct.len. rewrite (holds_len _ _ Ha), (holds_len _ _ Hb).
    pose proof (u32_range (Z.of_nat (length la))).
    pose proof (u32_range (Z.of_nat (length lb))). lia. }
  destruct (holds_entries _ _ Ha) as (xs & -> & <-).
  destruct (holds_entries _ _ Hb) as (ys & -> & <-).
  rewrite pairs_names in Hla, Hlb. simpl. rewrite merge_loop_merged.
  destruct (put_entries_ascending fuel (merged xs ys) t0 Hh0 Hfr0 Hic0 Hfuel)
    as (t & -> & Hh & Hfr); [by apply ascending_merged|].
  exists t, (pairs (merged xs ys)). simpl. split_and!; try done.
  - split; [done|]. rewrite pairs_names. by apply ascending_merged.
  - intros k. rewrite !pairs_names. apply elem_of_names_merged.
  - intros k. by apply alookup_merged.
Qed.

(** The operands of [x.Binary(op, y, side)]: with [Right], y is the left
    operand. *)
Definition operands {A} (side : starlarkstruct.Side) (x y : A) : A * A :=
  match side with
  | starlarkstruct.Right => (y, x)
  | starlarkstruct.Left => (x, y)
  end.

(** C5. For structs a and b with fields in ascending order, the left and
    the right operand of [+]: when the constructors compare equal,
    [Binary] returns a struct with the constructor of a whose field
    names are those of a and of b, ascending, and whose fields have the
    value of b where b has the name and the value of a elsewhere; when
    they compare unequal, it returns the error that names both
    constructors; when their comparison fails, it returns an error that
    names both constructors and ends with the error of the comparison. *)
Theorem merge_sorted_union fuel x yv y side lx ly a la b lb :
  1 ≤ fuel → as_struct yv = Some y → record x lx → record y ly →
  operands side (x, lx) (y, ly) = ((a, la), (b, lb)) →
  (ValueEqual (constructor a) (constructor b) = Ok true →
     ∃ s l, Binary fuel x starlarkstruct.PLUS yv side
            = Returns (starlarkstruct.BinValue s)
       ∧ constructor s = constructor a
       ∧ record s l
       ∧ AttrNames s = Returns l.*1
       ∧ (∀ k, k ∈ l.*1 ↔ k ∈ la.*1 ∨ k ∈ lb.*1)
       ∧ (∀ k, alookup String.eqb l k
               = match alookup String.eqb lb k with
                 | Some v => Some v
                 | None => alookup String.eqb la k
                 end)
       ∧ (∀ k, ht_lookup (ht s) k
               = match alookup String.eqb lb k with
                 | Some v => ht_lookup (ht b) k
                 | None => ht_lookup (ht a) k
                 end))
  ∧ (ValueEqual (constructor a) (constructor b) = Ok false →
     Binary fuel x starlarkstruct.PLUS yv side
     = Returns (starlarkstruct.BinError
                  ("cannot add structs of different constructors: "
                   ++ ValueString (constructor a) ++ " + "
                   ++ ValueString (constructor b))%string))
  ∧ (∀ err, ValueEqual (constructor a) (constructor b) = Err err →
     Binary fuel x starlarkstruct.PLUS yv side
     = Returns (starlarkstruct.BinError
                  ("in " ++ ValueString (constructor a) ++ " + "
                   ++ ValueString (constructor b)
                   ++ ": error comparing constructors: " ++ err)%string)).
Proof.
  intros Hfuel Hy Hx Hry Hops.
  assert (record a la ∧ record b lb
          ∧ Binary fuel x starlarkstruct.PLUS yv side
            = match ValueEqual (constructor a) (constructor b) with
              | Err err =>
                  Returns (starlarkstruct.BinError
                    ("in " ++ ValueString (constructor a) ++ " + "
                     ++ ValueString (constructor b)
                     ++ ": error comparing constructors: " ++ err)%string)
              | Ok false =>
                  Returns (starlarkstruct.BinError
                    ("cannot add structs of different constructors: "
                     ++ ValueString (constructor a) ++ " + "
                     ++ ValueString (constructor b))%string)
              | Ok true =>
                  t0 ← ht_init hashtable.zero
                         (starlarkstruct.len a + starlarkstruct.len b)%Z;
                  xs ← list_entries (ht a);
                  ys ← list_entries (ht b);
                  t ← merge_loop fuel xs ys t0;
                  Returns (starlarkstruct.BinValue
                             (starlarkstruct.MkStruct (constructor a) t))
              end) as (Ha & Hb & ->).
  { unfold starlarkstruct.Binary. rewrite Hy.
    destruct side; simpl in Hops; simplify_eq; done. }
  split_and!.
  - intros ->. destruct (merge_body fuel a b la lb Hfuel Ha Hb)
      as (t & l & -> & Hrec & _ & Hnames & Hlook).
    eexists _, l. split_and!; try done.
    + by apply record_AttrNames.
    + intros k. rewrite (record_lookup _ _ k Hrec), Hlook.
      rewrite (record_lookup _ _ k Ha), (record_lookup _ _ k Hb).
      by destruct (alookup String.eqb lb k).
  - by intros ->.
  - by intros err ->.
Qed.

(** *** Structs that the package builds *)

Inductive built : Struct → Prop :=
| built_dict fuel c d s :
    1 ≤ fuel → FromStringDict fuel c d = Returns s → built s
| built_keywords fuel c kwargs s :
    1 ≤ fuel → FromKeywords fuel c kwargs = Returns s → built s
| built_merge fuel x yv y side s :
    1 ≤ fuel → built x → as_struct yv = Some y → built y →
    Binary fuel x starlarkstruct.PLUS yv side
    = Returns (starlarkstruct.BinValue s) →
    built s
| built_freeze s : built s → built (Freeze s).1.

Lemma FromStringDict_returns fuel c d s :
  1 ≤ fuel → FromStringDict fuel c d = Returns s → record s (dict_pairs d).
Proof.
  intros Hfuel Hs. destruct (is_nil c) eqn:Hc.
  { unfold starlarkstruct.FromStringDict in Hs. by rewrite Hc in Hs. }
  destruct (FromStringDict_record fuel c d Hfuel Hc) as (s' & Hs' & _ & Hrec & _).
  congruence.
Qed.

Lemma Freeze_record s l : record s l → record (Freeze s).1 l.
Proof.
  intros [(L & Hwf & Hkv) Hasc]. split; [|done].
  unfold starlarkstruct.Freeze, starlarkstruct.ht_freeze.
  destruct (frozen (starlarkstruct.ht s)) eqn:Hfr; simpl.
  - by exists L.
  - exists L. split; [|done]. by apply wf_with_frozen.
Qed.

Lemma built_record s : built s → ∃ l, record s l.
Proof.
  induction 1 as [fuel c d s Hfuel Hs|fuel c kwargs s Hfuel Hs
                 |fuel x yv y side s Hfuel _ [lx Hx] Hy _ [ly Hry] Hs
                 |s _ [l Hs]].
  - eexists. by eapply FromStringDict_returns.
  - apply FromKeywords_dict in Hs as [_ [d Hs]].
    eexists. by eapply FromStringDict_returns.
  - unfold starlarkstruct.Binary in Hs. rewrite Hy in Hs.
    destruct side; simpl in Hs.
    + destruct (ValueEqual _ _) as [[|]|]; try done.
      destruct (merge_body fuel x y lx ly Hfuel Hx Hry)
        as (t & l & Hbody & Hrec & _).
      rewrite Hbody in Hs. simplify_eq. by exists l.
    + destruct (ValueEqual _ _) as [[|]|]; try done.
      destruct (merge_body fuel y x ly lx Hfuel Hry Hx)
        as (t & l & Hbody & Hrec & _).
      rewrite Hbody in Hs. simplify_eq. by exists l.
  - exists l. by apply Freeze_record.
Qed.

(** C6. [FromStringDict] returns a struct for every dictionary, and its
    field names are the keys of the dictionary in ascending order; and
    every struct that the package builds (from a dictionary, from
    keyword arguments, by [+], by [Freeze]) has the names of its stored
    fields in ascending order, which is the list [AttrNames] returns. *)
Theorem fields_ascending fuel c d s :
  1 ≤ fuel → is_nil c = false → built s →
  (∃ s0, FromStringDict fuel c d = Returns s0
     ∧ built s0
     ∧ AttrNames s0 = Returns (starlarkstruct.sd_Keys d)
     ∧ ascending (starlarkstruct.sd_Keys d)
     ∧ (∀ k, k ∈ starlarkstruct.sd_Keys d ↔ k ∈ d.*1))
  ∧ (∃ ns, keys (ht s) = Returns ns
       ∧ AttrNames s = Returns ns
       ∧ ascending ns).
Proof.
  intros Hfuel Hc Hs. split.
  - destruct (FromStringDict_record fuel c d Hfuel Hc) as (s0 & Hs0 & _ & Hrec & _).
    exists s0. split_and!.
    + done.
    + by eapply built_dict.
    + rewrite (record_AttrNames _ _ Hrec). by rewrite dict_pairs_names.
    + apply ascending_Keys.
    + apply elem_of_Keys.
  - destruct (built_record s Hs) as [l Hrec]. exists l.*1. split_and!.
    + apply holds_keys, Hrec.
    + by apply record_AttrNames.
    + apply Hrec.
Qed.

(** *** Hash *)

(** The multiplier of the hash of the value of field [i]: [m] starts at
    9839 and [m += 7349] follows each field. *)
Definition value_multiplier (i : nat) : Z := u32 (9839 + 7349 * Z.of_nat i).

(** The hash of the fields from field [i] on, given the names and the
    hashes of the values: the hash of a name is multiplied by 3, that of
    the value of field [i] by [value_multiplier i]. *)
Fixpoint mix (acc : Z) (i : nat) (fs : list (string * Z)) : Z :=
  match fs with
  | [] => acc
  | (k, h) :: fs' =>
      mix (Z.lxor (Z.lxor acc (u32 (3 * StringHash k)))
                  (u32 (h * value_multiplier i)))
          (S i) fs'
  end.

Lemma value_multiplier_S i :
  u32 (value_multiplier i + 7349) = value_multiplier (S i).
Proof. unfold value_multiplier. rewrite u32_add_l. f_equal. lia. Qed.

Lemma hash_loop_mix (es : list entry_t) : ∀ (acc : Z) i (hs : list Z),
  Forall2 (λ e h, ValueHash (value e) = Ok h) es hs →
  hash_loop es acc (value_multiplier i) = (mix acc i (zip (names es) hs), None).
Proof.
  induction es as [|e es IH]; intros acc i hs Hhs.
  { by apply Forall2_nil_inv_l in Hhs as ->. }
  apply Forall2_cons_inv_l in Hhs as (h & hs' & Hh & Hhs & ->).
  cbn [starlarkstruct.hash_loop]. rewrite Hh, value_multiplier_S.
  by rewrite (IH _ (S i) hs' Hhs).
Qed.

Lemma hash_loop_error (es : list entry_t) : ∀ (acc m : Z) i e err,
  es !! i = Some e → ValueHash (value e) = Err err →
  (∀ j e', j < i → es !! j = Some e' → ∃ h, ValueHash (value e') = Ok h) →
  hash_loop es acc m = (0%Z, Some err).
Proof.
  induction es as [|e0 es IH]; intros acc m i e err Hi He Hbefore; [done|].
  cbn [starlarkstruct.hash_loop]. destruct i as [|i]; simplify_eq/=.
  { by rewrite He. }
  destruct (Hbefore 0 e0) as [h ->]; [lia|done|].
  apply (IH _ _ i e err Hi He). intros j e' Hj He'.
  apply (Hbefore (S j) e'); [lia|done].
Qed.

(** C7, as amended.  [Hash] goes through the fields in their order,
    from the seed 8731; the hash of each name is multiplied by the
    constant 3 and the hash of the value of field [i] by a multiplier
    that starts at 9839 and grows by 7349 (modulo 2^32) with each
    field; the products are combined by exclusive or.  When a value
    cannot be hashed, the result is 0 with the error of the first such
    value. *)
Theorem Hash_mixing s l :
  holds (ht s) l →
  (∀ hs : list Z, Forall2 (λ p h, ValueHash p.2 = Ok h) l hs →
     Hash s = Returns (mix 8731 0 (zip l.*1 hs), None))
  ∧ (∀ i k v err,
       l !! i = Some (k, v) → ValueHash v = Err err →
       (∀ j p, j < i → l !! j = Some p → ∃ h : Z, ValueHash p.2 = Ok h) →
       Hash s = Returns (0%Z, Some err)).
Proof.
  intros Hh. destruct (holds_entries _ _ Hh) as (es & Hes & <-).
  unfold starlarkstruct.Hash. rewrite Hes. simpl. split.
  - intros hs Hhs. rewrite pairs_names.
    change 9839%Z with (value_multiplier 0). f_equal.
    apply hash_loop_mix. unfold pairs in Hhs.
    by apply Forall2_fmap_l in Hhs.
  - intros i k v err Hi Hv Hbefore. f_equal.
    unfold pairs in Hi. rewrite list_lookup_fmap in Hi.
    destruct (es !! i) as [e|] eqn:He; simplify_eq/=.
    unfold kv in Hi. simplify_eq.
    apply (hash_loop_error es _ _ i e err He Hv).
    intros j e' Hj He'. apply (Hbefore j (kv e') Hj).
    unfold pairs. by rewrite list_lookup_fmap, He'.
Qed.

(** *** Equality *)

Lemma int_small (z : Z) : (- 2 ^ 63 ≤ z < 2 ^ 63)%Z → starlarkstruct.int z = z.
Proof. intros Hz. unfold starlarkstruct.int. rewrite Z.mod_small; lia. Qed.

(** C8, as amended.  [structsEqual] does not look at the budget itself:
    it hands [depth - 1] to [EqualDepth] when it compares the values of
    two fields.  With a budget of at most 1, on structs with as many
    fields, equal constructors and the same first name, that comparison
    is the first thing that fails, and its error is returned with the
    verdict false; structs with different numbers of fields, unequal
    constructors or different first names get the verdict false, and
    structs without fields the verdict true, without an error. *)
Theorem equality_at_spent_budget x y yv lx ly depth rec_err :
  (∀ a b d, (d < 1)%Z → EqualDepth a b d = Err rec_err) →
  holds (ht x) lx → holds (ht y) ly → as_struct yv = Some y →
  (- 2 ^ 63 < depth ≤ 1)%Z →
  CompareSameType x starlarkstruct.EQL yv depth = structsEqual x y depth
  ∧ (starlarkstruct.len x ≠ starlarkstruct.len y →
     structsEqual x y depth = Returns (false, None))
  ∧ (starlarkstruct.len x = starlarkstruct.len y →
     ValueEqual (constructor x) (constructor y) = Ok false →
     structsEqual x y depth = Returns (false, None))
  ∧ (starlarkstruct.len x = starlarkstruct.len y →
     ValueEqual (constructor x) (constructor y) = Ok true →
     lx = [] →
     structsEqual x y depth = Returns (true, None))
  ∧ (∀ kx vx lx' ky vy ly',
       starlarkstruct.len x = starlarkstruct.len y →
       ValueEqual (constructor x) (constructor y) = Ok true →
       lx = (kx, vx) :: lx' → ly = (ky, vy) :: ly' →
       structsEqual x y depth
       = Returns (if String.eqb kx ky then (false, Some rec_err)
                  else (false, None))).
Proof.
  intros Hspent Hx Hy Hyv Hdepth.
  destruct (holds_entries _ _ Hx) as (xs & Hxs & <-).
  destruct (holds_entries _ _ Hy) as (ys & Hys & <-).
  unfold starlarkstruct.CompareSameType, starlarkstruct.structsEqual.
  rewrite Hyv. split_and!.
  - done.
  - intros Hlen. apply Z.eqb_neq in Hlen. by rewrite Hlen.
  - intros Hlen ->. apply Z.eqb_eq in Hlen. by rewrite Hlen.
  - intros Hlen -> Hnil. apply Z.eqb_eq in Hlen. rewrite Hlen, Hxs, Hys. simpl.
    by destruct xs.
  - intros kx vx lx' ky vy ly' Hlen -> Hlx Hly. apply Z.eqb_eq in Hlen.
    rewrite Hlen, Hxs, Hys. simpl.
    destruct xs as [|ex xs]; [done|]. destruct ys as [|ey ys]; [done|].
    unfold pairs, kv in Hlx, Hly. simplify_eq/=.
    destruct (String.eqb (key ex) (key ey)); simpl; [|done].
    rewrite int_small by lia. by rewrite Hspent by lia.
Qed.

End Records.

End struct_facts.


(** * Structs over the universe of values *)

Module struct_examples.
Import hashtable table_facts struct_facts universe.
#[local] Open Scope string_scope.

Abbreviation record := (struct_facts.record StringHash VNil).
Abbreviation holds := (struct_facts.holds StringHash VNil).
Abbreviation built :=
  (struct_facts.built value_Equal value_String StringHash is_nil VNil
     as_struct as_String).
Abbreviation dict_pairs := (struct_facts.dict_pairs VNil).
Abbreviation ht_lookup := (starlarkstruct.ht_lookup StringHash VNil VNone).
Abbreviation AttrNames := (@starlarkstruct.AttrNames value).
Abbreviation PLUS := starlarkstruct.PLUS.
Abbreviation EQL := starlarkstruct.EQL.
Abbreviation NEQ := starlarkstruct.NEQ.

(** The struct that a construction returns. *)
Definition the (o : outcome Struct) : Struct :=
  match o with
  | Returns s => s
  | _ => starlarkstruct.MkStruct VNil hashtable.zero
  end.

Definition struct_of (d : starlarkstruct.StringDict value) : Struct :=
  the (FromStringDict 1 Default d).

Lemma struct_of_returns d : FromStringDict 1 Default d = Returns (struct_of d).
Proof.
  destruct (FromStringDict_record StringHash is_nil VNil 1 Default d)
    as (s & Hs & _); [lia|done|].
  unfold struct_of, FromStringDict. by rewrite Hs.
Qed.

Lemma struct_of_record d : record (struct_of d) (dict_pairs d).
Proof.
  apply (FromStringDict_returns StringHash is_nil VNil 1 Default d); [lia|].
  apply struct_of_returns.
Qed.

Lemma struct_of_built d : built (struct_of d).
Proof.
  apply (built_dict _ _ _ _ _ _ _ 1 Default d); [lia|]. apply struct_of_returns.
Qed.

Lemma as_struct_of_struct s : as_struct (of_struct s) = Some s.
Proof. by destruct s. Qed.

(** struct(b = "2", a = "1") and struct(c = "4", b = "3") *)
Definition dict_x : starlarkstruct.StringDict value :=
  [("b", VString "2"); ("a", VString "1")].
Definition dict_y : starlarkstruct.StringDict value :=
  [("c", VString "4"); ("b", VString "3")].
Definition sx : Struct := struct_of dict_x.
Definition sy : Struct := struct_of dict_y.

Example sx_plus_sy :
  match Binary 1 sx PLUS (of_struct sy) starlarkstruct.Left with
  | Returns (starlarkstruct.BinValue s) =>
      Some (value_String (starlarkstruct.constructor s),
            hashtable.items (starlarkstruct.ht s))
  | _ => None
  end
  = Some (quote ++ "struct" ++ quote,
          Returns [("a", VString "1"); ("b", VString "3"); ("c", VString "4")]).
Proof. vm_compute. reflexivity. Qed.

Lemma merge_sorted_union_witness :
  ∃ s l, Binary 1 sx PLUS (of_struct sy) starlarkstruct.Left
         = Returns (starlarkstruct.BinValue s)
    ∧ starlarkstruct.constructor s = starlarkstruct.constructor sx
    ∧ record s l
    ∧ AttrNames s = Returns l.*1
    ∧ (∀ k, k ∈ l.*1 ↔ k ∈ (dict_pairs dict_x).*1 ∨ k ∈ (dict_pairs dict_y).*1)
    ∧ (∀ k, alookup String.eqb l k
            = match alookup String.eqb (dict_pairs dict_y) k with
              | Some v => Some v
              | None => alookup String.eqb (dict_pairs dict_x) k
              end)
    ∧ (∀ k, ht_lookup (starlarkstruct.ht s) k
            = match alookup String.eqb (dict_pairs dict_y) k with
              | Some _ => ht_lookup (starlarkstruct.ht sy) k
              | None => ht_lookup (starlarkstruct.ht sx) k
              end).
Proof.
  destruct (merge_sorted_union value_Equal value_String StringHash VNil VNone
              as_struct 1 sx (of_struct sy) sy starlarkstruct.Left
              (dict_pairs dict_x) (dict_pairs dict_y)
              sx (dict_pairs dict_x) sy (dict_pairs dict_y)) as [Hmerge _].
  - lia.
  - apply as_struct_of_struct.
  - apply struct_of_record.
  - apply struct_of_record.
  - reflexivity.
  - apply Hmerge. vm_compute. reflexivity.
Defined.

Lemma fields_ascending_witness :
  (∃ s0, FromStringDict 1 Default dict_x = Returns s0
     ∧ built s0
     ∧ AttrNames s0 = Returns (starlarkstruct.sd_Keys dict_x)
     ∧ ascending (starlarkstruct.sd_Keys dict_x)
     ∧ (∀ k, k ∈ starlarkstruct.sd_Keys dict_x ↔ k ∈ dict_x.*1))
  ∧ (∃ ns, keys (starlarkstruct.ht sy) = Returns ns
       ∧ AttrNames sy = Returns ns
       ∧ ascending ns).
Proof.
  apply (fields_ascending value_Equal value_String StringHash is_nil VNil
           as_struct as_String 1 Default dict_x sy).
  - lia.
  - reflexivity.
  - apply struct_of_built.
Defined.

Example sd_Keys_dict_x : starlarkstruct.sd_Keys dict_x = ["a"; "b"].
Proof. reflexivity. Qed.

(** *** Hash *)

Lemma Hash_mixing_witness :
  (∀ hs : list Z,
     Forall2 (λ p h, value_Hash p.2 = Ok h) (dict_pairs dict_x) hs →
     Hash sx = Returns (mix StringHash 8731 0 (zip (dict_pairs dict_x).*1 hs), None))
  ∧ (∀ i k v err,
       dict_pairs dict_x !! i = Some (k, v) → value_Hash v = Err err →
       (∀ j p, j < i → dict_pairs dict_x !! j = Some p →
               ∃ h : Z, value_Hash p.2 = Ok h) →
       Hash sx = Returns (0%Z, Some err)).
Proof.
  apply (Hash_mixing value_Hash StringHash VNil sx (dict_pairs dict_x)).
  apply struct_of_record.
Defined.

(** The hash depends on the names, on the values and on which field has
    which value; a value that cannot be hashed gives its error. *)
Example Hash_sensitive :
  Hash (struct_of [("a", VString "1"); ("b", VString "2")])
    = Returns (1703585248%Z, None)
  ∧ Hash (struct_of [("a", VString "2"); ("b", VString "1")])
    = Returns (2021858459%Z, None)
  ∧ Hash (struct_of [("a", VString "1"); ("c", VString "2")])
    = Returns (1653254329%Z, None)
  ∧ Hash (struct_of [("a", VString "1"); ("b", VSymbol 0 "sym");
                     ("c", VSymbol 1 "other")])
    = Returns (0%Z, Some "unhashable: symbol").
Proof. vm_compute. by split_and!. Qed.

(** The hash as the specification has it: for field [i] a multiplier
    [a i] of the hash of its name and a multiplier [b i] of the hash of
    its value, both rolling. *)
Fixpoint rolling (a b : nat → Z) (acc : Z) (i : nat) (fs : list (Z * Z)) : Z :=
  match fs with
  | [] => acc
  | (name_hash, value_hash) :: fs' =>
      rolling a b
        (Z.lxor (Z.lxor acc (u32 (a i * name_hash))) (u32 (b i * value_hash)))
        (S i) fs'
  end.

Lemma lxor_cancel_l (a b c : Z) : Z.lxor a b = Z.lxor a c → b = c.
Proof.
  intros H. apply (f_equal (Z.lxor a)) in H.
  by rewrite <- !Z.lxor_assoc, Z.lxor_nilpotent, !Z.lxor_0_l in H.
Qed.

(** Multiplication by an odd number is injective modulo 2^32. *)
Lemma u32_mul_cancel (a c h hinv : Z) :
  u32 (h * hinv) = 1%Z → u32 (a * h) = u32 (c * h) → u32 a = u32 c.
Proof.
  unfold u32. intros Hinv H.
  assert (∀ z, z mod 2 ^ 32 = ((z * h) mod 2 ^ 32 * hinv) mod 2 ^ 32)%Z as Hz.
  { intros z. rewrite Zmult_mod_idemp_l, <- Z.mul_assoc, <- Zmult_mod_idemp_r.
    by rewrite Hinv, Z.mul_1_r. }
  by rewrite (Hz a), (Hz c), H.
Qed.

(** No seed and no two multipliers that both change from each field to
    the next give the hashes of struct(), struct(b = None) and
    struct(b = None, d = None): the multiplier of the hash of the name
    is 3 at the first field and at the second. *)
Lemma name_multiplier_does_not_roll :
  ¬ ∃ (seed : Z) (a b : nat → Z),
      (∀ i, u32 (a (S i)) ≠ u32 (a i))
      ∧ (∀ i, u32 (b (S i)) ≠ u32 (b i))
      ∧ Hash (struct_of []) = Returns (rolling a b seed 0 [], None)
      ∧ Hash (struct_of [("b", VNone)])
        = Returns (rolling a b seed 0 [(StringHash "b", 0%Z)], None)
      ∧ Hash (struct_of [("d", VNone); ("b", VNone)])
        = Returns (rolling a b seed 0
                     [(StringHash "b", 0%Z); (StringHash "d", 0%Z)], None).
Proof.
  intros (seed & a & b & Ha & _ & H0 & H1 & H2).
  assert (StringHash "b" = 3876335077%Z) as Hb by (vm_compute; reflexivity).
  assert (StringHash "d" = 3775669363%Z) as Hd by (vm_compute; reflexivity).
  assert (Hash (struct_of []) = Returns (8731%Z, None)) as E0
    by (vm_compute; reflexivity).
  assert (Hash (struct_of [("b", VNone)])
          = Returns (Z.lxor 8731 (u32 (3 * 3876335077)), None)) as E1
    by (vm_compute; reflexivity).
  assert (Hash (struct_of [("d", VNone); ("b", VNone)])
          = Returns (Z.lxor (Z.lxor 8731 (u32 (3 * 3876335077)))
                            (u32 (3 * 3775669363)), None)) as E2
    by (vm_compute; reflexivity).
  rewrite E0 in H0. rewrite E1, Hb in H1. rewrite E2, Hb, Hd in H2.
  cbn [rolling] in H0, H1, H2.
  rewrite !Z.mul_0_r in H1. rewrite !Z.mul_0_r in H2.
  change (u32 0) with 0%Z in H1, H2.
  rewrite !Z.lxor_0_r in H1. rewrite !Z.lxor_0_r in H2.
  injection H0 as <-. injection H1 as H1. injection H2 as H2.
  apply lxor_cancel_l in H1. rewrite <- H1 in H2. apply lxor_cancel_l in H2.
  apply (Ha 0). transitivity (u32 3).
  - apply (u32_mul_cancel _ _ 3775669363 2556502203); [by vm_compute|done].
  - symmetry. apply (u32_mul_cancel _ _ 3876335077 4245899245); [by vm_compute|done].
Qed.

(** *** Equality *)

Lemma EqualDepth_spent (a b : value) (d : Z) :
  (d < 1)%Z → EqualDepth a b d = Err recursion_error.
Proof.
  intros Hd%Z.ltb_lt. unfold EqualDepth. generalize nesting. intros n.
  destruct n; simpl; by rewrite Hd.
Qed.

Lemma equality_at_spent_budget_witness :
  CompareSameType sx EQL (of_struct sx) 0 = structsEqual sx sx 0
  ∧ structsEqual sx sx 0 = Returns (false, Some recursion_error).
Proof.
  destruct (equality_at_spent_budget value_Equal EqualDepth value_String
              StringHash VNil as_struct sx sx (of_struct sx)
              (dict_pairs dict_x) (dict_pairs dict_x) 0 recursion_error)
    as (Hcmp & _ & _ & _ & Hfirst).
  - exact EqualDepth_spent.
  - apply struct_of_record.
  - apply struct_of_record.
  - apply as_struct_of_struct.
  - split; [reflexivity|discriminate].
  - split; [exact Hcmp|].
    apply (Hfirst "a" (VString "1") [("b", VString "2")]
                  "a" (VString "1") [("b", VString "2")]).
    + reflexivity.
    + vm_compute. reflexivity.
    + reflexivity.
    + reflexivity.
Defined.

(** Structs nested three deep. *)
Definition nest (name : string) (inner : value) : Struct :=
  struct_of [(name, inner)].
Definition deep_a : Struct :=
  nest "a" (of_struct (nest "a" (of_struct (nest "a" (VString "x"))))).
Definition deep_b : Struct :=
  nest "b" (of_struct (nest "b" (of_struct (nest "b" (VString "x"))))).
Definition deep_ab : Struct :=
  struct_of [("a", of_struct (nest "a" (of_struct (nest "a" (VString "x")))));
             ("b", of_struct (nest "b" (VString "x")))].

(** With the budget 0, structs whose first names differ, or that have
    different numbers of fields, are told to be unequal, without an
    error. *)
Lemma verdict_at_budget_zero :
  structsEqual deep_a deep_b 0 = Returns (false, None)
  ∧ CompareSameType deep_a EQL (of_struct deep_b) 0 = Returns (false, None)
  ∧ CompareSameType deep_a NEQ (of_struct deep_b) 0 = Returns (true, None)
  ∧ structsEqual deep_a deep_ab 0 = Returns (false, None)
  ∧ CompareSameType deep_a EQL (of_struct deep_ab) 0 = Returns (false, None)
  ∧ structsEqual deep_a deep_a 0 = Returns (false, Some recursion_error)
  ∧ structsEqual deep_a deep_a 3 = Returns (false, Some recursion_error)
  ∧ structsEqual deep_a deep_a 4 = Returns (true, None).
Proof. vm_compute. by split_and!. Qed.

End struct_examples.


(** * The table: further properties of its operations *)

Module table_more.
Import hashtable table_facts.

Section More.
Context {K V : Type}.
Variable Hash : K → result Z.
Variable Equal : K → K → result bool.
Variable nilK : K.
Variable nilV : V.
Variable None_ : V.

Abbreviation entry := (@entry K V).
Abbreviation hashtable := (@hashtable K V).
Abbreviation table_t := (list (list (list entry))).
Abbreviation zero_entry := (zero_entry nilK nilV).
Abbreviation make_table := (make_table nilK nilV).
Abbreviation init := (init nilK nilV).
Abbreviation insert_retry := (insert_retry Hash Equal nilK nilV).
Abbreviation insert := (insert Hash Equal nilK nilV).
Abbreviation grow := (grow Hash Equal nilK nilV).
Abbreviation lookup := (lookup Hash Equal nilV None_).
Abbreviation delete := (delete Hash Equal nilK nilV None_).
Abbreviation clear := (clear nilK nilV).
Abbreviation first := (first (K:=K) None_).
Abbreviation wf := (wf Hash nilK nilV).
Abbreviation linked := (linked nilK nilV).
Abbreviation kvs := (kvs nilK nilV).
Abbreviation entry_at := (entry_at nilK nilV).
Abbreviation reachable := (reachable Hash Equal nilK nilV None_).
Abbreviation hashable := (hashable Hash).
Abbreviation fresh := (fresh nilK nilV).

Implicit Types (t : table_t) (a : addr) (e : entry) (ht : hashtable)
  (L : list addr) (k : K) (v : V).

(** X1. On every table that the operations build, the walk of the list
    returns, [keys] returns the keys of its pairs, [len] is their number
    (modulo 2^32), and [items] returns the pairs when there are fewer
    than 2^31 of them. *)
Theorem len_counts_entries ht :
  reachable ht →
  ∃ l, contents ht = Returns l
    ∧ keys ht = Returns l.*1
    ∧ len ht = u32 (Z.of_nat (length l))
    ∧ ((Z.of_nat (length l) < 2 ^ 31)%Z → items ht = Returns l).
Proof.
  intros [L Hwf]%reachable_wf. exists (kvs (table ht) L).
  pose proof (wf_linked _ _ _ _ _ Hwf) as HL. split_and!.
  - by apply contents_linked.
  - by apply keys_linked.
  - rewrite length_kvs. apply (wf_len _ _ _ _ _ Hwf).
  - rewrite length_kvs. intros Hlen.
    rewrite (items_contents _ _ _ _ _ Hwf Hlen). by apply contents_linked.
Qed.

(** *** Iterators *)

(** At most [n] calls of [Next], up to the first that returns false:
    the keys they store, and the iterator after them. *)
Fixpoint drain (n : nat) (ht : hashtable) (it : keyIterator)
  : outcome (list K * keyIterator) :=
  match n with
  | O => Returns ([], it)
  | S n' =>
      '(it', r) ← Next ht it;
      match r with
      | Some k => '(ks, it'') ← drain n' ht it'; Returns (k :: ks, it'')
      | None => Returns ([], it')
      end
  end.

Lemma drain_linked ht L n :
  linked (table ht) (head ht) L → ∀ i,
  length L - i ≤ n →
  drain n ht (KeyIterator (L !! i))
  = Returns (key <$> (entry_at (table ht) <$> drop i L),
             KeyIterator (L !! (i + (length L - i)))).
Proof.
  intros HL. induction n as [|n IH]; intros i Hi.
  - rewrite drop_ge by lia. replace (length L - i) with 0 by lia.
    by rewrite Nat.add_0_r.
  - simpl. unfold Next. simpl. destruct (L !! i) as [a|] eqn:Ha.
    + destruct (linked_entry _ _ _ _ _ HL i a Ha) as (e & He & _ & Hn & _).
      rewrite He. simpl. rewrite Hn, IH by (apply lookup_lt_Some in Ha; lia).
      simpl. rewrite (drop_S _ _ _ Ha). csimpl.
      unfold table_facts.entry_at at 2. rewrite He. simpl.
      do 3 f_equal. apply lookup_lt_Some in Ha. f_equal. lia.
    + apply lookup_ge_None in Ha. rewrite drop_ge by lia. simpl.
      replace (length L - i) with 0 by lia. rewrite Nat.add_0_r.
      apply lookup_ge_None in Ha. by rewrite Ha.
Qed.

(** X2. On every table that the operations build, the calls of [Next]
    on a new iterator store the keys that [keys] returns, in that
    order, and then [Next] returns false, as often as it is called. *)
Theorem iterator_yields_keys ht :
  reachable ht →
  ∃ ks it_end,
    keys ht = Returns ks
    ∧ (∀ n, length ks ≤ n →
         drain n (iterate ht).1 (iterate ht).2 = Returns (ks, it_end))
    ∧ Next (iterate ht).1 it_end = Returns (it_end, None).
Proof.
  intros [L Hwf]%reachable_wf.
  pose proof (wf_linked _ _ _ _ _ Hwf) as HL.
  exists (kvs (table ht) L).*1, (KeyIterator None). split_and!.
  - by apply keys_linked.
  - intros n Hn. rewrite length_fmap, length_kvs in Hn.
    assert (HL' : linked (table (iterate ht).1) (head (iterate ht).1) L).
    { unfold iterate. simpl. by destruct (frozen ht). }
    assert (Ht : table (iterate ht).1 = table ht).
    { unfold iterate. simpl. by destruct (frozen ht). }
    change (iterate ht).2 with (KeyIterator (head ht)).
    rewrite (linked_head _ _ _ _ _ HL).
    rewrite (drain_linked _ L n HL' 0) by lia.
    rewrite drop_0, Nat.sub_0_r, Ht. simpl.
    rewrite (proj2 (lookup_ge_None L (length L))) by lia.
    f_equal. f_equal. unfold table_facts.kvs.
    rewrite <- !list_fmap_compose. by apply list_fmap_ext.
  - done.
Qed.

(** X3. On every table that the operations build, [first] returns the
    first of the keys that [keys] returns, and [None] with false when
    there is none. *)
Theorem first_is_first_key ht :
  reachable ht →
  ∃ ks, keys ht = Returns ks
    ∧ first ht = Returns (match ks with
                          | [] => inl None_
                          | k :: _ => inr k
                          end).
Proof.
  intros [L Hwf]%reachable_wf.
  pose proof (wf_linked _ _ _ _ _ Hwf) as HL.
  exists (kvs (table ht) L).*1. split; [by apply keys_linked|].
  unfold hashtable.first. rewrite (linked_head _ _ _ _ _ HL).
  destruct L as [|a L]; [done|]. simpl.
  destruct (linked_entry _ _ _ _ _ HL 0 a eq_refl) as (e & He & _).
  rewrite He. simpl. unfold table_facts.entry_at. by rewrite He.
Qed.

(** X7. On every table that the operations build and that is not
    frozen, [freeze] sets the flag and calls [Freeze] on the key and
    then on the value of every pair, once, in the order of the list. *)
Theorem freeze_freezes_all ht :
  reachable ht → frozen ht = false →
  ∃ l, contents ht = Returns l
    ∧ freeze ht
      = Returns (with_frozen ht true,
                 flat_map (λ p, [FreezeKey p.1; FreezeValue p.2]) l).
Proof.
  intros [L Hwf]%reachable_wf Hfr.
  pose proof (wf_linked _ _ _ _ _ Hwf) as HL.
  exists (kvs (table ht) L). split; [by apply contents_linked|].
  unfold hashtable.freeze. rewrite Hfr.
  rewrite (list_entries_linked _ _ _ _ HL). simpl. do 2 f_equal.
  unfold table_facts.kvs. clear. induction L as [|a L' IH]; [done|].
  csimpl. by rewrite IH.
Qed.

(** X5. [clear] on a table that the operations build, not frozen and
    without iterators: no pair is left, [len] is 0, the number of
    buckets is what it was and every lookup of a hashable key reports
    that the key is missing. *)
Theorem clear_empties ht :
  reachable ht → frozen ht = false → (0 <? itercount ht)%Z = false →
  ∃ ht', clear ht = (ht', None)
    ∧ reachable ht'
    ∧ contents ht' = Returns []
    ∧ keys ht' = Returns []
    ∧ len ht' = 0%Z
    ∧ length (table ht') = length (table ht)
    ∧ (∀ k, hashable k → lookup ht' k = Returns (None_, false, None)).
Proof.
  intros Hr Hfr Hic. destruct (reachable_wf _ _ _ _ _ _ Hr) as [L Hwf].
  destruct (clear_wf _ _ _ _ _ Hwf) as [Hwf' _]. specialize (Hwf' Hfr Hic).
  pose proof (reach_clear _ _ _ _ _ _ Hr) as Hr'.
  unfold hashtable.clear in *. rewrite Hfr, Hic in *. simpl in *.
  eexists. split; [done|].
  pose proof (wf_linked _ _ _ _ _ Hwf') as HL'. split_and!.
  - done.
  - by rewrite (contents_linked _ _ _ _ HL').
  - by rewrite (keys_linked _ _ _ _ HL').
  - done.
  - simpl. by rewrite length_map.
  - intros k Hk.
    destruct (lookup_spec _ Equal _ _ None_ _ _ k Hwf' Hk) as (res & err & Hrel & ->).
    inversion Hrel as [k' v' e Hin|i k' v' Hi|Hnone]; subst.
    + by apply elem_of_nil in Hin.
    + done.
    + done.
Qed.

(** X6. A key that cannot be hashed, on a table that the operations
    build, not frozen and without iterators: [lookup] returns the error
    of [Hash]; [insert] returns it and leaves the pairs and [len] as
    they are; [delete] returns it too, except on a table that has no
    buckets yet, where it reports that the key is missing. *)
Theorem unhashable_key fuel ht k v err :
  reachable ht → frozen ht = false → (0 <? itercount ht)%Z = false →
  Hash k = Err err → 1 ≤ fuel →
  lookup ht k = Returns (nilV, false, Some err)
  ∧ (∃ ht', insert fuel ht k v = Returns (ht', Some err)
       ∧ contents ht' = contents ht ∧ len ht' = len ht)
  ∧ delete ht k
    = Returns (ht, match table ht with
                   | [] => (None_, false, None)
                   | _ => (nilV, false, Some err)
                   end).
Proof.
  intros [L Hwf]%reachable_wf Hfr Hic Hk Hfuel. split_and!.
  - by apply lookup_unhashable.
  - destruct (insert_cases _ Equal _ _ fuel ht L k v Hwf Hfuel)
      as (ht' & L' & r & Hins & Hwf' & _ & _ & Hcases).
    destruct Hcases as [(Hfr' & _)|[(_ & Hic' & _)
      |[(_ & _ & err' & Hk' & -> & -> & Hkv)|(_ & _ & [h0 Hh0] & _)]]];
      try congruence.
    assert (err' = err) as -> by congruence.
    exists ht'. split_and!; [done| |].
    + rewrite (contents_linked _ _ _ _ (wf_linked _ _ _ _ _ Hwf)).
      rewrite (contents_linked _ _ _ _ (wf_linked _ _ _ _ _ Hwf')).
      by rewrite Hkv.
    + apply (wf_same_length _ _ _ ht ht' L L Hwf Hwf'). by rewrite Hkv.
  - unfold hashtable.delete. rewrite Hfr, Hic.
    destruct (table ht); [done|]. by rewrite Hk.
Qed.

(** *** The number of buckets *)

Lemma init_nb_least size : ∀ fuel j,
  (size < 2 ^ Z.of_nat fuel * Z.of_nat (2 ^ j))%Z →
  (∀ m, m < j → overloaded size (Z.of_nat (2 ^ m)) = true) →
  ∃ n, init_nb fuel size (2 ^ j) = Returns (2 ^ n)
    ∧ overloaded size (Z.of_nat (2 ^ n)) = false
    ∧ (∀ m, m < n → overloaded size (Z.of_nat (2 ^ m)) = true).
Proof.
  induction fuel as [|fuel IH]; intros j Hsize Hbelow; cbn [hashtable.init_nb].
  - destruct (overloaded size (Z.of_nat (2 ^ j))) eqn:Ho; [|by exists j].
    unfold overloaded in Ho. apply andb_true_iff in Ho as [_ Ho%Z.leb_le].
    simpl in Hsize. lia.
  - destruct (overloaded size (Z.of_nat (2 ^ j))) eqn:Ho; [|by exists j].
    change (2 * 2 ^ j) with (2 ^ S j).
    apply IH.
    + rewrite Nat2Z.inj_succ, Z.pow_succ_r in Hsize by lia.
      rewrite Nat.pow_succ_r', Nat2Z.inj_mul. lia.
    + intros m Hm. destruct (decide (m = j)) as [->|]; [done|].
      apply Hbelow. lia.
Qed.

Lemma init_least ht (size : Z) :
  (0 ≤ size)%Z →
  ∃ n, init ht size
       = Returns (with_tailLink (with_table ht (make_table (2 ^ n)))
                    (Some LinkHead))
    ∧ overloaded size (Z.of_nat (2 ^ n)) = false
    ∧ (∀ m, m < n → overloaded size (Z.of_nat (2 ^ m)) = true).
Proof.
  unfold hashtable.init. intros Hsize.
  destruct (Z.ltb_spec size 0) as [|_]; [lia|].
  destruct (init_nb_least size (Z.to_nat (Z.log2_up (size + 1))) 0)
    as (n & Hn & Ho & Hleast).
  - rewrite Z2Nat.id by apply Z.log2_up_nonneg.
    change (Z.of_nat (2 ^ 0)) with 1%Z. rewrite Z.mul_1_r.
    destruct (decide (size = 0%Z)) as [->|]; [done|].
    pose proof (Z.log2_up_spec (size + 1)). lia.
  - intros m Hm. lia.
  - exists n. change (2 ^ 0) with 1 in Hn. by rewrite Hn.
Qed.


Lemma store_link_length ht l (w : option addr) ht' :
  store_link ht l w = Returns ht' → length (table ht') = length (table ht).
Proof.
  unfold store_link. destruct l as [[|b]|]; try done.
  - by intros [= <-].
  - destruct (get (table ht) b); [|done]. simpl. intros [= <-]. simpl.
    apply length_set.
Qed.

Lemma place_length ht a (h : Z) k v ht' :
  place ht a h k v = Returns ht' → length (table ht') = length (table ht).
Proof.
  unfold place. destruct (get (table ht) a) as [e|]; [|done]. simpl.
  destruct (store_link _ _ _) as [ht2| |] eqn:Hs; [|done..]. simpl.
  intros [= <-]. simpl. rewrite (store_link_length _ _ _ _ Hs). simpl.
  apply length_set.
Qed.

Lemma delete_length ht k ht' out :
  delete ht k = Returns (ht', out) → length (table ht') = length (table ht).
Proof.
  unfold hashtable.delete. destruct (frozen ht); [by intros [= <- _]|].
  destruct (0 <? itercount ht)%Z; [by intros [= <- _]|].
  destruct (table ht) as [|c0 t0] eqn:Ht; [by intros [= <- _]; rewrite Ht|].
  rewrite <- Ht. clear Ht.
  destruct (Hash k) as [h|err]; [|by intros [= <- _]].
  destruct (table ht !! _) as [p|]; [|done]. simpl.
  destruct (find_buckets _ _ _ _ _ _) as [a|err|]; try by intros [= <- _].
  destruct (get (table ht) a) as [e|]; [|done]. simpl.
  unfold remove.
  destruct (store_link ht (prevLink e) (next e)) as [ht1| |] eqn:H1; [|done..].
  simpl. apply store_link_length in H1.
  destruct (next e) as [n|]; simpl.
  - destruct (get (table ht1) n) as [en|]; [|done]. simpl.
    intros [= <- _]. simpl. by rewrite !length_set.
  - intros [= <- _]. simpl. by rewrite length_set.
Qed.

Lemma insert_retry_length fuel ht0 L k v h0 ht' r :
  wf ht0 L → table ht0 ≠ [] → frozen ht0 = false →
  (0 <? itercount ht0)%Z = false → Hash k = Ok h0 → 1 ≤ fuel →
  insert_retry fuel ht0 (norm h0) k v = Returns (ht', r) →
  length (table ht') = length (table ht0)
  ∨ length (table ht') = 2 * length (table ht0).
Proof.
  intros Hwf0 Hne0 Hfr Hic Hk Hfuel Hins.
  destruct (scan_wf _ Equal _ _ ht0 L k h0 Hwf0 Hne0 Hk) as (p & Hp & Hscan).
  set (c := slot_index (table ht0) (norm h0)) in *.
  destruct (scan_buckets Equal c 0 p (norm h0) k None) as [a|err|ins] eqn:Hs.
  1,2: destruct (insert_retry_nogrow _ Equal _ _ fuel ht0 L k v h0 Hwf0 Hne0 Hk)
         as (ht1 & L' & r1 & Heq & _ & Hlen' & _);
       [intros p' ins' Hp' Hs'; fold c in Hp', Hs'; congruence|];
       rewrite Heq in Hins; simplify_eq; by left.
  destruct (overloaded (len ht0) (Z.of_nat (length (table ht0)))) eqn:Ho.
  2:{ destruct (insert_retry_nogrow _ Equal _ _ fuel ht0 L k v h0 Hwf0 Hne0 Hk)
         as (ht1 & L' & r1 & Heq & _ & Hlen' & _); [done|].
      rewrite Heq in Hins. simplify_eq. by left. }
  rewrite insert_retry_unfold in Hins. cbv zeta in Hins. fold c in Hins.
  rewrite Hp in Hins. simpl in Hins. rewrite Hs, Ho in Hins.
  destruct fuel as [|f]; [lia|].
  change (insert_with Hash nilK nilV (insert_retry f)) with (insert f) in Hins.
  destruct (grow_spec _ Equal _ _ f ht0 L Hwf0 Hne0 Hfr Hic)
    as (ht1 & L1 & Hg & Hwf1 & Hlen1 & Hfr1 & Hic1 & Href & HL1).
  rewrite Hg in Hins. simpl in Hins.
  assert (Hne1 : table ht1 ≠ []).
  { intros Ht. apply (f_equal length) in Ht. rewrite Hlen1 in Ht.
    destruct (table ht0); [done|simpl in Ht; lia]. }
  destruct (insert_retry_nogrow _ Equal _ _ f ht1 L1 k v h0 Hwf1 Hne1 Hk)
    as (ht2 & L' & r2 & Heq & _ & Hlen' & _).
  { intros _ _ _ _. rewrite (wf_len _ _ _ _ _ Hwf1), Hlen1, Nat2Z.inj_mul.
    assert (1 ≤ length (table ht0)) by (destruct (table ht0); [done|simpl; lia]).
    pose proof (load_ok_roomy _ _ (wf_load _ _ _ _ _ Hwf0) H (length L1)) as Hr.
    rewrite Nat2Z.inj_mul in Hr. apply Hr. lia. }
  rewrite Heq in Hins. simplify_eq. right. congruence.
Qed.

Lemma init_one ht :
  init ht 1 = Returns (with_tailLink (with_table ht (make_table 1)) (Some LinkHead)).
Proof. reflexivity. Qed.

Lemma insert_length fuel ht L k v ht' r :
  wf ht L → 1 ≤ fuel → insert fuel ht k v = Returns (ht', r) →
  length (table ht') = length (table ht)
  ∨ length (table ht') = 2 * length (table ht)
  ∨ (table ht = [] ∧ (length (table ht') = 1 ∨ length (table ht') = 2)).
Proof.
  intros Hwf Hfuel Hins.
  unfold hashtable.insert, hashtable.insert_with in Hins.
  destruct (frozen ht) eqn:Hfr; [left; by simplify_eq|].
  destruct (0 <? itercount ht)%Z eqn:Hic; [left; by simplify_eq|].
  destruct (ensure_table _ _ _ ht L Hwf)
    as (ht0 & Hens & Hwf0 & Hne0 & Hfr0 & Hic0 & _ & _ & Hsame & _).
  assert (Hlen0 : length (table ht0) = length (table ht)
                  ∨ (table ht = [] ∧ length (table ht0) = 1)).
  { destruct (table ht) as [|c0 t0] eqn:Ht.
    - right. split; [done|]. rewrite init_one in Hens. by simplify_eq.
    - left. rewrite Hsame by done. by rewrite Ht. }
  rewrite Hens in Hins. simpl in Hins.
  destruct (Hash k) as [h0|err] eqn:Hk.
  - change (if (h0 =? 0)%Z then 1%Z else h0) with (norm h0) in Hins.
    destruct (insert_retry_length fuel ht0 L k v h0 ht' r) as [Hl|Hl];
      try done; try congruence.
    + destruct Hlen0 as [Hl0|[Hnil Hl0]]; [left; congruence|].
      right. right. split; [done|]. left. congruence.
    + destruct Hlen0 as [Hl0|[Hnil Hl0]]; [right; left; congruence|].
      right. right. split; [done|]. right. by rewrite Hl, Hl0.
  - simplify_eq. destruct Hlen0 as [Hl0|[Hnil Hl0]]; [by left|].
    right. right. split; [done|]. by left.
Qed.

Lemma reachable_pow2 ht :
  reachable ht → table ht = [] ∨ ∃ n, length (table ht) = 2 ^ n.
Proof.
  induction 1 as [ht Hf|fuel ht k v ht' r Hr IH Hfuel Hins
                 |ht k ht' out _ IH Hdel|ht _ IH
                 |ht ht' log _ IH Hfz|ht _ IH|ht _ IH].
  - destruct Hf as [->|(size & _ & Hinit)]; [by left|].
    destruct (Z.ltb_spec size 0) as [Hs|Hs].
    { unfold hashtable.init in Hinit.
      by destruct (Z.ltb_spec size 0) as [|]; [|lia]. }
    destruct (init_least hashtable.zero size Hs) as (n & Hn & _).
    rewrite Hn in Hinit. simplify_eq.
    right. exists n. simpl. apply length_make_table.
  - destruct (reachable_wf _ _ _ _ _ _ Hr) as [L Hwf].
    destruct (insert_length fuel ht L k v ht' r Hwf Hfuel Hins)
      as [Hl|[Hl|[Hnil [Hl|Hl]]]].
    + destruct IH as [Ht|[n Hn]].
      * left. rewrite Ht in Hl. by destruct (table ht').
      * right. exists n. congruence.
    + destruct IH as [Ht|[n Hn]].
      * left. rewrite Ht in Hl. by destruct (table ht').
      * right. exists (S n). rewrite Hl, Hn. by rewrite Nat.pow_succ_r'.
    + right. by exists 0.
    + right. by exists 1.
  - apply delete_length in Hdel. destruct IH as [Ht|[n Hn]].
    + left. rewrite Ht in Hdel. by destruct (table ht').
    + right. exists n. congruence.
  - unfold hashtable.clear. destruct (frozen ht); [done|].
    destruct (0 <? itercount ht)%Z; [done|]. simpl.
    destruct IH as [->|[n Hn]]; [by left|]. right. exists n.
    by rewrite length_map.
  - unfold hashtable.freeze in Hfz. destruct (frozen ht); [by simplify_eq|].
    destruct (list_entries ht); simplify_eq/=. done.
  - unfold hashtable.iterate. simpl. by destruct (frozen ht).
  - unfold hashtable.Done. by destruct (frozen ht).
Qed.

Lemma mask_mod (n : nat) (h : Z) :
  (0 ≤ h < 2 ^ 32)%Z →
  Z.land h (u32 (Z.of_nat (2 ^ n) - 1)) = (h mod 2 ^ Z.of_nat n)%Z.
Proof.
  intros Hh. rewrite Nat2Z.inj_pow. change (Z.of_nat 2) with 2%Z.
  destruct (decide (n < 32)) as [Hn|Hn].
  - rewrite u32_small.
    + rewrite <- Z.land_ones by lia. f_equal. rewrite Z.ones_equiv. lia.
    + assert (2 ^ Z.of_nat n ≤ 2 ^ 31)%Z by (apply Z.pow_le_mono_r; lia).
      assert (0 < 2 ^ Z.of_nat n)%Z by (apply Z.pow_pos_nonneg; lia). lia.
  - assert (u32 (2 ^ Z.of_nat n - 1) = Z.ones 32) as ->.
    { unfold u32. replace (Z.of_nat n) with (32 + (Z.of_nat n - 32))%Z by lia.
      rewrite Z.pow_add_r by lia.
      assert (0 < 2 ^ (Z.of_nat n - 32))%Z by (apply Z.pow_pos_nonneg; lia).
      replace (2 ^ 32 * 2 ^ (Z.of_nat n - 32) - 1)%Z
        with ((2 ^ 32 - 1) + (2 ^ (Z.of_nat n - 32) - 1) * 2 ^ 32)%Z by lia.
      rewrite Z.mod_add by lia. by rewrite Z.mod_small by lia. }
    rewrite Z.land_ones by lia.
    assert (2 ^ 32 ≤ 2 ^ Z.of_nat n)%Z by (apply Z.pow_le_mono_r; lia).
    rewrite !Z.mod_small; lia.
Qed.

(** X10. On every table that the operations build the number of
    buckets is zero or a power of two, and the bucket of a hash is the
    hash modulo that number. *)
Theorem buckets_power_of_two ht :
  reachable ht →
  table ht = []
  ∨ ∃ n, length (table ht) = 2 ^ n
      ∧ ∀ h, (0 ≤ h < 2 ^ 32)%Z →
             slot_index (table ht) h = Z.to_nat (h mod 2 ^ Z.of_nat n).
Proof.
  intros [Ht|[n Hn]]%reachable_pow2; [by left|]. right. exists n.
  split; [done|]. intros h Hh. unfold slot_index. rewrite Hn.
  by rewrite mask_mod.
Qed.

(** *** Keys with a lawful equality *)

Section Lawful.
Variable eqv : K → K → bool.
Hypothesis Equal_eqv :
  ∀ k k', hashable k → hashable k' → Equal k k' = Ok (eqv k k').
Hypothesis eqv_sym : ∀ k k', eqv k k' = eqv k' k.
Hypothesis eqv_trans :
  ∀ k1 k2 k3, eqv k1 k2 = true → eqv k2 k3 = true → eqv k1 k3 = true.
Hypothesis eqv_hash :
  ∀ k k', hashable k → hashable k' → eqv k k' = true → Hash k = Hash k'.

Abbreviation run := (run Hash Equal nilK nilV None_).
Abbreviation good := (good Hash eqv).
Abbreviation distinct := (distinct (V:=V) eqv).
Abbreviation alookup := (alookup (V:=V) eqv).
Abbreviation adelete := (adelete (V:=V) eqv).
Abbreviation fresh_in := (fresh_in (V:=V) eqv).

Implicit Types (l : list (K * V)).

(** The pairs whose key is not [k]. *)
Definition without (k : K) (l : list (K * V)) : list (K * V) :=
  filter (λ p, eqv k p.1 = false) l.

Lemma without_fresh l k : fresh_in l k → without k l = l.
Proof.
  unfold without. induction l as [|[k0 v0] l IH]; intros Hf; [done|].
  rewrite filter_cons_True.
  - f_equal. apply IH. intros k' v' Hin. apply (Hf k' v').
    apply elem_of_cons. by right.
  - simpl. apply (Hf k0 v0). apply elem_of_cons. by left.
Qed.

Lemma adelete_without l k : distinct l → adelete l k = without k l.
Proof.
  induction l as [|[k0 v0] l IH]; [done|].
  intros [Hf Hd]. simpl. unfold without. destruct (eqv k k0) eqn:HE.
  - rewrite filter_cons_False by (simpl; congruence).
    symmetry. apply without_fresh. intros k' v' Hin.
    destruct (eqv k k') eqn:HE'; [|done].
    rewrite eqv_sym in HE. pose proof (eqv_trans _ _ _ HE HE') as H0.
    by rewrite (Hf k' v' Hin) in H0.
  - rewrite filter_cons_True by done. f_equal. by apply IH.
Qed.

(** The tables that the operations build from keys that can be hashed. *)
Lemma run_good fuel ops ht0 ht errs :
  1 ≤ fuel → fresh ht0 → Forall (λ o, hashable (op_key o)) ops →
  run fuel ops ht0 = Returns (ht, errs) →
  ∃ L, wf ht L ∧ good (kvs (table ht) L)
    ∧ frozen ht = false ∧ (0 <? itercount ht)%Z = false.
Proof.
  intros Hfuel Hf Hops Hrun.
  apply (fresh_wf Hash) in Hf as (Hwf0 & Hfr0 & Hic0).
  destruct (run_refines Hash Equal nilK nilV None_ eqv Equal_eqv eqv_sym
              eqv_trans eqv_hash fuel ops ht0 [] Hwf0 (good_nil _ _) Hfr0 Hic0
              Hops Hfuel)
    as (ht' & L' & errs' & Hrun' & _ & Hwf' & _ & Hg & Hfr & Hic).
  rewrite Hrun in Hrun'. simplify_eq. by exists L'.
Qed.

(** X4. On a table built by insertions and deletions of hashable keys,
    [delete] of a hashable key returns the value that the table has for
    it, with true, or [None] with false when it has none; afterwards the
    table has the other pairs, in the order they had, and [len] is
    their number.  Without the key the table stays as it is. *)
Theorem delete_removes_one fuel ops ht0 ht errs k :
  1 ≤ fuel → fresh ht0 → Forall (λ o, hashable (op_key o)) ops →
  run fuel ops ht0 = Returns (ht, errs) → hashable k →
  ∃ l ht',
    contents ht = Returns l
    ∧ delete ht k
      = Returns (ht', match alookup l k with
                      | Some v => (v, true, None)
                      | None => (None_, false, None)
                      end)
    ∧ contents ht' = Returns (without k l)
    ∧ len ht' = u32 (Z.of_nat (length (without k l)))
    ∧ (alookup l k = None → ht' = ht).
Proof.
  intros Hfuel Hf Hops Hrun Hk.
  destruct (run_good fuel ops ht0 ht errs Hfuel Hf Hops Hrun)
    as (L & Hwf & Hg & Hfr & Hic).
  destruct (delete_spec _ Equal _ _ None_ ht L k Hwf Hfr Hic Hk)
    as (ht' & L' & res & err & Hdel & Hwf' & _ & _ & Hrel & Hkv & Hsame).
  destruct (find_rel_det Hash Equal eqv Equal_eqv eqv_sym eqv_trans eqv_hash
              _ _ _ _ Hg Hk Hrel) as (-> & Hlook & Hadel).
  rewrite <- Hadel in Hkv. rewrite (adelete_without _ _ (proj1 Hg)) in Hkv.
  exists (kvs (table ht) L), ht'. split_and!.
  - apply contents_linked, (wf_linked _ _ _ _ _ Hwf).
  - rewrite Hdel, Hlook. by destruct res as [[[i k'] v']|].
  - rewrite <- Hkv. apply contents_linked, (wf_linked _ _ _ _ _ Hwf').
  - rewrite <- Hkv, length_kvs. apply (wf_len _ _ _ _ _ Hwf').
  - rewrite Hlook. destruct res; [done|]. intros _. by apply Hsame.
Qed.

(** X9. [grow] on a table built by insertions and deletions of hashable
    keys, with buckets: the number of buckets doubles, and the pairs,
    their order, [len] and the result of every lookup of a hashable key
    stay what they were. *)
Theorem grow_keeps_pairs fuel fuel' ops ht0 ht errs :
  1 ≤ fuel → fresh ht0 → Forall (λ o, hashable (op_key o)) ops →
  run fuel ops ht0 = Returns (ht, errs) → table ht ≠ [] →
  ∃ ht', grow fuel' ht = Returns ht'
    ∧ length (table ht') = 2 * length (table ht)
    ∧ contents ht' = contents ht
    ∧ keys ht' = keys ht
    ∧ len ht' = len ht
    ∧ (∀ k, hashable k → lookup ht' k = lookup ht k).
Proof.
  intros Hfuel Hf Hops Hrun Hne.
  destruct (run_good fuel ops ht0 ht errs Hfuel Hf Hops Hrun)
    as (L & Hwf & Hg & Hfr & Hic).
  destruct (grow_spec _ Equal _ _ fuel' ht L Hwf Hne Hfr Hic)
    as (ht1 & L1 & Hgrow & Hwf1 & Hlen1 & _ & _ & Href & _).
  apply (refold_good Hash Equal eqv Equal_eqv eqv_sym eqv_trans eqv_hash) in Href;
    [|done].
  simpl in Href. exists ht1. split_and!.
  - exact Hgrow.
  - done.
  - rewrite (contents_linked _ _ _ _ (wf_linked _ _ _ _ _ Hwf)).
    rewrite (contents_linked _ _ _ _ (wf_linked _ _ _ _ _ Hwf1)).
    by rewrite Href.
  - rewrite (keys_linked _ _ _ _ (wf_linked _ _ _ _ _ Hwf)).
    rewrite (keys_linked _ _ _ _ (wf_linked _ _ _ _ _ Hwf1)).
    by rewrite Href.
  - apply (wf_same_length _ _ _ ht ht1 L L1 Hwf Hwf1). by rewrite Href.
  - intros k Hk.
    rewrite (lookup_refines Hash Equal nilK nilV None_ eqv Equal_eqv eqv_sym
               eqv_trans eqv_hash ht1 L1 k Hwf1) by (by rewrite ?Href).
    rewrite (lookup_refines Hash Equal nilK nilV None_ eqv Equal_eqv eqv_sym
               eqv_trans eqv_hash ht L k Hwf) by done.
    by rewrite Href.
Qed.

End Lawful.

End More.

End table_more.


(** * The table on integer keys: further examples *)

Module table_more_examples.
Import hashtable table_facts table_examples table_more.

Abbreviation reachable := (table_facts.reachable KHash KEqual 0%Z 0%Z (-1)%Z).
Abbreviation first := (hashtable.first (K:=Z) (-1)%Z).
Abbreviation grow := (hashtable.grow KHash KEqual 0%Z 0%Z).
Abbreviation run := (table_facts.run KHash KEqual 0%Z 0%Z (-1)%Z).

Lemma len_counts_entries_witness :
  ∃ l, contents one_pair = Returns l
    ∧ keys one_pair = Returns l.*1
    ∧ len one_pair = u32 (Z.of_nat (length l))
    ∧ ((Z.of_nat (length l) < 2 ^ 31)%Z → items one_pair = Returns l).
Proof.
  apply (len_counts_entries KHash KEqual 0%Z 0%Z (-1)%Z one_pair).
  exact one_pair_reachable.
Defined.

Lemma iterator_yields_keys_witness :
  ∃ ks it_end,
    keys one_pair = Returns ks
    ∧ (∀ n, length ks ≤ n →
         drain n (iterate one_pair).1 (iterate one_pair).2 = Returns (ks, it_end))
    ∧ Next (iterate one_pair).1 it_end = Returns (it_end, None).
Proof.
  apply (iterator_yields_keys KHash KEqual 0%Z 0%Z (-1)%Z one_pair).
  exact one_pair_reachable.
Defined.

Lemma first_is_first_key_witness :
  ∃ ks, keys one_pair = Returns ks
    ∧ first one_pair = Returns (match ks with
                                | [] => inl (-1)%Z
                                | k :: _ => inr k
                                end).
Proof.
  apply (first_is_first_key KHash KEqual 0%Z 0%Z (-1)%Z one_pair).
  exact one_pair_reachable.
Defined.

Lemma freeze_freezes_all_witness :
  ∃ l, contents one_pair = Returns l
    ∧ freeze one_pair
      = Returns (with_frozen one_pair true,
                 flat_map (λ p, [FreezeKey p.1; FreezeValue p.2]) l).
Proof.
  apply (freeze_freezes_all KHash KEqual 0%Z 0%Z (-1)%Z one_pair).
  - exact one_pair_reachable.
  - reflexivity.
Defined.

Lemma clear_empties_witness :
  ∃ ht', clear one_pair = (ht', None)
    ∧ reachable ht'
    ∧ contents ht' = Returns []
    ∧ keys ht' = Returns []
    ∧ len ht' = 0%Z
    ∧ length (table ht') = length (table one_pair)
    ∧ (∀ k, hashable KHash k → lookup ht' k = Returns ((-1)%Z, false, None)).
Proof.
  apply (clear_empties KHash KEqual 0%Z 0%Z (-1)%Z one_pair).
  - exact one_pair_reachable.
  - reflexivity.
  - reflexivity.
Defined.

Lemma unhashable_key_witness :
  lookup one_pair (-3)%Z = Returns (0%Z, false, Some "unhashable: negative"%string)
  ∧ (∃ ht', insert 1 one_pair (-3)%Z 7%Z
            = Returns (ht', Some "unhashable: negative"%string)
       ∧ contents ht' = contents one_pair ∧ len ht' = len one_pair)
  ∧ delete one_pair (-3)%Z
    = Returns (one_pair, match table one_pair with
                         | [] => ((-1)%Z, false, None)
                         | _ => (0%Z, false, Some "unhashable: negative"%string)
                         end).
Proof.
  apply (unhashable_key KHash KEqual 0%Z 0%Z (-1)%Z 1 one_pair (-3)%Z 7%Z).
  - exact one_pair_reachable.
  - reflexivity.
  - reflexivity.
  - reflexivity.
  - lia.
Defined.

Lemma buckets_power_of_two_witness :
  table one_pair = []
  ∨ ∃ n, length (table one_pair) = 2 ^ n
      ∧ ∀ h, (0 ≤ h < 2 ^ 32)%Z →
             slot_index (table one_pair) h = Z.to_nat (h mod 2 ^ Z.of_nat n).
Proof.
  apply (buckets_power_of_two KHash KEqual 0%Z 0%Z (-1)%Z one_pair).
  exact one_pair_reachable.
Defined.

(** The table after [some_ops]. *)
Definition some_table : @hashtable.hashtable Z Z :=
  match run 1 some_ops zero with
  | Returns (ht, _) => ht
  | _ => zero
  end.

Lemma some_table_run :
  run 1 some_ops zero = Returns (some_table, replicate 23 None).
Proof. vm_compute. reflexivity. Qed.

Lemma delete_removes_one_witness :
  ∃ l ht',
    contents some_table = Returns l
    ∧ delete some_table 12%Z
      = Returns (ht', match alookup Z.eqb l 12%Z with
                      | Some v => (v, true, None)
                      | None => ((-1)%Z, false, None)
                      end)
    ∧ contents ht' = Returns (without Z.eqb 12%Z l)
    ∧ len ht' = u32 (Z.of_nat (length (without Z.eqb 12%Z l)))
    ∧ (alookup Z.eqb l 12%Z = None → ht' = some_table).
Proof.
  apply (delete_removes_one KHash KEqual 0%Z 0%Z (-1)%Z Z.eqb
           KEqual_eqv Z.eqb_sym Zeqb_trans KHash_eqv
           1 some_ops zero some_table (replicate 23 None) 12%Z).
  - lia.
  - by left.
  - exact some_ops_hashable.
  - exact some_table_run.
  - by eexists.
Defined.

Lemma grow_keeps_pairs_witness :
  ∃ ht', grow 0 some_table = Returns ht'
    ∧ length (table ht') = 2 * length (table some_table)
    ∧ contents ht' = contents some_table
    ∧ keys ht' = keys some_table
    ∧ len ht' = len some_table
    ∧ (∀ k, hashable KHash k → lookup ht' k = lookup some_table k).
Proof.
  apply (grow_keeps_pairs KHash KEqual 0%Z 0%Z (-1)%Z Z.eqb
           KEqual_eqv Z.eqb_sym Zeqb_trans KHash_eqv
           1 0 some_ops zero some_table (replicate 23 None)).
  - lia.
  - by left.
  - exact some_ops_hashable.
  - exact some_table_run.
  - vm_compute. discriminate.
Defined.


End table_more_examples.


(** * Structs: attributes, dictionaries, printing and comparison *)

Module struct_more.
Import hashtable table_facts struct_facts.

(** ** The slots of a table *)

Section Cells.
Context {K V : Type}.
Variable nilK : K.
Variable nilV : V.

Abbreviation entry := (@hashtable.entry K V).
Abbreviation linked := (table_facts.linked nilK nilV).
Abbreviation entry_at := (table_facts.entry_at nilK nilV).
Abbreviation kvs := (table_facts.kvs nilK nilV).

(** The slots of the buckets, chain by chain, with their addresses:
    the order in which a loop over the table meets them. *)
Fixpoint bucket_cells (c b s : nat) (es : list entry) : list (addr * entry) :=
  match es with
  | [] => []
  | e :: es' => (Addr c b s, e) :: bucket_cells c b (S s) es'
  end.

Fixpoint chain_cells (c b : nat) (bs : list (list entry)) : list (addr * entry) :=
  match bs with
  | [] => []
  | es :: bs' => bucket_cells c b 0 es ++ chain_cells c (S b) bs'
  end.

Fixpoint table_cells (c : nat) (t : list (list (list entry)))
  : list (addr * entry) :=
  match t with
  | [] => []
  | ch :: t' => chain_cells c 0 ch ++ table_cells (S c) t'
  end.

Lemma elem_of_bucket_cells c b es : ∀ s a e,
  (a, e) ∈ bucket_cells c b s es ↔ ∃ i, a = Addr c b (s + i) ∧ es !! i = Some e.
Proof.
  induction es as [|e0 es IH]; intros s a e; simpl.
  { split; [by intros ?%elem_of_nil|by intros (i & _ & ?)]. }
  rewrite elem_of_cons, IH. split.
  - intros [[= -> ->]|(i & -> & Hi)].
    + exists 0. by rewrite Nat.add_0_r.
    + exists (S i). by rewrite Nat.add_succ_r.
  - intros ([|i] & -> & Hi); simplify_eq/=.
    + left. by rewrite Nat.add_0_r.
    + right. exists i. by rewrite Nat.add_succ_r.
Qed.

Lemma elem_of_chain_cells c bs : ∀ b a e,
  (a, e) ∈ chain_cells c b bs
  ↔ ∃ j i es, a = Addr c (b + j) i ∧ bs !! j = Some es ∧ es !! i = Some e.
Proof.
  induction bs as [|es0 bs IH]; intros b a e; simpl.
  { split; [by intros ?%elem_of_nil|by intros (j & i & es & _ & ? & _)]. }
  rewrite elem_of_app, IH, elem_of_bucket_cells. split.
  - intros [(i & -> & Hi)|(j & i & es & -> & Hj & Hi)].
    + exists 0, i, es0. by rewrite Nat.add_0_r.
    + exists (S j), i, es. by rewrite Nat.add_succ_r.
  - intros ([|j] & i & es & -> & Hj & Hi); simplify_eq/=.
    + left. exists i. by rewrite Nat.add_0_r.
    + right. exists j, i, es. by rewrite Nat.add_succ_r.
Qed.

Lemma elem_of_table_cells t : ∀ c a e,
  (a, e) ∈ table_cells c t
  ↔ ∃ n j i ch es, a = Addr (c + n) j i ∧ t !! n = Some ch
      ∧ ch !! j = Some es ∧ es !! i = Some e.
Proof.
  induction t as [|ch0 t IH]; intros c a e; simpl.
  { split; [by intros ?%elem_of_nil|by intros (n & j & i & ch & es & _ & ? & _)]. }
  rewrite elem_of_app, IH, elem_of_chain_cells. split.
  - intros [(j & i & es & -> & Hj & Hi)|(n & j & i & ch & es & -> & Hn & Hj & Hi)].
    + exists 0, j, i, ch0, es. by rewrite Nat.add_0_r.
    + exists (S n), j, i, ch, es. by rewrite Nat.add_succ_r.
  - intros ([|n] & j & i & ch & es & -> & Hn & Hj & Hi); simplify_eq/=.
    + left. exists j, i, es. by rewrite Nat.add_0_r.
    + right. exists n, j, i, ch, es. by rewrite Nat.add_succ_r.
Qed.

Lemma table_cells_get t a e : (a, e) ∈ table_cells 0 t ↔ get t a = Some e.
Proof.
  rewrite get_Some, elem_of_table_cells. split.
  - intros (n & j & i & ch & es & -> & Hn & Hj & Hi). by exists ch, es.
  - intros (ch & es & Hn & Hj & Hi). destruct a as [c b i]. simpl in *.
    by exists c, b, i, ch, es.
Qed.

Lemma NoDup_bucket_cells c b es : ∀ s, NoDup (bucket_cells c b s es).*1.
Proof.
  induction es as [|e0 es IH]; intros s; csimpl; constructor; [|apply IH].
  intros ([a e] & Heq & Hin)%list_elem_of_fmap. simpl in Heq. subst a.
  apply elem_of_bucket_cells in Hin as (i & Heq & _). injection Heq. lia.
Qed.

Lemma NoDup_chain_cells c bs : ∀ b, NoDup (chain_cells c b bs).*1.
Proof.
  induction bs as [|es0 bs IH]; intros b; csimpl; [constructor|].
  rewrite fmap_app. apply NoDup_app. split_and!.
  - apply NoDup_bucket_cells.
  - intros a ([a1 e1] & Heq1 & Hin1)%list_elem_of_fmap
             ([a2 e2] & Heq2 & Hin2)%list_elem_of_fmap.
    simpl in *. subst a1 a2.
    apply elem_of_bucket_cells in Hin1 as (i & -> & _).
    apply elem_of_chain_cells in Hin2 as (j & i' & es & Heq & _).
    injection Heq. lia.
  - apply IH.
Qed.

Lemma NoDup_table_cells t : ∀ c, NoDup (table_cells c t).*1.
Proof.
  induction t as [|ch0 t IH]; intros c; csimpl; [constructor|].
  rewrite fmap_app. apply NoDup_app. split_and!.
  - apply NoDup_chain_cells.
  - intros a ([a1 e1] & Heq1 & Hin1)%list_elem_of_fmap
             ([a2 e2] & Heq2 & Hin2)%list_elem_of_fmap.
    simpl in *. subst a1 a2.
    apply elem_of_chain_cells in Hin1 as (j & i & es & -> & _).
    apply elem_of_table_cells in Hin2 as (n & j' & i' & ch & es' & Heq & _).
    injection Heq. lia.
  - apply IH.
Qed.

(** A slot in use. *)
Definition used (p : addr * entry) : Prop := hash p.2 ≠ 0%Z.

#[local] Instance used_dec p : Decision (used p).
Proof. unfold used. apply _. Defined.

Lemma NoDup_filter_fst (l : list (addr * entry)) :
  NoDup l.*1 → NoDup (filter used l).*1.
Proof.
  induction l as [|p l IH]; csimpl; [done|]. intros [Hp Hl]%NoDup_cons.
  rewrite filter_cons. destruct (decide (used p)); csimpl; [|by apply IH].
  constructor; [|by apply IH].
  intros (q & Heq & Hin%list_elem_of_filter)%list_elem_of_fmap.
  apply Hp, list_elem_of_fmap. exists q. by destruct Hin.
Qed.

(** What the loop of [freeze] over the buckets collects. *)
Definition values_in_use (t : list (list (list entry))) : list V :=
  flat_map (λ c : list (list entry),
    flat_map (λ b : list entry,
      flat_map (λ e : entry,
        if negb (hash e =? 0)%Z then [value e] else []) b) c) t.

Lemma values_of_bucket c b es : ∀ s,
  flat_map (λ e : entry, if negb (hash e =? 0)%Z then [value e] else []) es
  = (λ p, value p.2) <$> filter used (bucket_cells c b s es).
Proof.
  induction es as [|e0 es IH]; intros s; simpl; [done|].
  rewrite filter_cons, (IH (S s)). unfold used at 1. simpl.
  destruct (Z.eqb_spec (hash e0) 0); destruct (decide _); simpl;
    done || contradiction.
Qed.

Lemma values_of_chain c bs : ∀ b,
  flat_map (λ b : list entry,
    flat_map (λ e : entry, if negb (hash e =? 0)%Z then [value e] else []) b) bs
  = (λ p, value p.2) <$> filter used (chain_cells c b bs).
Proof.
  induction bs as [|es0 bs IH]; intros b; simpl; [done|].
  by rewrite filter_app, fmap_app, (IH (S b)), (values_of_bucket c b es0 0).
Qed.

Lemma values_of_table t : ∀ c,
  values_in_use t = (λ p, value p.2) <$> filter used (table_cells c t).
Proof.
  unfold values_in_use.
  induction t as [|ch0 t IH]; intros c; simpl; [done|].
  by rewrite filter_app, fmap_app, (IH (S c)), (values_of_chain c ch0 0).
Qed.

(** The loop over the buckets meets the value of every pair of the
    list once. *)
Lemma values_in_use_linked t hd L :
  linked t hd L → values_in_use t ≡ₚ (kvs t L).*2.
Proof.
  intros HL. rewrite (values_of_table t 0).
  set (A := filter used (table_cells 0 t)).
  assert ((λ p : addr * entry, value p.2) <$> A
          = (λ a, value (entry_at t a)) <$> A.*1) as ->.
  { rewrite <- list_fmap_compose. apply Forall_fmap_ext, Forall_forall.
    intros [a e] [_ Hin%table_cells_get]%list_elem_of_filter. simpl.
    unfold table_facts.entry_at. by rewrite Hin. }
  assert ((kvs t L).*2 = (λ a, value (entry_at t a)) <$> L) as ->.
  { unfold table_facts.kvs. by rewrite <- list_fmap_compose. }
  apply fmap_Permutation, NoDup_Permutation.
  - apply NoDup_filter_fst, NoDup_table_cells.
  - apply (linked_nodup _ _ _ _ _ HL).
  - intros a. split.
    + intros ([a' e] & -> & [Hu Hin%table_cells_get]%list_elem_of_filter)%list_elem_of_fmap.
      by apply (linked_used _ _ _ _ _ HL a' e).
    + intros [i Hi]%list_elem_of_lookup.
      destruct (linked_entry _ _ _ _ _ HL _ _ Hi) as (e & He & Hh & _).
      apply list_elem_of_fmap. exists (a, e). split; [done|].
      apply list_elem_of_filter. split; [done|]. by apply table_cells_get.
Qed.

End Cells.

(** ** Dictionaries *)

Section Dicts.
Context {Value : Type}.
Implicit Types (d : starlarkstruct.StringDict Value) (k : string) (v : Value)
  (l : list (string * Value)).

Lemma sd_get_set d k v k' :
  starlarkstruct.sd_get (starlarkstruct.sd_set d k v) k'
  = if String.eqb k' k then Some v else starlarkstruct.sd_get d k'.
Proof.
  induction d as [|[k0 v0] d IH]; simpl.
  - by destruct (String.eqb k' k).
  - destruct (String.eqb_spec k k0) as [->|Hne]; simpl.
    + by destruct (String.eqb k' k0).
    + rewrite IH. destruct (String.eqb_spec k' k0) as [->|Hne']; [|done].
      destruct (String.eqb_spec k0 k) as [->|]; done.
Qed.

Lemma sd_get_None d k : starlarkstruct.sd_get d k = None ↔ k ∉ d.*1.
Proof.
  induction d as [|[k0 v0] d IH]; csimpl.
  - split; [intros _ ?%elem_of_nil; done|done].
  - rewrite not_elem_of_cons. destruct (String.eqb_spec k k0) as [->|Hne].
    + split; [done|]. by intros [? _].
    + rewrite IH. tauto.
Qed.

Lemma sd_get_Some d k v : starlarkstruct.sd_get d k = Some v → k ∈ d.*1.
Proof.
  induction d as [|[k0 v0] d IH]; csimpl; [done|].
  destruct (String.eqb_spec k k0) as [->|Hne]; intros H.
  - apply elem_of_cons. by left.
  - apply elem_of_cons. right. by apply IH.
Qed.

(** The value that the last of the pairs named [k] has. *)
Fixpoint last_of l k : option Value :=
  match l with
  | [] => None
  | (k0, v0) :: l' =>
      match last_of l' k with
      | Some v => Some v
      | None => if String.eqb k k0 then Some v0 else None
      end
  end.

Lemma last_of_distinct l k :
  distinct String.eqb l → last_of l k = alookup String.eqb l k.
Proof.
  induction l as [|[k0 v0] l IH]; [done|]. intros [Hf Hd]. simpl.
  rewrite IH by done. destruct (String.eqb_spec k k0) as [->|Hne].
  - by rewrite (proj1 (alookup_fresh String.eqb l k0 Hf)).
  - by destruct (alookup String.eqb l k).
Qed.

(** Assignments in a row: the last one to a key is the one that counts. *)
Lemma sd_get_foldl l : ∀ d k,
  starlarkstruct.sd_get
    (foldl (λ acc p, starlarkstruct.sd_set acc p.1 p.2) d l) k
  = match last_of l k with
    | Some v => Some v
    | None => starlarkstruct.sd_get d k
    end.
Proof.
  induction l as [|[k0 v0] l IH]; intros d k; [done|]. simpl.
  rewrite IH, sd_get_set. destruct (last_of l k); [done|].
  by destruct (String.eqb k k0).
Qed.

Lemma alookup_dict_pairs (nilValue : Value) d k :
  alookup String.eqb (dict_pairs nilValue d) k = starlarkstruct.sd_get d k.
Proof.
  destruct (starlarkstruct.sd_get d k) as [v|] eqn:Hget.
  - assert (Hin : k ∈ starlarkstruct.sd_Keys d).
    { apply elem_of_Keys. by eapply sd_get_Some. }
    unfold dict_pairs. induction (starlarkstruct.sd_Keys d) as [|k0 ks IH].
    { by apply elem_of_nil in Hin. }
    csimpl. destruct (String.eqb_spec k k0) as [<-|Hne].
    + by rewrite Hget.
    + apply IH. by apply elem_of_cons in Hin as [?|?].
  - assert (Hin : k ∉ starlarkstruct.sd_Keys d).
    { rewrite elem_of_Keys. by apply sd_get_None. }
    unfold dict_pairs. induction (starlarkstruct.sd_Keys d) as [|k0 ks IH]; [done|].
    csimpl. apply not_elem_of_cons in Hin as [Hne Hin].
    destruct (String.eqb_spec k k0) as [|_]; [done|]. by apply IH.
Qed.

End Dicts.

(** ** The methods of a struct *)

Section Methods.
Context {Value : Type}.
Variable ValueHash : Value → result Z.
Variable ValueEqual : Value → Value → result bool.
Variable EqualDepth : Value → Value → Z → result bool.
Variable ValueString : Value → string.
Variable StringHash : string → Z.
Variable is_nil : Value → bool.
Variable nilValue : Value.
Variable None_ : Value.
Variable as_struct : Value → option (@starlarkstruct.Struct Value).
Variable as_String : Value → option string.
Variable Default : Value.
Variable is_Default : Value → bool.

Abbreviation Struct := (@starlarkstruct.Struct Value).
Abbreviation table_t := (@hashtable.hashtable string Value).
Abbreviation entry_t := (@hashtable.entry string Value).
Abbreviation record := (struct_facts.record StringHash nilValue).
Abbreviation holds := (struct_facts.holds StringHash nilValue).
Abbreviation dict_pairs := (struct_facts.dict_pairs nilValue).
Abbreviation FromStringDict :=
  (starlarkstruct.FromStringDict StringHash is_nil nilValue).
Abbreviation FromKeywords :=
  (starlarkstruct.FromKeywords StringHash is_nil nilValue as_String).
Abbreviation Make :=
  (starlarkstruct.Make StringHash is_nil nilValue as_String Default).
Abbreviation Binary :=
  (starlarkstruct.Binary ValueEqual ValueString StringHash nilValue as_struct).
Abbreviation Hash := (starlarkstruct.Hash ValueHash StringHash).
Abbreviation hash_loop := (starlarkstruct.hash_loop ValueHash StringHash).
Abbreviation structsEqual :=
  (starlarkstruct.structsEqual ValueEqual EqualDepth ValueString).
Abbreviation equal_loop := (starlarkstruct.equal_loop (Value:=Value) EqualDepth).
Abbreviation CompareSameType :=
  (starlarkstruct.CompareSameType ValueEqual EqualDepth ValueString as_struct).
Abbreviation AttrNames := (@starlarkstruct.AttrNames Value).
Abbreviation Freeze := (@starlarkstruct.Freeze Value).
Abbreviation constructor := (@starlarkstruct.constructor Value).
Abbreviation ht := (@starlarkstruct.ht Value).
Abbreviation Attr :=
  (starlarkstruct.Attr ValueString StringHash nilValue None_ is_Default).
Abbreviation ToStringDict := (@starlarkstruct.ToStringDict Value).
Abbreviation String_ := (starlarkstruct.String_ ValueString is_Default).
Abbreviation AttrValue := (@starlarkstruct.AttrValue Value).
Abbreviation NoSuchAttrError := (@starlarkstruct.NoSuchAttrError Value).

Implicit Types (s x y : Struct) (t : table_t) (l : list (string * Value)).
Implicit Types (k name : string) (v c : Value).

(** The message of [Attr] for a name that is no field. *)
Definition no_attr (s : Struct) (name : string) : string :=
  ((if is_Default (constructor s) then "" else ValueString (constructor s) ++ " ")
   ++ "struct has no ." ++ name ++ " attribute")%string.

Lemma Attr_record s l name :
  record s l →
  Attr s name = Returns (match alookup String.eqb l name with
                         | Some v => AttrValue v
                         | None => NoSuchAttrError (no_attr s name)
                         end).
Proof.
  intros Hrec. unfold starlarkstruct.Attr.
  rewrite (record_lookup _ _ None_ _ _ name Hrec).
  by destruct (alookup String.eqb l name).
Qed.

Lemma alookup_Some_elem l k v :
  alookup String.eqb l k = Some v → (k, v) ∈ l.
Proof.
  induction l as [|[k0 v0] l IH]; simpl; [done|].
  destruct (String.eqb_spec k k0) as [->|Hne].
  - intros [= ->]. apply elem_of_cons. by left.
  - intros H. apply elem_of_cons. right. by apply IH.
Qed.

Lemma alookup_None_names l k :
  alookup String.eqb l k = None ↔ k ∉ l.*1.
Proof.
  induction l as [|[k0 v0] l IH]; csimpl.
  - split; [intros _ ?%elem_of_nil; done|done].
  - rewrite not_elem_of_cons. destruct (String.eqb_spec k k0) as [->|Hne].
    + split; [done|]. by intros [? _].
    + rewrite IH. split; [by intros ?|by intros [_ ?]].
Qed.

(** X11. On a struct whose fields ascend, [Attr] returns the value of
    the field for every name that [AttrNames] lists, and for every other
    name a [NoSuchAttrError] whose message gives the name, after the
    constructor when that is not [Default]; it never returns another
    error. *)
Theorem Attr_of_AttrNames s l :
  record s l →
  ∃ names, AttrNames s = Returns names
    ∧ (∀ name, name ∈ names →
         ∃ v, (name, v) ∈ l ∧ Attr s name = Returns (AttrValue v))
    ∧ (∀ name, name ∉ names →
         Attr s name = Returns (NoSuchAttrError (no_attr s name))).
Proof.
  intros Hrec. exists l.*1. split_and!.
  - by apply (record_AttrNames StringHash nilValue).
  - intros name Hin. rewrite (Attr_record s l name Hrec).
    destruct (alookup String.eqb l name) as [v|] eqn:Hl.
    + exists v. split; [by apply alookup_Some_elem|done].
    + by apply alookup_None_names in Hl.
  - intros name Hin. rewrite (Attr_record s l name Hrec).
    by rewrite (proj2 (alookup_None_names l name) Hin).
Qed.

Lemma ToStringDict_record s l d0 :
  record s l →
  ∃ d', ToStringDict s d0 = Returns d'
    ∧ ∀ k, starlarkstruct.sd_get d' k
           = match alookup String.eqb l k with
             | Some v => Some v
             | None => starlarkstruct.sd_get d0 k
             end.
Proof.
  intros [Hh Hasc]. destruct (holds_entries _ _ _ _ Hh) as (es & Hes & <-).
  unfold starlarkstruct.ToStringDict. rewrite Hes. simpl. eexists. split; [done|].
  intros k. rewrite <- (last_of_distinct (pairs es) k)
    by by apply ascending_distinct.
  rewrite <- (sd_get_foldl (pairs es) d0 k). f_equal.
  unfold pairs. clear. revert d0. induction es as [|e es IH]; intros d0; [done|].
  csimpl. by rewrite IH.
Qed.

(** X12. [FromStringDict] returns a struct with the constructor given;
    [Attr] returns for every key of the dictionary its value there, and a
    [NoSuchAttrError] for every other name; and [ToStringDict] into an
    empty dictionary gives back the bindings of the dictionary. *)
Theorem construct_round_trip fuel c (d : starlarkstruct.StringDict Value) :
  1 ≤ fuel → is_nil c = false →
  ∃ s, FromStringDict fuel c d = Returns s
    ∧ starlarkstruct.Constructor s = c
    ∧ (∀ k v, starlarkstruct.sd_get d k = Some v →
              Attr s k = Returns (AttrValue v))
    ∧ (∀ k, starlarkstruct.sd_get d k = None →
            Attr s k = Returns (NoSuchAttrError (no_attr s k)))
    ∧ ∃ d', ToStringDict s [] = Returns d'
         ∧ ∀ k, starlarkstruct.sd_get d' k = starlarkstruct.sd_get d k.
Proof.
  intros Hfuel Hc.
  destruct (FromStringDict_record StringHash is_nil nilValue fuel c d Hfuel Hc)
    as (s & Hs & Hctor & Hrec & _).
  exists s. split_and!; try done.
  - intros k v Hk. rewrite (Attr_record s _ k Hrec).
    by rewrite alookup_dict_pairs, Hk.
  - intros k Hk. rewrite (Attr_record s _ k Hrec).
    by rewrite alookup_dict_pairs, Hk.
  - destruct (ToStringDict_record s _ [] Hrec) as (d' & Hd' & Hget).
    exists d'. split; [done|]. intros k. rewrite Hget, alookup_dict_pairs.
    by destruct (starlarkstruct.sd_get d k).
Qed.

(** X13. [ToStringDict] on a struct whose fields ascend: the dictionary
    gets the value of every field under its name, and keeps the bindings
    of all other names. *)
Theorem ToStringDict_adds_fields s l (d0 : starlarkstruct.StringDict Value) :
  record s l →
  ∃ d', ToStringDict s d0 = Returns d'
    ∧ (∀ k v, (k, v) ∈ l → starlarkstruct.sd_get d' k = Some v)
    ∧ (∀ k, k ∉ l.*1 →
            starlarkstruct.sd_get d' k = starlarkstruct.sd_get d0 k).
Proof.
  intros Hrec. destruct (ToStringDict_record s l d0 Hrec) as (d' & Hd' & Hget).
  exists d'. split_and!; [done| |].
  - intros k v Hin. rewrite Hget.
    apply list_elem_of_lookup in Hin as [i Hi].
    destruct (alookup_found String.eqb String.eqb_sym
                struct_facts.eqb_trans l k i k v) as [-> _];
      [apply ascending_distinct, Hrec|done|apply String.eqb_refl|done].
  - intros k Hk. rewrite Hget.
    by rewrite (proj2 (alookup_None_names l k) Hk).
Qed.

(** *** Keyword arguments *)

(** The keyword arguments with their names as strings. *)
Definition named (kwargs : list (Value * Value)) (nvs : list (string * Value))
  : Prop :=
  Forall2 (λ kw nv, as_String kw.1 = Some nv.1 ∧ kw.2 = nv.2) kwargs nvs.

Lemma keywords_dict kwargs : ∀ nvs (d0 : list (string * Value)),
  named kwargs nvs →
  foldl (λ acc kw, d ← acc;
           k ← deref (as_String (fst kw));
           Returns (starlarkstruct.sd_set d k (snd kw)))
        (Returns d0) kwargs
  = Returns (foldl (λ acc p, starlarkstruct.sd_set acc p.1 p.2) d0 nvs).
Proof.
  induction kwargs as [|kw kwargs IH]; intros nvs d0 Hn.
  - by apply Forall2_nil_inv_l in Hn as ->.
  - apply Forall2_cons_inv_l in Hn as (nv & nvs' & [Hk Hv] & Hn & ->).
    simpl. rewrite Hk. simpl. rewrite Hv. by apply IH.
Qed.

Lemma keywords_panic kwargs : ∀ (d0 : list (string * Value)),
  Exists (λ kw, as_String kw.1 = None) kwargs →
  foldl (λ acc kw, d ← acc;
           k ← deref (as_String (fst kw));
           Returns (starlarkstruct.sd_set d k (snd kw)))
        (Returns d0) kwargs
  = Panics.
Proof.
  induction kwargs as [|kw kwargs IH]; intros d0 Hex.
  - by apply Exists_nil in Hex.
  - simpl. destruct (as_String kw.1) as [k|] eqn:Hk; simpl.
    + apply IH. apply Exists_cons in Hex as [Hex|Hex]; [congruence|done].
    + clear. induction kwargs as [|kw' kwargs IH']; [done|]. simpl. apply IH'.
Qed.

Lemma Make_nil fuel (kwargs : list (Value * Value)) :
  Make fuel [] kwargs = (s ← FromKeywords fuel Default kwargs; Returns (Ok s)).
Proof. reflexivity. Qed.

(** X14. [Make] rejects positional arguments with an error.  Without
    them it returns a struct with the constructor [Default] in which
    every name among the keyword arguments has the value of the last
    argument of that name, and other names are no fields; it panics when
    the name of a keyword argument is not a string. *)
Theorem Make_keywords fuel (args : list Value) (kwargs : list (Value * Value)) :
  1 ≤ fuel → is_nil Default = false →
  (args ≠ [] →
   Make fuel args kwargs
   = Returns (Err "struct: unexpected positional arguments"%string))
  ∧ (∀ nvs, named kwargs nvs →
       ∃ s, Make fuel [] kwargs = Returns (Ok s)
         ∧ FromKeywords fuel Default kwargs = Returns s
         ∧ constructor s = Default
         ∧ ∀ k, Attr s k
                = Returns (match last_of nvs k with
                           | Some v => AttrValue v
                           | None => NoSuchAttrError (no_attr s k)
                           end))
  ∧ (Exists (λ kw, as_String kw.1 = None) kwargs →
     Make fuel [] kwargs = Panics).
Proof.
  intros Hfuel Hnil. split_and!.
  - intros Hargs. unfold starlarkstruct.Make. by destruct args.
  - intros nvs Hn. rewrite Make_nil. unfold starlarkstruct.FromKeywords.
    rewrite Hnil.
    rewrite (keywords_dict kwargs nvs [] Hn). simpl.
    destruct (FromStringDict_record StringHash is_nil nilValue fuel Default
                (foldl (λ acc p, starlarkstruct.sd_set acc p.1 p.2) [] nvs)
                Hfuel Hnil) as (s & Hs & Hctor & Hrec & _).
    rewrite Hs. simpl. exists s. split_and!; try done.
    intros k. rewrite (Attr_record s _ k Hrec), alookup_dict_pairs.
    rewrite sd_get_foldl. by destruct (last_of nvs k).
  - intros Hex. rewrite Make_nil. unfold starlarkstruct.FromKeywords.
    rewrite Hnil. by rewrite (keywords_panic kwargs [] Hex).
Qed.

(** *** Merging *)

(** Fields in ascending order are determined by what a lookup finds. *)
Lemma ascending_alookup_eq l1 : ∀ l2,
  ascending l1.*1 → ascending l2.*1 →
  (∀ k, alookup String.eqb l1 k = alookup String.eqb l2 k) → l1 = l2.
Proof.
  induction l1 as [|[k1 v1] l1 IH]; intros [|[k2 v2] l2] H1 H2 Heq.
  - done.
  - specialize (Heq k2). simpl in Heq. by rewrite String.eqb_refl in Heq.
  - specialize (Heq k1). simpl in Heq. by rewrite String.eqb_refl in Heq.
  - csimpl in *. apply ascending_cons in H1 as [Hk1 H1].
    apply ascending_cons in H2 as [Hk2 H2].
    rewrite Forall_forall in Hk1, Hk2.
    assert (k1 = k2) as ->.
    { pose proof (Heq k1) as E1. pose proof (Heq k2) as E2. simpl in E1, E2.
      rewrite String.eqb_refl in E1, E2.
      destruct (String.eqb_spec k1 k2) as [|Hne]; [done|].
      destruct (String.eqb_spec k2 k1) as [|_]; [done|].
      symmetry in E1. apply alookup_Some_elem in E1, E2.
      assert (precedes k2 k1) as P21.
      { apply Hk2, list_elem_of_fmap. by exists (k1, v1). }
      assert (precedes k1 k2) as P12.
      { apply Hk1, list_elem_of_fmap. by exists (k2, v2). }
      pose proof (precedes_asym _ _ P12) as Hn. by rewrite P21 in Hn. }
    pose proof (Heq k2) as E. simpl in E. rewrite String.eqb_refl in E.
    simplify_eq. f_equal. apply IH; [done..|]. intros k.
    specialize (Heq k). simpl in Heq.
    destruct (String.eqb k k2) eqn:Hkk; [|done].
    apply String.eqb_eq in Hkk. subst k.
    rewrite (proj2 (alookup_None_names l1 k2)),
            (proj2 (alookup_None_names l2 k2)); [done| |].
    + intros Hin. specialize (Hk2 _ Hin). unfold precedes in Hk2.
      by rewrite str_lt_irrefl in Hk2.
    + intros Hin. specialize (Hk1 _ Hin). unfold precedes in Hk1.
      by rewrite str_lt_irrefl in Hk1.
Qed.

Lemma alookup_elem l k v :
  ascending l.*1 → (k, v) ∈ l → alookup String.eqb l k = Some v.
Proof.
  intros Hasc Hin. apply list_elem_of_lookup in Hin as [i Hi].
  destruct (alookup_found String.eqb String.eqb_sym struct_facts.eqb_trans
              l k i k v) as [-> _];
    [by apply ascending_distinct|done|apply String.eqb_refl|done].
Qed.

(** [x + y] for structs with constructors that compare equal. *)
Lemma Binary_merges fuel x yv y lx ly :
  1 ≤ fuel → as_struct yv = Some y → record x lx → record y ly →
  ValueEqual (constructor x) (constructor y) = Ok true →
  ∃ s l, Binary fuel x starlarkstruct.PLUS yv starlarkstruct.Left
         = Returns (starlarkstruct.BinValue s)
    ∧ constructor s = constructor x
    ∧ record s l
    ∧ (∀ k, alookup String.eqb l k
            = match alookup String.eqb ly k with
              | Some v => Some v
              | None => alookup String.eqb lx k
              end).
Proof.
  intros Hfuel Hy Hx Hry Hc. unfold starlarkstruct.Binary. rewrite Hy. simpl.
  rewrite Hc.
  destruct (merge_body StringHash nilValue fuel x y lx ly Hfuel Hx Hry)
    as (t & l & -> & Hrec & _ & _ & Hlook).
  by eexists _, l.
Qed.

(** X15. For structs x and y with ascending fields and constructors that
    compare equal: when x has every field of y with the same value,
    [x + y] has the fields of x; when y has every name of x, [x + y] has
    the fields of y.  So adding a struct without fields, on either side,
    or adding a struct to itself changes no field. *)
Theorem merge_absorbs fuel x yv y lx ly :
  1 ≤ fuel → as_struct yv = Some y → record x lx → record y ly →
  ValueEqual (constructor x) (constructor y) = Ok true →
  ∃ s l, Binary fuel x starlarkstruct.PLUS yv starlarkstruct.Left
         = Returns (starlarkstruct.BinValue s)
    ∧ record s l
    ∧ ((∀ k v, (k, v) ∈ ly → (k, v) ∈ lx) → l = lx)
    ∧ ((∀ k, k ∈ lx.*1 → k ∈ ly.*1) → l = ly)
    ∧ (ly = [] → l = lx) ∧ (lx = [] → l = ly) ∧ (lx = ly → l = lx).
Proof.
  intros Hfuel Hy Hx Hry Hc.
  destruct (Binary_merges fuel x yv y lx ly Hfuel Hy Hx Hry Hc)
    as (s & l & Hs & _ & Hrec & Hlook).
  assert (Hsub : (∀ k v, (k, v) ∈ ly → (k, v) ∈ lx) → l = lx).
  { intros Hin. apply ascending_alookup_eq; [apply Hrec|apply Hx|].
    intros k. rewrite Hlook.
    destruct (alookup String.eqb ly k) as [v|] eqn:Hl; [|done].
    symmetry. apply alookup_elem; [apply Hx|]. by apply Hin, alookup_Some_elem. }
  assert (Hsup : (∀ k, k ∈ lx.*1 → k ∈ ly.*1) → l = ly).
  { intros Hin. apply ascending_alookup_eq; [apply Hrec|apply Hry|].
    intros k. rewrite Hlook.
    destruct (alookup String.eqb ly k) as [v|] eqn:Hl; [done|].
    apply alookup_None_names. intros Hk. apply Hin in Hk.
    by apply alookup_None_names in Hl. }
  exists s, l. split_and!; try done.
  - intros ->. apply Hsub. by intros k v ?%elem_of_nil.
  - intros ->. apply Hsup. by intros k ?%elem_of_nil.
  - intros ->. by apply Hsub.
Qed.

(** X16. For structs x, y and z with ascending fields and constructors
    that compare equal, [(x + y) + z] and [x + (y + z)] are returned and
    have the same fields and the same constructor. *)
Theorem merge_associative fuel (wrap : Struct → Value) x y z yv zv lx ly lz :
  1 ≤ fuel → (∀ s, as_struct (wrap s) = Some s) →
  as_struct yv = Some y → as_struct zv = Some z →
  record x lx → record y ly → record z lz →
  ValueEqual (constructor x) (constructor y) = Ok true →
  ValueEqual (constructor y) (constructor z) = Ok true →
  ValueEqual (constructor x) (constructor z) = Ok true →
  ∃ xy yz s1 s2 l,
    Binary fuel x starlarkstruct.PLUS yv starlarkstruct.Left
    = Returns (starlarkstruct.BinValue xy)
    ∧ Binary fuel y starlarkstruct.PLUS zv starlarkstruct.Left
      = Returns (starlarkstruct.BinValue yz)
    ∧ Binary fuel xy starlarkstruct.PLUS zv starlarkstruct.Left
      = Returns (starlarkstruct.BinValue s1)
    ∧ Binary fuel x starlarkstruct.PLUS (wrap yz) starlarkstruct.Left
      = Returns (starlarkstruct.BinValue s2)
    ∧ record s1 l ∧ record s2 l
    ∧ constructor s1 = constructor s2.
Proof.
  intros Hfuel Hwrap Hy Hz Hx Hry Hrz Hxy Hyz Hxz.
  destruct (Binary_merges fuel x yv y lx ly Hfuel Hy Hx Hry Hxy)
    as (xy & lxy & Hs_xy & Hc_xy & Hr_xy & Hl_xy).
  destruct (Binary_merges fuel y zv z ly lz Hfuel Hz Hry Hrz Hyz)
    as (yz & lyz & Hs_yz & Hc_yz & Hr_yz & Hl_yz).
  destruct (Binary_merges fuel xy zv z lxy lz Hfuel Hz Hr_xy Hrz)
    as (s1 & l1 & Hs1 & Hc1 & Hr1 & Hl1); [by rewrite Hc_xy|].
  destruct (Binary_merges fuel x (wrap yz) yz lx lyz Hfuel (Hwrap yz) Hx Hr_yz)
    as (s2 & l2 & Hs2 & Hc2 & Hr2 & Hl2); [by rewrite Hc_yz|].
  assert (l2 = l1) as ->.
  { apply ascending_alookup_eq; [apply Hr2|apply Hr1|].
    intros k. rewrite Hl2, Hl1, Hl_yz, Hl_xy.
    by destruct (alookup String.eqb lz k), (alookup String.eqb ly k). }
  exists xy, yz, s1, s2, l1. split_and!; try done. congruence.
Qed.

(** *** Comparison *)

(** The values of two fields compare equal at the budget that
    [structsEqual] hands on. *)
Definition same_value (depth : Z) (a b : Value) : Prop :=
  EqualDepth a b (starlarkstruct.int (depth - 1)) = Ok true.

Lemma equal_loop_spec (xs : list entry_t) : ∀ (ys : list entry_t) depth,
  length xs = length ys →
  ∃ b err, equal_loop xs ys depth = Returns (b, err)
    ∧ (b = true ↔ names xs = names ys
                  ∧ Forall2 (λ ex ey, same_value depth (value ex) (value ey))
                      xs ys)
    ∧ (b = true → err = None).
Proof.
  unfold same_value.
  induction xs as [|ex xs IH]; intros [|ey ys] depth Hlen; simplify_eq/=.
  { exists true, None. split_and!; [done| |done]. by split; [split|]. }
  destruct (String.eqb (key ex) (key ey)) eqn:Hk; simpl.
  2:{ exists false, None. split_and!; [done| |done].
      split; [done|]. intros [Hn _]. unfold names in Hn.
      injection Hn as Hn _. by rewrite Hn, String.eqb_refl in Hk. }
  apply String.eqb_eq in Hk.
  destruct (EqualDepth (value ex) (value ey) _) as [[|]|err] eqn:He.
  - destruct (IH ys depth Hlen) as (b & err & -> & Hb & Herr).
    exists b, err. split_and!; [done| |done]. rewrite Hb. unfold names. csimpl.
    split.
    + intros [-> HF]. split; [by rewrite Hk|]. by constructor.
    + intros [Hn HF]. apply Forall2_cons in HF as [_ HF]. by simplify_eq.
  - exists false, None. split_and!; [done| |done]. split; [done|].
    intros [_ HF]. apply Forall2_cons in HF as [HF _]. congruence.
  - exists false, (Some err). split_and!; [done| |done]. split; [done|].
    intros [_ HF]. apply Forall2_cons in HF as [HF _]. congruence.
Qed.

(** X17. [structsEqual] on structs with fewer than 2^32 fields returns
    a verdict, and the verdict is true exactly when the constructors
    compare equal, the names of the fields are the same in the same
    order and the values of the fields compare equal pairwise at the
    budget [depth - 1]; a true verdict comes without an error.
    [CompareSameType] returns that verdict for [==], its negation with
    the same error for [!=], and the error "struct OP struct not
    implemented" for any other operator. *)
Theorem structsEqual_verdict x y yv lx ly depth :
  holds (ht x) lx → holds (ht y) ly →
  (Z.of_nat (length lx) < 2 ^ 32)%Z → (Z.of_nat (length ly) < 2 ^ 32)%Z →
  as_struct yv = Some y →
  ∃ b err, structsEqual x y depth = Returns (b, err)
    ∧ (b = true ↔ ValueEqual (constructor x) (constructor y) = Ok true
                  ∧ lx.*1 = ly.*1
                  ∧ Forall2 (λ p q, same_value depth p.2 q.2) lx ly)
    ∧ (b = true → err = None)
    ∧ CompareSameType x starlarkstruct.EQL yv depth = Returns (b, err)
    ∧ CompareSameType x starlarkstruct.NEQ yv depth = Returns (negb b, err)
    ∧ (∀ op, op ≠ starlarkstruct.EQL → op ≠ starlarkstruct.NEQ →
         CompareSameType x op yv depth
         = Returns (false,
                    Some ("struct " ++ starlarkstruct.Token_String op
                          ++ " struct not implemented")%string)).
Proof.
  intros Hx Hy Hlx Hly Hyv.
  assert (Hother : ∀ op, op ≠ starlarkstruct.EQL → op ≠ starlarkstruct.NEQ →
            CompareSameType x op yv depth
            = Returns (false,
                       Some ("struct " ++ starlarkstruct.Token_String op
                             ++ " struct not implemented")%string)).
  { intros op H1 H2. unfold starlarkstruct.CompareSameType. rewrite Hyv.
    by destruct op. }
  assert (∃ b err, structsEqual x y depth = Returns (b, err)
    ∧ (b = true ↔ ValueEqual (constructor x) (constructor y) = Ok true
                  ∧ lx.*1 = ly.*1
                  ∧ Forall2 (λ p q, same_value depth p.2 q.2) lx ly)
    ∧ (b = true → err = None)) as (b & err & Heq & Hb & Herr).
  { pose proof (holds_len _ _ _ _ Hx) as Lx.
    pose proof (holds_len _ _ _ _ Hy) as Ly.
    destruct (holds_entries _ _ _ _ Hx) as (xs & Hxs & <-).
    destruct (holds_entries _ _ _ _ Hy) as (ys & Hys & <-).
    unfold pairs in *. rewrite length_fmap in *.
    unfold starlarkstruct.structsEqual, starlarkstruct.len.
    rewrite Lx, Ly, !u32_small by lia.
    destruct (Z.eqb_spec (Z.of_nat (length xs)) (Z.of_nat (length ys)))
      as [Hlen|Hlen]; simpl.
    2:{ exists false, None. split_and!; [done| |done]. split; [done|].
        intros (_ & Hn & _). apply (f_equal length) in Hn.
        rewrite !length_fmap in Hn. lia. }
    destruct (ValueEqual _ _) as [[|]|e] eqn:Hc.
    - rewrite Hxs, Hys. simpl.
      destruct (equal_loop_spec xs ys depth) as (b & err & -> & Hb & Herr);
        [lia|].
      exists b, err. split_and!; [done| |done]. rewrite Hb.
      rewrite <- !list_fmap_compose.
      split.
      + intros [Hn HF]. split_and!; [done|exact Hn|].
        rewrite Forall2_fmap. exact HF.
      + intros (_ & Hn & HF). split; [exact Hn|].
        rewrite Forall2_fmap in HF. exact HF.
    - exists false, None. split_and!; [done| |done]. split; [done|].
      by intros [? _].
    - eexists false, _. split_and!; [done| |done]. split; [done|].
      by intros [? _]. }
  exists b, err. split_and!; try done.
  - unfold starlarkstruct.CompareSameType. by rewrite Hyv.
  - unfold starlarkstruct.CompareSameType. rewrite Hyv. simpl.
    by rewrite Heq.
Qed.

(** *** Hashing *)

Lemma hash_loop_same (xs : list entry_t) : ∀ (ys : list entry_t) acc m,
  names xs = names ys →
  Forall2 (λ ex ey, ValueHash (value ex) = ValueHash (value ey)) xs ys →
  hash_loop xs acc m = hash_loop ys acc m.
Proof.
  induction xs as [|ex xs IH]; intros ys acc m Hn HF.
  { by apply Forall2_nil_inv_l in HF as ->. }
  apply Forall2_cons_inv_l in HF as (ey & ys' & He & HF & ->).
  unfold names in Hn. simplify_eq/=. rewrite He.
  match goal with H : key ex = key ey |- _ => rewrite H end.
  destruct (ValueHash (value ey)); [|done]. by apply IH.
Qed.

(** X18. [Hash] agrees with equality: when values that compare equal
    have the same hash, two structs with fewer than 2^32 fields that
    [structsEqual] finds equal have the same [Hash].  The hash does not
    look at the constructor: structs with the same fields have the same
    [Hash]. *)
Theorem equal_structs_hash_alike x y lx ly depth :
  (∀ a b, same_value depth a b → ValueHash a = ValueHash b) →
  holds (ht x) lx → holds (ht y) ly →
  (Z.of_nat (length lx) < 2 ^ 32)%Z → (Z.of_nat (length ly) < 2 ^ 32)%Z →
  (structsEqual x y depth = Returns (true, None) → Hash x = Hash y)
  ∧ (lx = ly → Hash x = Hash y).
Proof.
  intros Hhash Hx Hy Hlx Hly.
  pose proof (holds_len _ _ _ _ Hx) as Lx.
  pose proof (holds_len _ _ _ _ Hy) as Ly.
  destruct (holds_entries _ _ _ _ Hx) as (xs & Hxs & <-).
  destruct (holds_entries _ _ _ _ Hy) as (ys & Hys & <-).
  unfold starlarkstruct.Hash. rewrite Hxs, Hys. simpl. split.
  - unfold pairs in *. rewrite length_fmap in *.
    unfold starlarkstruct.structsEqual, starlarkstruct.len.
    rewrite Lx, Ly, !u32_small by lia.
    destruct (Z.eqb_spec (Z.of_nat (length xs)) (Z.of_nat (length ys)))
      as [Hlen|Hlen]; simpl; [|done].
    destruct (ValueEqual _ _) as [[|]|e]; [|done..].
    rewrite Hxs, Hys. simpl. intros Heq.
    destruct (equal_loop_spec xs ys depth) as (b & err & Hl & Hb & _); [lia|].
    rewrite Hl in Heq. simplify_eq. destruct Hb as [[Hn HF] _]; [done|].
    f_equal. apply hash_loop_same; [done|].
    eapply Forall2_impl; [exact HF|]. intros ex ey He. by apply Hhash.
  - intros Heq. f_equal. apply hash_loop_same.
    + by rewrite <- !pairs_names, Heq.
    + apply (f_equal (fmap snd)) in Heq. unfold pairs in Heq.
      rewrite <- !list_fmap_compose in Heq.
      clear -Heq. revert ys Heq.
      induction xs as [|ex xs IH]; intros [|ey ys] Heq; simplify_eq/=;
        constructor; [congruence|by apply IH].
Qed.

(** *** Freezing *)

(** X19. [Freeze] of a struct that is not frozen calls [Freeze] on the
    value of every field exactly once (in the order of the buckets), and
    on nothing else; the struct is frozen afterwards, and its fields,
    constructor, hash, names and attributes are what they were.  A
    second [Freeze] freezes nothing. *)
Theorem Freeze_freezes_values s l :
  holds (ht s) l → frozen (ht s) = false →
  ∃ s' vs, Freeze s = (s', vs)
    ∧ vs ≡ₚ l.*2
    ∧ holds (ht s') l
    ∧ constructor s' = constructor s
    ∧ frozen (ht s') = true
    ∧ Freeze s' = (s', [])
    ∧ Hash s' = Hash s
    ∧ AttrNames s' = AttrNames s
    ∧ (∀ name, Attr s' name = Attr s name).
Proof.
  intros (L & Hwf & Hkv) Hfr.
  unfold starlarkstruct.Freeze, starlarkstruct.ht_freeze. rewrite Hfr.
  eexists _, _. split; [done|]. split_and!; try done.
  - rewrite <- Hkv.
    apply (values_in_use_linked EmptyString nilValue _ _ _
             (wf_linked _ _ _ _ _ Hwf)).
  - exists L. split; [by apply wf_with_frozen|done].
Qed.

(** *** Printing *)

(** The text of one field. *)
Definition field_text (p : string * Value) : string :=
  (p.1 ++ " = " ++ ValueString p.2)%string.

Fixpoint fields_text (at_head : bool) l : string :=
  match l with
  | [] => EmptyString
  | p :: l' =>
      ((if at_head then "" else ", ") ++ p.1 ++ " = " ++ ValueString p.2
       ++ fields_text false l')%string
  end.

Lemma write_fields_linked (t : list (list (list entry_t))) hd L :
  table_facts.linked EmptyString nilValue t hd L → ∀ fuel i,
  length L - i < fuel →
  starlarkstruct.write_fields ValueString fuel t hd (L !! i)
  = Returns (fields_text (bool_decide (i = 0))
               (table_facts.kvs EmptyString nilValue t (drop i L))).
Proof.
  intros HL. induction fuel as [|fuel IH]; intros i Hi; [lia|].
  destruct (L !! i) as [a|] eqn:Ha; simpl.
  - destruct (linked_entry _ _ _ _ _ HL i a Ha) as (e & He & _ & Hn & _).
    rewrite He. simpl. rewrite Hn, IH.
    2:{ apply lookup_lt_Some in Ha. lia. }
    simpl. rewrite (drop_S _ _ _ Ha). unfold table_facts.kvs. csimpl.
    unfold table_facts.entry_at. rewrite He. simpl.
    destruct (decide (Some a = hd)) as [Hhd|Hhd]; case_bool_decide as Hi0;
      try done.
    + rewrite (linked_head _ _ _ _ _ HL) in Hhd. symmetry in Hhd.
      pose proof (NoDup_lookup _ _ _ _ (linked_nodup _ _ _ _ _ HL) Ha Hhd).
      done.
    + subst i. rewrite (linked_head _ _ _ _ _ HL) in Hhd. congruence.
  - apply lookup_ge_None in Ha. by rewrite drop_ge.
Qed.

Lemma append_assoc (a b c : string) : ((a ++ b) ++ c = a ++ b ++ c)%string.
Proof. induction a as [|x a IH]; simpl; congruence. Qed.

Lemma append_nil_r (a : string) : (a ++ "")%string = a.
Proof. induction a as [|x a IH]; simpl; congruence. Qed.

Lemma concat_cons (sep a : string) (bs : list string) :
  String.concat sep (a :: bs)
  = (a ++ foldr (λ b acc, sep ++ b ++ acc) EmptyString bs)%string.
Proof.
  revert a. induction bs as [|b bs IH]; intros a.
  { simpl. by rewrite append_nil_r. }
  change (String.concat sep (a :: b :: bs))
    with (a ++ sep ++ String.concat sep (b :: bs))%string.
  by rewrite IH.
Qed.

Lemma fields_text_false l :
  fields_text false l
  = foldr (λ b acc, ", " ++ b ++ acc)%string EmptyString (field_text <$> l).
Proof.
  induction l as [|p l IH]; [done|].
  cbn [fields_text fmap list_fmap foldr]. rewrite IH. unfold field_text.
  by rewrite !append_assoc.
Qed.

Lemma fields_text_concat l :
  fields_text true l = String.concat ", " (field_text <$> l).
Proof.
  destruct l as [|p l]; [done|].
  cbn [fields_text fmap list_fmap]. rewrite concat_cons, fields_text_false.
  unfold field_text. rewrite !append_assoc. done.
Qed.

(** X20. [String] writes the constructor ("struct" for the default
    one), then in parentheses the fields in their order, each as
    ["name = value"], separated by [", "]: a struct without fields
    prints as the constructor followed by "()". *)
Theorem String_format s l :
  holds (ht s) l →
  String_ s
  = Returns ((if is_Default (constructor s) then "struct"
              else ValueString (constructor s))
             ++ "(" ++ String.concat ", " (field_text <$> l) ++ ")")%string.
Proof.
  intros (L & Hwf & <-). pose proof (wf_linked _ _ _ _ _ Hwf) as HL.
  unfold starlarkstruct.String_.
  rewrite (linked_head _ _ _ _ _ HL) at 2.
  rewrite (write_fields_linked _ _ _ HL)
    by (pose proof (linked_length_le _ _ _ _ _ HL); lia).
  simpl. by rewrite drop_0, fields_text_concat.
Qed.

End Methods.

End struct_more.


(** * The methods of a struct over the universe of values *)

Module struct_more_examples.
Import hashtable table_facts struct_facts universe struct_examples struct_more.
#[local] Open Scope string_scope.

Abbreviation AttrValue := (@starlarkstruct.AttrValue value).
Abbreviation NoSuchAttrError := (@starlarkstruct.NoSuchAttrError value).
Abbreviation no_attr := (struct_more.no_attr value_String is_Default).
Abbreviation ToStringDict := (@starlarkstruct.ToStringDict value).
Abbreviation Freeze := (@starlarkstruct.Freeze value).
Abbreviation BinValue := (@starlarkstruct.BinValue value).

Lemma sx_holds : holds (starlarkstruct.ht sx) (dict_pairs dict_x).
Proof. apply struct_of_record. Qed.

Lemma sy_holds : holds (starlarkstruct.ht sy) (dict_pairs dict_y).
Proof. apply struct_of_record. Qed.

Example sx_printed :
  String_ sx
  = Returns ("struct(a = " ++ quote ++ "1" ++ quote
             ++ ", b = " ++ quote ++ "2" ++ quote ++ ")").
Proof. vm_compute. reflexivity. Qed.

Lemma Attr_of_AttrNames_witness :
  ∃ names, AttrNames sx = Returns names
    ∧ (∀ name, name ∈ names →
         ∃ v, (name, v) ∈ dict_pairs dict_x
              ∧ Attr sx name = Returns (AttrValue v))
    ∧ (∀ name, name ∉ names →
         Attr sx name = Returns (NoSuchAttrError (no_attr sx name))).
Proof.
  apply (Attr_of_AttrNames value_String StringHash VNil VNone is_Default
           sx (dict_pairs dict_x)).
  apply struct_of_record.
Defined.

Lemma construct_round_trip_witness :
  ∃ s, FromStringDict 1 Default dict_x = Returns s
    ∧ starlarkstruct.Constructor s = Default
    ∧ (∀ k v, starlarkstruct.sd_get dict_x k = Some v →
         Attr s k = Returns (AttrValue v))
    ∧ (∀ k, starlarkstruct.sd_get dict_x k = None →
         Attr s k = Returns (NoSuchAttrError (no_attr s k)))
    ∧ ∃ d', ToStringDict s [] = Returns d'
        ∧ ∀ k, starlarkstruct.sd_get d' k = starlarkstruct.sd_get dict_x k.
Proof.
  apply (construct_round_trip value_String StringHash is_nil VNil VNone
           is_Default 1 Default dict_x).
  - lia.
  - reflexivity.
Defined.

(** A dictionary that binds a name of [sx] and another name. *)
Definition dict_old : starlarkstruct.StringDict value :=
  [("z", VNone); ("a", VNone)].

Lemma ToStringDict_adds_fields_witness :
  ∃ d', ToStringDict sx dict_old = Returns d'
    ∧ (∀ k v, (k, v) ∈ dict_pairs dict_x → starlarkstruct.sd_get d' k = Some v)
    ∧ (∀ k, k ∉ (dict_pairs dict_x).*1 →
         starlarkstruct.sd_get d' k = starlarkstruct.sd_get dict_old k).
Proof.
  apply (ToStringDict_adds_fields StringHash VNil sx (dict_pairs dict_x) dict_old).
  apply struct_of_record.
Defined.

(** The keywords of struct(b = "2", a = "1", b = "3"). *)
Definition some_kwargs : list (value * value) :=
  [(VString "b", VString "2"); (VString "a", VString "1");
   (VString "b", VString "3")].

Lemma Make_keywords_witness :
  ([VNone] ≠ [] →
   Make 1 [VNone] some_kwargs
   = Returns (Err "struct: unexpected positional arguments"))
  ∧ (∀ nvs, named as_String some_kwargs nvs →
       ∃ s, Make 1 [] some_kwargs = Returns (Ok s)
         ∧ FromKeywords 1 Default some_kwargs = Returns s
         ∧ starlarkstruct.constructor s = Default
         ∧ ∀ k, Attr s k
                = Returns match last_of nvs k with
                          | Some v => AttrValue v
                          | None => NoSuchAttrError (no_attr s k)
                          end)
  ∧ (Exists (λ kw : value * value, as_String kw.1 = None) some_kwargs →
     Make 1 [] some_kwargs = Panics).
Proof.
  apply (Make_keywords value_String StringHash is_nil VNil VNone as_String
           Default is_Default 1 [VNone] some_kwargs).
  - lia.
  - reflexivity.
Defined.

Lemma merge_absorbs_witness :
  ∃ s l, Binary 1 sx PLUS (of_struct sy) starlarkstruct.Left
         = Returns (BinValue s)
    ∧ record s l
    ∧ ((∀ k v, (k, v) ∈ dict_pairs dict_y → (k, v) ∈ dict_pairs dict_x) →
       l = dict_pairs dict_x)
    ∧ ((∀ k, k ∈ (dict_pairs dict_x).*1 → k ∈ (dict_pairs dict_y).*1) →
       l = dict_pairs dict_y)
    ∧ (dict_pairs dict_y = [] → l = dict_pairs dict_x)
    ∧ (dict_pairs dict_x = [] → l = dict_pairs dict_y)
    ∧ (dict_pairs dict_x = dict_pairs dict_y → l = dict_pairs dict_x).
Proof.
  apply (merge_absorbs value_Equal value_String StringHash VNil as_struct
           1 sx (of_struct sy) sy (dict_pairs dict_x) (dict_pairs dict_y)).
  - lia.
  - apply as_struct_of_struct.
  - apply struct_of_record.
  - apply struct_of_record.
  - reflexivity.
Defined.

Lemma merge_associative_witness :
  ∃ xy yz s1 s2 l,
    Binary 1 sx PLUS (of_struct sy) starlarkstruct.Left = Returns (BinValue xy)
    ∧ Binary 1 sy PLUS (of_struct sx) starlarkstruct.Left = Returns (BinValue yz)
    ∧ Binary 1 xy PLUS (of_struct sx) starlarkstruct.Left = Returns (BinValue s1)
    ∧ Binary 1 sx PLUS (of_struct yz) starlarkstruct.Left = Returns (BinValue s2)
    ∧ record s1 l ∧ record s2 l
    ∧ starlarkstruct.constructor s1 = starlarkstruct.constructor s2.
Proof.
  apply (merge_associative value_Equal value_String StringHash VNil as_struct
           1 of_struct sx sy sx (of_struct sy) (of_struct sx)
           (dict_pairs dict_x) (dict_pairs dict_y) (dict_pairs dict_x)).
  - lia.
  - apply as_struct_of_struct.
  - apply as_struct_of_struct.
  - apply as_struct_of_struct.
  - apply struct_of_record.
  - apply struct_of_record.
  - apply struct_of_record.
  - reflexivity.
  - reflexivity.
  - reflexivity.
Defined.

Lemma structsEqual_verdict_witness :
  ∃ b err, structsEqual sx sy 10 = Returns (b, err)
    ∧ (b = true
       ↔ value_Equal (starlarkstruct.constructor sx)
           (starlarkstruct.constructor sy) = Ok true
         ∧ (dict_pairs dict_x).*1 = (dict_pairs dict_y).*1
         ∧ Forall2 (λ p q : string * value, same_value EqualDepth 10 p.2 q.2)
             (dict_pairs dict_x) (dict_pairs dict_y))
    ∧ (b = true → err = None)
    ∧ CompareSameType sx EQL (of_struct sy) 10 = Returns (b, err)
    ∧ CompareSameType sx NEQ (of_struct sy) 10 = Returns (negb b, err)
    ∧ (∀ op, op ≠ EQL → op ≠ NEQ →
         CompareSameType sx op (of_struct sy) 10
         = Returns (false,
                    Some ("struct " ++ starlarkstruct.Token_String op
                          ++ " struct not implemented"))).
Proof.
  apply (structsEqual_verdict value_Equal EqualDepth value_String StringHash
           VNil as_struct sx sy (of_struct sy)
           (dict_pairs dict_x) (dict_pairs dict_y) 10).
  - apply sx_holds.
  - apply sy_holds.
  - vm_compute. reflexivity.
  - vm_compute. reflexivity.
  - apply as_struct_of_struct.
Defined.

(** The comparison of values that are strings or [None]. *)
Definition plain_Equal (a b : value) (depth : Z) : result bool :=
  match a, b with
  | VString s, VString t => Ok (String.eqb s t)
  | VNone, VNone => Ok true
  | _, _ => Ok false
  end.

(** The fields of [sx], given in the other order. *)
Definition dict_x' : starlarkstruct.StringDict value :=
  [("a", VString "1"); ("b", VString "2")].

Lemma equal_structs_hash_alike_witness :
  (starlarkstruct.structsEqual value_Equal plain_Equal value_String
     sx (struct_of dict_x') 10 = Returns (true, None) →
   Hash sx = Hash (struct_of dict_x'))
  ∧ (dict_pairs dict_x = dict_pairs dict_x' → Hash sx = Hash (struct_of dict_x')).
Proof.
  apply (equal_structs_hash_alike value_Hash value_Equal plain_Equal
           value_String StringHash VNil sx (struct_of dict_x')
           (dict_pairs dict_x) (dict_pairs dict_x') 10).
  - intros a b. unfold same_value, plain_Equal.
    destruct a, b; try done. intros [= ->%String.eqb_eq]. done.
  - apply sx_holds.
  - apply struct_of_record.
  - vm_compute. reflexivity.
  - vm_compute. reflexivity.
Defined.

Lemma Freeze_freezes_values_witness :
  ∃ s' vs, Freeze sx = (s', vs)
    ∧ vs ≡ₚ (dict_pairs dict_x).*2
    ∧ holds (starlarkstruct.ht s') (dict_pairs dict_x)
    ∧ starlarkstruct.constructor s' = starlarkstruct.constructor sx
    ∧ frozen (starlarkstruct.ht s') = true
    ∧ Freeze s' = (s', [])
    ∧ Hash s' = Hash sx
    ∧ AttrNames s' = AttrNames sx
    ∧ (∀ name, Attr s' name = Attr sx name).
Proof.
  apply (Freeze_freezes_values value_Hash value_String StringHash VNil VNone
           is_Default sx (dict_pairs dict_x)).
  - apply sx_holds.
  - reflexivity.
Defined.

Lemma String_format_witness :
  String_ sx
  = Returns ((if is_Default (starlarkstruct.constructor sx) then "struct"
              else value_String (starlarkstruct.constructor sx))
             ++ "(" ++ String.concat ", "
                         (field_text value_String <$> dict_pairs dict_x)
             ++ ")").
Proof.
  apply (String_format value_String StringHash VNil is_Default sx
           (dict_pairs dict_x)).
  apply sx_holds.
Defined.

End struct_more_examples.


(** * OrderedStringDict: the dictionaries that [OrderStringDict] builds *)

Module osd_more.
Import osd.

Section Built.
Context {V : Type}.
Variable nilV : V.
Variable None_ : V.
Variable goStringHash : string → Z.
Variable growcap : nat → nat.

Abbreviation dict := (@OrderedStringDict V).
Abbreviation osdEntry := (@osd.osdEntry V).
Abbreviation hs := (hashString goStringHash).
Abbreviation Set_ := (@osd.Set_ V goStringHash).
Abbreviation Get := (@osd.Get V None_ goStringHash).
Abbreviation append := (osd.append nilV growcap).
Abbreviation append_at := (osd.append_at nilV growcap).
Abbreviation append_entry := (osd.append_entry nilV growcap).
Abbreviation init := (osd.init nilV).
Abbreviation OrderStringDict :=
  (orderdict.OrderStringDict nilV goStringHash growcap).

Implicit Types (o : dict) (e : osdEntry) (p q : ptr) (k : string) (v : V)
  (b : list (option ptr)) (ch : list (list (option ptr))).

(** ** The invariant *)

(** A bucket is filled from its first slot on. *)
Definition tidy b : Prop := ∃ ps m, b = (Some <$> ps) ++ replicate m None.

(** The buckets of a chain are tidy, and only the last one has a nil
    slot. *)
Record chain_ok ch : Prop := {
  chain_tidy : ∀ j b, ch !! j = Some b → tidy b;
  chain_full : ∀ j b, ch !! j = Some b → S j < length ch → None ∉ b
}.

(** The pointer [p] is in a bucket of the chain. *)
Definition in_chain ch p : Prop := ∃ b, b ∈ ch ∧ Some p ∈ b.

(** The entries are in one backing array with room as the capacity
    says; their keys differ and they carry the hashes of their keys;
    the buckets of the chain of a hash point to the entries with that
    hash, each once at least, and to nothing else; the table is not
    overloaded by as many entries as the array can take. *)
Record inv o : Prop := {
  inv_table : table o ≠ [];
  inv_array : ∃ arr, arrays o !! s_array (entries o) = Some arr
                ∧ length arr = s_cap (entries o)
                ∧ s_len (entries o) ≤ s_cap (entries o);
  inv_hash : ∀ e, e ∈ live_entries o → hash e = hs (key e);
  inv_keys : NoDup (key <$> live_entries o);
  inv_chain : ∀ c ch, table o !! c = Some ch → chain_ok ch;
  inv_ptr : ∀ c ch p, table o !! c = Some ch → in_chain ch p →
    p_array p = s_array (entries o)
    ∧ ∃ e, live_entries o !! p_index p = Some e
           ∧ slot_index (table o) (hash e) = c;
  inv_all : ∀ i e, live_entries o !! i = Some e →
    ∃ ch, table o !! slot_index (table o) (hash e) = Some ch
          ∧ in_chain ch (Ptr (s_array (entries o)) i);
  inv_load : hashtable.overloaded (Z.of_nat (s_cap (entries o)))
               (Z.of_nat (length (table o))) = false
}.

Lemma load_live o i e :
  live_entries o !! i = Some e → load o (Ptr (s_array (entries o)) i) = Some e.
Proof.
  unfold live_entries, load. simpl. intros [Hi He]%lookup_take_Some.
  by destruct (arrays o !! s_array (entries o)).
Qed.

Lemma length_live o : inv o → length (live_entries o) = s_len (entries o).
Proof.
  intros [_ (arr & Ha & Hlen & Hle) _ _ _ _ _ _]. unfold live_entries.
  rewrite Ha. simpl. rewrite length_take. lia.
Qed.

Lemma inv_load_ptr o c ch p :
  inv o → table o !! c = Some ch → in_chain ch p →
  ∃ e, load o p = Some e ∧ live_entries o !! p_index p = Some e
       ∧ slot_index (table o) (hash e) = c.
Proof.
  intros Hinv Hc Hp.
  destruct (inv_ptr _ Hinv c ch p Hc Hp) as (Ha & e & He & Hs).
  exists e. split_and!; try done. destruct p as [a i]. simpl in *. subst a.
  by apply load_live.
Qed.

Lemma osd_slot_index_lt (t : list (list (list (option ptr)))) h :
  t ≠ [] → slot_index t h < length t.
Proof.
  intros Ht. unfold slot_index.
  assert (0 < length t) by (destruct t; [done|simpl; lia]).
  assert (Z.of_nat (length t) - 1 < 2 ^ 32 ∨ 2 ^ 32 ≤ Z.of_nat (length t) - 1)%Z
    as [Hsmall|Hbig] by lia.
  - rewrite table_facts.u32_small by lia.
    pose proof (table_facts.land_bound h (Z.of_nat (length t) - 1)). lia.
  - pose proof (table_facts.u32_range (Z.of_nat (length t) - 1)).
    pose proof (table_facts.land_bound h (u32 (Z.of_nat (length t) - 1))). lia.
Qed.

(** ** [getEntry] *)

(** The test of [getEntry] on the entry that [p] points to. *)
Definition matches o (h : Z) k p : bool :=
  match load o p with
  | Some e => (hash e =? h)%Z && String.eqb k (key e)
  | None => false
  end.

Fixpoint first_match o (h : Z) k (ps : list ptr) : option ptr :=
  match ps with
  | [] => None
  | p :: ps' => if matches o h k p then Some p else first_match o h k ps'
  end.

Lemma first_match_Some o h k ps p :
  first_match o h k ps = Some p → p ∈ ps ∧ matches o h k p = true.
Proof.
  induction ps as [|q ps IH]; simpl; [done|].
  destruct (matches o h k q) eqn:Hq.
  - intros [= ->]. split; [apply elem_of_cons; by left|done].
  - intros [? ?]%IH. split; [apply elem_of_cons; by right|done].
Qed.

Lemma first_match_None o h k ps p :
  first_match o h k ps = None → p ∈ ps → matches o h k p = false.
Proof.
  induction ps as [|q ps IH]; simpl; [by intros _ ?%elem_of_nil|].
  destruct (matches o h k q) eqn:Hq; [done|].
  intros Hn [->|Hin]%elem_of_cons; [done|by apply IH].
Qed.

Lemma get_slots_nil o m h k :
  get_slots o (replicate m None) h k = Returns None.
Proof. by destruct m. Qed.

Lemma get_slots_spec o ps m h k :
  (∀ p, p ∈ ps → ∃ e, load o p = Some e) →
  get_slots o ((Some <$> ps) ++ replicate m None) h k
  = Returns (first_match o h k ps).
Proof.
  induction ps as [|p ps IH]; intros Hload; csimpl.
  { apply get_slots_nil. }
  destruct (Hload p) as [e He]; [apply elem_of_cons; by left|].
  unfold matches. rewrite He. simpl.
  destruct ((hash e =? h)%Z && String.eqb k (key e)); [done|].
  apply IH. intros q Hq. apply Hload, elem_of_cons. by right.
Qed.

Lemma elem_of_tidy ps m p :
  Some p ∈ (Some <$> ps) ++ replicate m (@None ptr) ↔ p ∈ ps.
Proof.
  rewrite elem_of_app. split.
  - intros [(q & [= ->] & Hq)%list_elem_of_fmap|[? _]%elem_of_replicate]; done.
  - intros Hp. left. apply list_elem_of_fmap. by exists p.
Qed.

Lemma get_buckets_spec o ch h k :
  (∀ j b, ch !! j = Some b → tidy b) →
  (∀ p, in_chain ch p → ∃ e, load o p = Some e) →
  ∃ r, get_buckets o ch h k = Returns r
    ∧ (∀ p, r = Some p → in_chain ch p ∧ matches o h k p = true)
    ∧ (r = None → ∀ p, in_chain ch p → matches o h k p = false).
Proof.
  induction ch as [|b ch IH]; intros Htidy Hload; simpl.
  { exists None. split_and!; [done|done|]. intros _ p (b & []%elem_of_nil & _). }
  destruct (Htidy 0 b eq_refl) as (ps & m & ->).
  rewrite get_slots_spec.
  2:{ intros p Hp. apply Hload. eexists. split; [apply elem_of_cons; by left|].
      by apply elem_of_tidy. }
  simpl. destruct (first_match o h k ps) as [p|] eqn:Hfirst.
  - exists (Some p). split_and!; [done| |done]. intros ? [= <-].
    apply first_match_Some in Hfirst as [Hin Hm]. split; [|done].
    eexists. split; [apply elem_of_cons; by left|]. by apply elem_of_tidy.
  - destruct IH as (r & -> & Hsome & Hnone).
    { intros j b' Hj. by apply (Htidy (S j)). }
    { intros p (b' & Hb' & Hp). apply Hload. exists b'.
      split; [apply elem_of_cons; by right|done]. }
    exists r. split_and!; [done| |].
    + intros p Hr. destruct (Hsome p Hr) as [(b' & Hb' & Hp) Hm].
      split; [|done]. exists b'. split; [apply elem_of_cons; by right|done].
    + intros Hr p (b' & [->|Hb']%elem_of_cons & Hp).
      * apply (first_match_None _ _ _ _ _ Hfirst). by apply elem_of_tidy in Hp.
      * apply (Hnone Hr). by exists b'.
Qed.

Lemma getEntry_spec o h k :
  inv o →
  ∃ r ch, table o !! slot_index (table o) h = Some ch
    ∧ getEntry o h k = Returns r
    ∧ (∀ p, r = Some p → in_chain ch p ∧ matches o h k p = true)
    ∧ (r = None → ∀ p, in_chain ch p → matches o h k p = false).
Proof.
  intros Hinv. pose proof (inv_table _ Hinv) as Ht.
  destruct (lookup_lt_is_Some_2 (table o) (slot_index (table o) h)) as [ch Hch].
  { by apply osd_slot_index_lt. }
  destruct (get_buckets_spec o ch h k) as (r & Hr & Hsome & Hnone).
  { apply (chain_tidy _ (inv_chain _ Hinv _ _ Hch)). }
  { intros p Hp. destruct (inv_load_ptr o _ ch p Hinv Hch Hp) as (e & ? & _).
    by exists e. }
  exists r, ch. split_and!; try done.
  unfold getEntry. destruct (table o) eqn:Heq; [done|].
  rewrite Hch. simpl. done.
Qed.

(** [getEntry] finds the entry of a key at its position. *)
Lemma getEntry_found o i e :
  inv o → live_entries o !! i = Some e →
  getEntry o (hs (key e)) (key e) = Returns (Some (Ptr (s_array (entries o)) i)).
Proof.
  intros Hinv Hi.
  destruct (getEntry_spec o (hs (key e)) (key e) Hinv)
    as (r & ch & Hch & -> & Hsome & Hnone).
  pose proof (inv_hash _ Hinv e (list_elem_of_lookup_2 _ _ _ Hi)) as Hh.
  destruct (inv_all _ Hinv i e Hi) as (ch' & Hch' & Hin).
  rewrite Hh, Hch in Hch'. simplify_eq.
  f_equal. destruct r as [p|].
  - destruct (Hsome p eq_refl) as [Hp Hm].
    destruct (inv_load_ptr o _ _ p Hinv Hch Hp) as (e' & Hl & He' & _).
    unfold matches in Hm. rewrite Hl in Hm.
    apply andb_true_iff in Hm as [_ Hk%String.eqb_eq].
    destruct (inv_ptr _ Hinv _ _ p Hch Hp) as [Ha _].
    assert (p_index p = i).
    { eapply (NoDup_lookup _ _ _ (key e) (inv_keys _ Hinv)).
      - by rewrite list_lookup_fmap, He', Hk.
      - by rewrite list_lookup_fmap, Hi. }
    destruct p as [a j]. simpl in *. by subst.
  - specialize (Hnone eq_refl _ Hin). unfold matches in Hnone.
    rewrite (load_live _ _ _ Hi), Hh, Z.eqb_refl, String.eqb_refl in Hnone.
    done.
Qed.

(** [getEntry] finds nothing for a key that no entry has. *)
Lemma getEntry_missing o h k :
  inv o → k ∉ Keys o → getEntry o h k = Returns None.
Proof.
  intros Hinv Hk.
  destruct (getEntry_spec o h k Hinv) as (r & ch & Hch & -> & Hsome & _).
  f_equal. destruct r as [p|]; [|done].
  destruct (Hsome p eq_refl) as [Hp Hm].
  destruct (inv_load_ptr o _ _ p Hinv Hch Hp) as (e' & Hl & He' & _).
  unfold matches in Hm. rewrite Hl in Hm.
  apply andb_true_iff in Hm as [_ Hk'%String.eqb_eq].
  destruct Hk. unfold Keys. apply list_elem_of_In, in_map_iff.
  exists e'. split; [done|]. apply list_elem_of_In.
  by eapply list_elem_of_lookup_2.
Qed.

(** ** [Set] *)

Lemma Keys_fmap o : Keys o = key <$> live_entries o.
Proof. done. Qed.

Lemma live_store o i e e' :
  live_entries o !! i = Some e →
  live_entries (store o (Ptr (s_array (entries o)) i) e')
  = <[i := e']> (live_entries o).
Proof.
  unfold live_entries, store. simpl. intros [Hi He]%lookup_take_Some.
  rewrite list_lookup_alter_eq.
  destruct (arrays o !! s_array (entries o)) as [arr|]; [|done]. simpl.
  by rewrite take_insert_lt.
Qed.

(** [Set] on the entry at position [i] keeps the invariant. *)
Lemma inv_store o i e v :
  inv o → live_entries o !! i = Some e →
  inv (store o (Ptr (s_array (entries o)) i) (OsdEntry (hash e) (key e) v)).
Proof.
  intros Hinv Hi. set (e' := OsdEntry (hash e) (key e) v).
  pose proof (live_store o i e e' Hi) as Hlive.
  assert (Hsame : ∀ j e1, <[i := e']> (live_entries o) !! j = Some e1 →
            ∃ e0, live_entries o !! j = Some e0
                  ∧ hash e1 = hash e0 ∧ key e1 = key e0).
  { intros j e1 [(-> & <- & _)|[_ Hj]]%list_lookup_insert_Some.
    - by exists e.
    - by exists e1. }
  assert (Hback : ∀ j e0, live_entries o !! j = Some e0 →
            ∃ e1, <[i := e']> (live_entries o) !! j = Some e1
                  ∧ hash e1 = hash e0 ∧ key e1 = key e0).
  { intros j e0 Hj. destruct (decide (i = j)) as [->|Hne].
    - exists e'. rewrite list_lookup_insert_eq by (by eapply lookup_lt_Some).
      by simplify_eq.
    - exists e0. by rewrite list_lookup_insert_ne. }
  destruct (inv_array _ Hinv) as (arr & Ha & Hlen & Hle).
  split.
  - apply (inv_table _ Hinv).
  - exists (<[i := e']> arr). simpl. rewrite list_lookup_alter_eq, Ha.
    by rewrite length_insert.
  - rewrite Hlive. intros e1 [j Hj]%list_elem_of_lookup.
    destruct (Hsame j e1 Hj) as (e0 & Hj0 & -> & ->).
    apply (inv_hash _ Hinv). by eapply list_elem_of_lookup_2.
  - rewrite Hlive, list_fmap_insert. simpl.
    rewrite list_insert_id; [apply (inv_keys _ Hinv)|].
    by rewrite list_lookup_fmap, Hi.
  - apply (inv_chain _ Hinv).
  - intros c ch p Hc Hp. simpl in Hc.
    destruct (inv_ptr _ Hinv c ch p Hc Hp) as (Hpa & e0 & He0 & Hs).
    split; [done|]. rewrite Hlive.
    destruct (Hback _ _ He0) as (e1 & He1 & Hh & _).
    exists e1. split; [done|]. simpl. by rewrite Hh.
  - rewrite Hlive. intros j e1 Hj. simpl.
    destruct (Hsame j e1 Hj) as (e0 & Hj0 & -> & _).
    apply (inv_all _ Hinv j e0 Hj0).
  - apply (inv_load _ Hinv).
Qed.

(** ** [append] *)

(** The test of [append] on the entry that [p] points to. *)
Definition key_is o k p : bool :=
  match load o p with
  | Some e => String.eqb k (key e)
  | None => false
  end.

Lemma pos_slots_spec o ps m k bi : ∀ i0,
  (∀ p, p ∈ ps → ∃ e, load o p = Some e) →
  pos_slots o bi i0 ((Some <$> ps) ++ replicate m None) k
  = Returns (if existsb (key_is o k) ps then Duplicate
             else match m with
                  | O => Full
                  | S _ => Position bi (i0 + length ps)
                  end).
Proof.
  induction ps as [|p ps IH]; intros i0 Hload; csimpl.
  { rewrite Nat.add_0_r. by destruct m. }
  destruct (Hload p) as [e He]; [apply elem_of_cons; by left|].
  unfold key_is at 1. rewrite He. simpl.
  destruct (String.eqb k (key e)); [done|]. simpl.
  rewrite IH, Nat.add_succ_r; [done|].
  intros q Hq. apply Hload, elem_of_cons. by right.
Qed.

Lemma pos_buckets_spec o ch k : ∀ lo,
  chain_ok ch →
  (∀ p, in_chain ch p → ∃ e, load o p = Some e) →
  ∃ r, pos_buckets o lo ch k = Returns r
    ∧ match r with
      | Duplicate => ∃ p, in_chain ch p ∧ key_is o k p = true
      | Position bi i =>
          (∀ p, in_chain ch p → key_is o k p = false)
          ∧ ∃ j ps m, bi = lo + j
              ∧ ch !! j = Some ((Some <$> ps) ++ replicate (S m) None)
              ∧ i = length ps ∧ S j = length ch
      | Full =>
          (∀ p, in_chain ch p → key_is o k p = false)
          ∧ ∀ b, b ∈ ch → None ∉ b
      end.
Proof.
  induction ch as [|b ch IH]; intros lo [Htidy Hfull] Hload; simpl.
  { exists Full. split; [done|]. split.
    - intros p (b & []%elem_of_nil & _).
    - by intros b ?%elem_of_nil. }
  destruct (Htidy 0 b eq_refl) as (ps & m & ->).
  assert (Hhere : ∀ p, p ∈ ps → in_chain (((Some <$> ps) ++ replicate m None) :: ch) p).
  { intros p Hp. eexists. split; [apply elem_of_cons; by left|].
    by apply elem_of_tidy. }
  rewrite pos_slots_spec by (intros p Hp; by apply Hload, Hhere).
  simpl. destruct (existsb (key_is o k) ps) eqn:Hex; simpl.
  { exists Duplicate. split; [done|].
    apply existsb_exists in Hex as (p & Hp%list_elem_of_In & Hk).
    exists p. split; [by apply Hhere|done]. }
  assert (Hnone : ∀ p, p ∈ ps → key_is o k p = false).
  { intros p Hp%list_elem_of_In.
    destruct (key_is o k p) eqn:Hk; [|done].
    assert (existsb (key_is o k) ps = true) as Hex'
      by (apply existsb_exists; by exists p).
    congruence. }
  destruct m as [|m].
  - destruct (IH (S lo)) as (r & -> & Hr).
    { split.
      - intros j b Hj. by apply (Htidy (S j)).
      - intros j b Hj Hlt. apply (Hfull (S j)); [done|simpl; lia]. }
    { intros p (b & Hb & Hp). apply Hload. exists b.
      split; [apply elem_of_cons; by right|done]. }
    assert (Hall : (∀ p, in_chain ch p → key_is o k p = false) →
              ∀ p, in_chain (((Some <$> ps) ++ replicate 0 None) :: ch) p →
                   key_is o k p = false).
    { intros Hrest p (b & [->|Hb]%elem_of_cons & Hp).
      - apply Hnone. by apply elem_of_tidy in Hp.
      - apply Hrest. by exists b. }
    exists r. split; [by destruct r|]. destruct r as [bi i| |].
    + destruct Hr as (Hrest & j & ps' & m' & -> & Hj & -> & Hlen).
      split; [by apply Hall|].
      exists (S j), ps', m'. split_and!; try done; [lia|simpl; lia].
    + destruct Hr as (p & (b & Hb & Hp) & Hk). exists p. split; [|done].
      exists b. split; [apply elem_of_cons; by right|done].
    + destruct Hr as [Hrest Hno]. split; [by apply Hall|].
      intros b [->|Hb]%elem_of_cons; [|by apply Hno].
      simpl. rewrite app_nil_r. by intros (? & ? & _)%list_elem_of_fmap.
  - exists (Position lo (0 + length ps)). split; [done|].
    assert (ch = []) as ->.
    { destruct ch as [|b' ch]; [done|]. exfalso.
      apply (Hfull 0 _ eq_refl); [simpl; lia|].
      apply elem_of_app. right. apply elem_of_replicate. done. }
    split.
    + intros p (b & [->|[]%elem_of_nil]%elem_of_cons & Hp).
      apply Hnone. by apply elem_of_tidy in Hp.
    + exists 0, ps, m. split_and!; try done.
Qed.

Lemma append_entry_room o e :
  s_len (entries o) < s_cap (entries o) →
  append_entry o e
  = Dict (table o)
      (Slice (s_array (entries o)) (S (s_len (entries o))) (s_cap (entries o)))
      (alter (<[s_len (entries o) := e]>) (s_array (entries o)) (arrays o)).
Proof. intros Hroom. unfold osd.append_entry. by case_decide. Qed.

Lemma alter_insert {A} (f : A → A) (l : list A) i x :
  l !! i = Some x → alter f i l = <[i := f x]> l.
Proof.
  revert i. induction l as [|y l IH]; intros [|i] Hi; simplify_eq/=; [done|].
  f_equal. by apply IH.
Qed.

Lemma slot_index_insert (t : list (list (list (option ptr)))) c ch h :
  slot_index (<[c := ch]> t) h = slot_index t h.
Proof. unfold slot_index. by rewrite length_insert. Qed.

(** The dictionary with a further entry, to which the chain [ch'] of
    its hash points in addition. *)
Lemma inv_extend o c ch ch' e :
  inv o → s_len (entries o) < s_cap (entries o) →
  key e ∉ Keys o → hash e = hs (key e) →
  c = slot_index (table o) (hash e) → table o !! c = Some ch →
  chain_ok ch' →
  (∀ q, in_chain ch' q
        ↔ q = Ptr (s_array (entries o)) (s_len (entries o)) ∨ in_chain ch q) →
  let o' := Dict (<[c := ch']> (table o))
              (Slice (s_array (entries o)) (S (s_len (entries o)))
                 (s_cap (entries o)))
              (alter (<[s_len (entries o) := e]>) (s_array (entries o))
                 (arrays o)) in
  inv o' ∧ live_entries o' = live_entries o ++ [e].
Proof.
  intros Hinv Hroom Hfresh Hhash Hc Hch Hok Hin o'.
  destruct (inv_array _ Hinv) as (arr & Ha & Hlen & Hle).
  pose proof (length_live o Hinv) as Hn.
  assert (Hlive : live_entries o' = live_entries o ++ [e]).
  { unfold live_entries, o'. simpl. rewrite list_lookup_alter_eq, Ha. simpl.
    rewrite (take_S_r _ _ e) by (apply list_lookup_insert_eq; lia).
    by rewrite take_insert_ge by lia. }
  assert (Hc' : c < length (table o)) by (by eapply lookup_lt_Some).
  split; [|done]. split.
  - simpl. intros Hnil. apply (f_equal length) in Hnil.
    rewrite length_insert in Hnil. pose proof (inv_table _ Hinv).
    destruct (table o); [done|]. simpl in Hnil. lia.
  - exists (<[s_len (entries o) := e]> arr). simpl.
    rewrite list_lookup_alter_eq, Ha. simpl. rewrite length_insert.
    split_and!; [done|lia|lia].
  - rewrite Hlive. intros e0 [He0|He0%list_elem_of_singleton]%elem_of_app;
      [by apply (inv_hash _ Hinv)|by subst].
  - rewrite Hlive, fmap_app. apply NoDup_app. split_and!.
    + apply (inv_keys _ Hinv).
    + intros k Hk Hk'%list_elem_of_singleton. subst k. by apply Hfresh.
    + apply NoDup_singleton.
  - simpl. intros c0 ch0 [(-> & <- & _)|[_ Hc0]]%list_lookup_insert_Some;
      [done|by apply (inv_chain _ Hinv c0)].
  - simpl. intros c0 ch0 p Hc0 Hp. rewrite Hlive.
    assert (Hold : ∀ c1 ch1, table o !! c1 = Some ch1 → in_chain ch1 p →
              p_array p = s_array (entries o)
              ∧ ∃ e0, (live_entries o ++ [e]) !! p_index p = Some e0
                      ∧ slot_index (<[c := ch']> (table o)) (hash e0) = c1).
    { intros c1 ch1 Hc1 Hp1.
      destruct (inv_ptr _ Hinv c1 ch1 p Hc1 Hp1) as (Hpa & e0 & He0 & Hs).
      split; [done|]. exists e0. rewrite slot_index_insert. split; [|done].
      rewrite lookup_app_l; [done|by eapply lookup_lt_Some]. }
    apply list_lookup_insert_Some in Hc0 as [(-> & <- & _)|[_ Hc0]].
    + apply Hin in Hp as [->|Hp]; [|by apply (Hold _ ch)].
      split; [done|]. exists e. simpl. rewrite slot_index_insert.
      split; [|done]. by apply list_lookup_middle.
    + by apply (Hold _ ch0).
  - simpl. rewrite Hlive. intros i e0 Hi. rewrite slot_index_insert.
    assert (Hnew : ∃ ch0, <[c := ch']> (table o) !! c = Some ch0
              ∧ in_chain ch0 (Ptr (s_array (entries o)) (s_len (entries o)))).
    { exists ch'. split; [by apply list_lookup_insert_eq|].
      apply Hin. by left. }
    apply lookup_app_Some in Hi as [Hi|[Hge Hi]].
    + destruct (inv_all _ Hinv i e0 Hi) as (ch0 & Hc0 & Hp0).
      destruct (decide (slot_index (table o) (hash e0) = c)) as [Heq|Hne].
      * rewrite Heq in *. exists ch'. split; [by apply list_lookup_insert_eq|].
        apply Hin. right. by simplify_eq.
      * exists ch0. by rewrite list_lookup_insert_ne.
    + rewrite Hn in *. apply list_lookup_singleton_Some in Hi as [Hi <-].
      replace i with (s_len (entries o)) by lia. by rewrite <- Hc.
  - simpl. rewrite length_insert. apply (inv_load _ Hinv).
Qed.

Lemma overloaded_mono (n m nb : Z) :
  (n ≤ m)%Z → hashtable.overloaded m nb = false →
  hashtable.overloaded n nb = false.
Proof.
  unfold hashtable.overloaded. rewrite !andb_false_iff, !Z.leb_gt. lia.
Qed.

Lemma inv_not_overloaded o :
  inv o →
  hashtable.overloaded (Z.of_nat (s_len (entries o)))
    (Z.of_nat (length (table o))) = false.
Proof.
  intros Hinv. destruct (inv_array _ Hinv) as (_ & _ & _ & Hle).
  apply (overloaded_mono _ (Z.of_nat (s_cap (entries o)))); [lia|].
  apply (inv_load _ Hinv).
Qed.

Lemma grow_loop_idle fuel (g : dict → outcome dict) o :
  hashtable.overloaded (Z.of_nat (s_len (entries o)))
    (Z.of_nat (length (table o))) = false →
  grow_loop fuel g o = Returns o.
Proof. intros Ho. destruct fuel; simpl; by rewrite Ho. Qed.

(** Without growth, [append] is its last part. *)
Lemma append_at_last fuel o h k v :
  inv o → append fuel o h k v = append_at o h k v.
Proof.
  intros Hinv. pose proof (inv_table _ Hinv) as Ht.
  pose proof (inv_not_overloaded o Hinv) as Ho.
  assert (match table o with [] => init o 1 | _ => Returns o end = Returns o)
    as Hinit by (by destruct (table o)).
  destruct fuel as [|fuel]; cbn [osd.append]; rewrite Hinit;
    cbn [mbind outcome_bind]; by rewrite grow_loop_idle.
Qed.

Lemma tidy_put ps m p :
  <[length ps := Some p]> ((Some <$> ps) ++ replicate (S m) None)
  = (Some <$> ps ++ [p]) ++ replicate m None.
Proof.
  rewrite insert_app_r_alt by (by rewrite length_fmap).
  rewrite length_fmap, Nat.sub_diag, fmap_app, <- app_assoc. done.
Qed.

(** The chain after [p] is put into the first nil slot of its last
    bucket. *)
Lemma chain_put ch j ps m p :
  chain_ok ch →
  ch !! j = Some ((Some <$> ps) ++ replicate (S m) None) → S j = length ch →
  chain_ok (alter (<[length ps := Some p]>) j ch)
  ∧ ∀ q, in_chain (alter (<[length ps := Some p]>) j ch) q
         ↔ q = p ∨ in_chain ch q.
Proof.
  intros [Htidy Hfull] Hj Hlen.
  rewrite (alter_insert _ _ _ _ Hj), tidy_put.
  assert (j < length ch) as Hlt by lia. split; [split|].
  - intros j' b [(<- & <- & _)|[_ Hj']]%list_lookup_insert_Some.
    + by eexists _, _.
    + by apply (Htidy j').
  - intros j' b [(<- & <- & _)|[Hne Hj']]%list_lookup_insert_Some;
      rewrite length_insert; [lia|]. by apply (Hfull j').
  - intros q. split.
    + intros (b & [j' Hb]%list_elem_of_lookup & Hq).
      apply list_lookup_insert_Some in Hb as [(<- & <- & _)|[_ Hb]].
      * apply elem_of_tidy, elem_of_app in Hq as [Hq|Hq%list_elem_of_singleton];
          [|by left].
        right. eexists. split; [by eapply list_elem_of_lookup_2|].
        by apply elem_of_tidy.
      * right. exists b. split; [by eapply list_elem_of_lookup_2|done].
    + intros [->|(b & [j' Hb]%list_elem_of_lookup & Hq)].
      * eexists. split.
        { eapply list_elem_of_lookup_2. by apply list_lookup_insert_eq. }
        apply elem_of_tidy, elem_of_app. right. by apply list_elem_of_singleton.
      * destruct (decide (j = j')) as [<-|Hne].
        { rewrite Hj in Hb. simplify_eq. eexists. split.
          { eapply list_elem_of_lookup_2. by apply list_lookup_insert_eq. }
          apply elem_of_tidy in Hq. apply elem_of_tidy, elem_of_app. by left. }
        exists b. split; [|done]. eapply list_elem_of_lookup_2.
        by rewrite list_lookup_insert_ne.
Qed.

(** The chain after a bucket with [p] in its first slot is added. *)
Lemma chain_add ch p :
  chain_ok ch → (∀ b, b ∈ ch → None ∉ b) →
  chain_ok (alter (<[0 := Some p]>) (length ch) (ch ++ [zero_osdBucket]))
  ∧ ∀ q, in_chain (alter (<[0 := Some p]>) (length ch) (ch ++ [zero_osdBucket])) q
         ↔ q = p ∨ in_chain ch q.
Proof.
  intros [Htidy Hfull] Hno.
  rewrite alter_app_r_alt, Nat.sub_diag by done.
  change (alter (<[0 := Some p]>) 0 [zero_osdBucket])
    with [(Some <$> [p]) ++ replicate 7 (@None ptr)].
  split; [split|].
  - intros j b [Hj|[_ Hj]]%lookup_app_Some; [by apply (Htidy j)|].
    apply list_lookup_singleton_Some in Hj as [_ <-]. by eexists _, _.
  - intros j b Hj Hlt. rewrite length_app in Hlt. simpl in Hlt.
    apply lookup_app_Some in Hj as [Hj|[Hge _]]; [|lia].
    apply Hno. by eapply list_elem_of_lookup_2.
  - intros q. unfold in_chain. split.
    + intros (b & [Hb|Hb%list_elem_of_singleton]%elem_of_app & Hq).
      * right. by exists b.
      * subst b. apply elem_of_tidy, list_elem_of_singleton in Hq. by left.
    + intros [->|(b & Hb & Hq)].
      * eexists. split; [apply elem_of_app; right; by apply list_elem_of_singleton|].
        apply elem_of_tidy. by apply list_elem_of_singleton.
      * exists b. split; [apply elem_of_app; by left|done].
Qed.

Lemma key_is_Keys o c ch p k :
  inv o → table o !! c = Some ch → in_chain ch p → key_is o k p = true →
  k ∈ Keys o.
Proof.
  intros Hinv Hc Hp Hk.
  destruct (inv_load_ptr o _ _ p Hinv Hc Hp) as (e & Hl & He & _).
  unfold key_is in Hk. rewrite Hl in Hk. apply String.eqb_eq in Hk. subst k.
  rewrite Keys_fmap. apply list_elem_of_fmap. exists e.
  split; [done|by eapply list_elem_of_lookup_2].
Qed.

(** [append] of a new key to a dictionary with room in its array. *)
Lemma append_room fuel o k v :
  inv o → s_len (entries o) < s_cap (entries o) → k ∉ Keys o →
  ∃ o', append fuel o (hs k) k v = Returns (o', None)
    ∧ inv o'
    ∧ live_entries o' = live_entries o ++ [OsdEntry (hs k) k v]
    ∧ s_cap (entries o') = s_cap (entries o).
Proof.
  intros Hinv Hroom Hfresh. rewrite append_at_last by done.
  pose proof (inv_table _ Hinv) as Ht.
  destruct (lookup_lt_is_Some_2 (table o) (slot_index (table o) (hs k)))
    as [ch Hch]; [by apply osd_slot_index_lt|].
  pose proof (inv_chain _ Hinv _ _ Hch) as Hok.
  destruct (pos_buckets_spec o ch k 0 Hok) as (r & Hr & Hspec).
  { intros p Hp. destruct (inv_load_ptr o _ ch p Hinv Hch Hp) as (e & ? & _).
    by exists e. }
  set (e := OsdEntry (hs k) k v).
  unfold osd.append_at. rewrite Hch. cbn [mbind outcome_bind deref].
  rewrite Hr. cbn [mbind outcome_bind].
  destruct r as [bi i| |].
  - destruct Hspec as (_ & j & ps & m & -> & Hj & -> & Hlen).
    destruct (chain_put ch j ps m
                (Ptr (s_array (entries o)) (s_len (entries o))) Hok Hj Hlen)
      as [Hok' Hin].
    destruct (inv_extend o _ ch _ e Hinv Hroom Hfresh eq_refl eq_refl Hch Hok' Hin)
      as [Hinv' Hlive].
    eexists. split; [reflexivity|].
    rewrite append_entry_room by done. simpl. rewrite Nat.sub_0_r.
    rewrite (alter_insert _ _ _ _ Hch). by split_and!.
  - exfalso. destruct Hspec as (p & Hp & Hk).
    apply Hfresh. by apply (key_is_Keys o _ ch p k Hinv Hch Hp).
  - destruct Hspec as [_ Hno].
    destruct (chain_add ch (Ptr (s_array (entries o)) (s_len (entries o)))
                Hok Hno) as [Hok' Hin].
    destruct (inv_extend o _ ch _ e Hinv Hroom Hfresh eq_refl eq_refl Hch Hok' Hin)
      as [Hinv' Hlive].
    eexists. split; [reflexivity|].
    rewrite append_entry_room by done. simpl. rewrite Nat.sub_0_r.
    rewrite (alter_insert _ _ _ _ Hch).
    rewrite (alter_insert _ _ _ (ch ++ [zero_osdBucket]))
      by (apply list_lookup_insert_eq; by eapply lookup_lt_Some).
    rewrite list_insert_insert_eq. by split_and!.
Qed.

(** [append] of a key that the dictionary has. *)
Lemma append_present fuel o i e v :
  inv o → live_entries o !! i = Some e →
  append fuel o (hs (key e)) (key e) v
  = Returns (o, Some ("duplicate key " ++ key e)%string).
Proof.
  intros Hinv Hi. rewrite append_at_last by done.
  pose proof (inv_hash _ Hinv e (list_elem_of_lookup_2 _ _ _ Hi)) as Hh.
  destruct (inv_all _ Hinv i e Hi) as (ch & Hch & Hin). rewrite Hh in Hch.
  pose proof (inv_chain _ Hinv _ _ Hch) as Hok.
  destruct (pos_buckets_spec o ch (key e) 0 Hok) as (r & Hr & Hspec).
  { intros p Hp. destruct (inv_load_ptr o _ ch p Hinv Hch Hp) as (e' & ? & _).
    by exists e'. }
  unfold osd.append_at. rewrite Hch. cbn [mbind outcome_bind deref].
  rewrite Hr. cbn [mbind outcome_bind].
  assert (key_is o (key e) (Ptr (s_array (entries o)) i) = true) as Hk.
  { unfold key_is. by rewrite (load_live _ _ _ Hi), String.eqb_refl. }
  destruct r as [bi j| |]; [|done|]; destruct Hspec as [Hnone _];
    specialize (Hnone _ Hin); congruence.
Qed.

(** ** [init] *)

Lemma init_inv (size : Z) :
  (0 ≤ size)%Z →
  ∃ o, init zero size = Returns o
    ∧ inv o
    ∧ live_entries o = []
    ∧ s_len (entries o) = 0
    ∧ s_cap (entries o) = Z.to_nat size.
Proof.
  intros Hsize. unfold osd.init.
  destruct (Z.ltb_spec size 0%Z) as [|_]; [lia|].
  destruct (table_facts.init_nb_returns size
              (Z.to_nat (Z.log2_up (size + 1))) 1) as (nb & -> & Hnb & Ho);
    [lia| |].
  { rewrite Z2Nat.id by apply Z.log2_up_nonneg.
    destruct (Z.eq_dec size 0%Z) as [->|]; [done|].
    pose proof (Z.log2_up_spec (size + 1)). lia. }
  eexists. split; [reflexivity|]. split_and!; try done. split; simpl.
  - destruct nb; [lia|done].
  - eexists. split; [done|]. rewrite length_replicate. lia.
  - unfold live_entries. simpl. by intros e ?%elem_of_nil.
  - unfold live_entries. simpl. constructor.
  - intros c ch [-> _]%lookup_replicate. split.
    + intros j b [_ <-]%list_lookup_singleton_Some. by exists [], 8.
    + intros j b _ Hlt. simpl in Hlt. lia.
  - intros c ch p [-> _]%lookup_replicate (b & ->%list_elem_of_singleton & Hp).
    by apply elem_of_replicate in Hp as [? _].
  - unfold live_entries. simpl. by intros i e.
  - rewrite length_replicate, Z2Nat.id by done. done.
Qed.

(** ** A sequence of appends *)

Lemma appends_room fuel (f : string → V) ks : ∀ o,
  inv o → s_len (entries o) + length ks ≤ s_cap (entries o) →
  NoDup ks → (∀ k, k ∈ ks → k ∉ Keys o) →
  ∃ o', foldl (λ acc key,
                 x ← acc;
                 '(x', _) ← append fuel x (hs key) key (f key);
                 Returns x')
              (Returns o) ks = Returns o'
    ∧ inv o'
    ∧ live_entries o'
      = live_entries o ++ ((λ k, OsdEntry (hs k) k (f k)) <$> ks)
    ∧ s_cap (entries o') = s_cap (entries o).
Proof.
  induction ks as [|k ks IH]; intros o Hinv Hroom Hnd Hfresh.
  { exists o. by rewrite app_nil_r. }
  apply NoDup_cons in Hnd as [Hk Hnd]. simpl in Hroom.
  destruct (append_room fuel o k (f k) Hinv) as (o1 & Happ & Hinv1 & Hlive1 & Hcap1);
    [lia|apply Hfresh, elem_of_cons; by left|].
  pose proof (length_live _ Hinv) as Hn. pose proof (length_live _ Hinv1) as Hn1.
  rewrite Hlive1, length_app in Hn1. simpl in Hn1.
  destruct (IH o1 Hinv1) as (o' & Hfold & Hinv' & Hlive' & Hcap'); [lia|done| |].
  { intros k' Hk'. rewrite Keys_fmap, Hlive1, fmap_app.
    intros [Hin|Hin%list_elem_of_singleton]%elem_of_app.
    - apply (Hfresh k'); [apply elem_of_cons; by right|done].
    - simpl in Hin. by subst. }
  exists o'. simpl. rewrite Happ. simpl. rewrite Hfold.
  split_and!; [done|done| |congruence].
  rewrite Hlive', Hlive1, <- app_assoc. done.
Qed.

(** ** [Get], [Set] and [Index] under the invariant *)

Lemma entry_at_live o i : entry_at o i = live_entries o !! i.
Proof.
  unfold entry_at, live_entries, load. simpl. rewrite lookup_take.
  case_decide; [|done]. by destruct (arrays o !! s_array (entries o)).
Qed.

Lemma Keys_lookup o i k :
  Keys o !! i = Some k ↔ ∃ e, live_entries o !! i = Some e ∧ key e = k.
Proof.
  rewrite Keys_fmap, list_lookup_fmap. split.
  - destruct (live_entries o !! i) as [e|]; [|done]. intros [= <-]. by exists e.
  - by intros (e & -> & <-).
Qed.

Lemma Get_live o i e :
  inv o → live_entries o !! i = Some e → Get o (key e) = Returns (value e, true).
Proof.
  intros Hinv Hi. unfold osd.Get. rewrite (getEntry_found o i e Hinv Hi). simpl.
  by rewrite (load_live _ _ _ Hi).
Qed.

Lemma Get_missing o k :
  inv o → k ∉ Keys o → Get o k = Returns (None_, false).
Proof.
  intros Hinv Hk. unfold osd.Get. by rewrite (getEntry_missing o _ k Hinv Hk).
Qed.

Lemma Set_live o i e v :
  inv o → live_entries o !! i = Some e →
  Set_ o (key e) v
  = Returns (store o (Ptr (s_array (entries o)) i) (OsdEntry (hash e) (key e) v),
             true).
Proof.
  intros Hinv Hi. unfold osd.Set_. rewrite (getEntry_found o i e Hinv Hi). simpl.
  by rewrite (load_live _ _ _ Hi).
Qed.

Lemma Set_absent o k v : inv o → k ∉ Keys o → Set_ o k v = Returns (o, false).
Proof.
  intros Hinv Hk. unfold osd.Set_. by rewrite (getEntry_missing o _ k Hinv Hk).
Qed.

(** A key is the key of an entry, or of none. *)
Lemma Keys_cases o k :
  inv o → k ∉ Keys o ∨ ∃ i e, live_entries o !! i = Some e ∧ key e = k.
Proof.
  intros Hinv.
  destruct (getEntry_spec o (hs k) k Hinv) as (r & ch & Hch & Hr & Hsome & _).
  destruct r as [p|].
  - right. destruct (Hsome p eq_refl) as [Hp Hm].
    destruct (inv_load_ptr o _ _ p Hinv Hch Hp) as (e & Hl & He & _).
    unfold matches in Hm. rewrite Hl in Hm.
    apply andb_true_iff in Hm as [_ Hk%String.eqb_eq]. by exists (p_index p), e.
  - left. intros (e & -> & [i Hi]%list_elem_of_lookup)%list_elem_of_fmap.
    by rewrite (getEntry_found o i e Hinv Hi) in Hr.
Qed.

(** ** The dictionaries of [OrderStringDict] *)

Lemma keys_of_entries (f : string → V) (ks : list string) :
  key <$> ((λ k, OsdEntry (hs k) k (f k)) <$> ks) = ks.
Proof. induction ks as [|k ks IH]; csimpl; [done|]. by rewrite IH. Qed.

Lemma OrderStringDict_inv fuel (d : starlarkstruct.StringDict V) :
  ∃ o, OrderStringDict fuel d = Returns o
    ∧ inv o
    ∧ live_entries o
      = (λ k, OsdEntry (hs k) k (default nilV (starlarkstruct.sd_get d k)))
        <$> starlarkstruct.sd_Keys d.
Proof.
  unfold orderdict.OrderStringDict.
  destruct (init_inv (Z.of_nat (starlarkstruct.sd_len d)))
    as (o0 & -> & Hinv0 & Hlive0 & Hlen0 & Hcap0); [lia|].
  cbn [mbind outcome_bind].
  destruct (appends_room fuel
              (λ k, default nilV (starlarkstruct.sd_get d k))
              (starlarkstruct.sd_Keys d) o0 Hinv0)
    as (o & Hfold & Hinv & Hlive & _).
  - rewrite Hlen0, Hcap0, Nat2Z.id. unfold starlarkstruct.sd_len. lia.
  - apply struct_facts.ascending_NoDup, struct_facts.ascending_Keys.
  - intros k _. rewrite Keys_fmap, Hlive0. by intros ?%elem_of_nil.
  - exists o. rewrite Hlive0 in Hlive. by split_and!.
Qed.

(** The dictionaries that [OrderStringDict] builds and that [Set]
    changes afterwards. *)
Inductive ordered : dict → Prop :=
| ordered_build fuel (d : starlarkstruct.StringDict V) o :
    OrderStringDict fuel d = Returns o → ordered o
| ordered_set o k v o' found :
    ordered o → Set_ o k v = Returns (o', found) → ordered o'.

Lemma Set_inv o k v o' found :
  inv o → Set_ o k v = Returns (o', found) → inv o' ∧ Keys o' = Keys o.
Proof.
  intros Hinv HS. destruct (Keys_cases o k Hinv) as [Hk|(i & e & Hi & <-)].
  - rewrite (Set_absent o k v Hinv Hk) in HS. by simplify_eq.
  - rewrite (Set_live o i e v Hinv Hi) in HS. simplify_eq.
    split; [by apply inv_store|].
    rewrite !Keys_fmap, (live_store _ _ _ _ Hi), list_fmap_insert. simpl.
    apply list_insert_id. by rewrite list_lookup_fmap, Hi.
Qed.

Lemma ordered_inv o : ordered o → inv o ∧ struct_facts.ascending (Keys o).
Proof.
  induction 1 as [fuel d o Hb|o k v o' found _ [IH1 IH2] HS].
  - destruct (OrderStringDict_inv fuel d) as (o1 & Ho1 & Hinv & Hlive).
    rewrite Hb in Ho1. simplify_eq. split; [done|].
    rewrite Keys_fmap, Hlive, keys_of_entries.
    apply struct_facts.ascending_Keys.
  - destruct (Set_inv o k v o' found IH1 HS) as [Hinv HK]. by rewrite HK.
Qed.

(** X21. [OrderStringDict] returns a dictionary whose keys are the keys
    of the string dictionary in ascending order: [Get] finds each key
    with its value and reports any other key as missing, and [Index] and
    [KeyIndex] give the value and the key at each position and panic
    from [Len] on. *)
Theorem OrderStringDict_lookup fuel (d : starlarkstruct.StringDict V) :
  ∃ o, OrderStringDict fuel d = Returns o
    ∧ Keys o = starlarkstruct.sd_Keys d
    ∧ Len o = starlarkstruct.sd_len d
    ∧ (∀ k, Get o k
            = Returns match starlarkstruct.sd_get d k with
                      | Some v => (v, true)
                      | None => (None_, false)
                      end)
    ∧ (∀ i k, starlarkstruct.sd_Keys d !! i = Some k →
         ∃ v, starlarkstruct.sd_get d k = Some v
              ∧ Index o i = Returns v
              ∧ KeyIndex o i = Returns (k, v))
    ∧ (∀ i, starlarkstruct.sd_len d ≤ i →
         Index o i = Panics ∧ KeyIndex o i = Panics).
Proof.
  destruct (OrderStringDict_inv fuel d) as (o & Ho & Hinv & Hlive).
  assert (HK : Keys o = starlarkstruct.sd_Keys d).
  { by rewrite Keys_fmap, Hlive, keys_of_entries. }
  assert (HL : Len o = starlarkstruct.sd_len d).
  { unfold Len. rewrite <- (length_live o Hinv), Hlive, length_fmap. done. }
  assert (Hval : ∀ k, k ∈ starlarkstruct.sd_Keys d →
            ∃ v, starlarkstruct.sd_get d k = Some v).
  { intros k Hk. destruct (starlarkstruct.sd_get d k) as [v|] eqn:Hg; [by exists v|].
    apply struct_more.sd_get_None in Hg. by apply struct_facts.elem_of_Keys in Hk. }
  exists o. split_and!; try done.
  - intros k. destruct (starlarkstruct.sd_get d k) as [v|] eqn:Hg.
    + assert (k ∈ starlarkstruct.sd_Keys d) as [i Hi]%list_elem_of_lookup.
      { by apply struct_facts.elem_of_Keys, (struct_more.sd_get_Some d k v). }
      apply (Get_live o i (OsdEntry (hs k) k v) Hinv).
      rewrite Hlive, list_lookup_fmap, Hi. simpl. by rewrite Hg.
    + apply Get_missing; [done|]. rewrite HK.
      apply struct_more.sd_get_None in Hg.
      by rewrite struct_facts.elem_of_Keys.
  - intros i k Hi.
    destruct (Hval k (list_elem_of_lookup_2 _ _ _ Hi)) as [v Hv]. exists v.
    unfold osd.Index, osd.KeyIndex.
    rewrite entry_at_live, Hlive, list_lookup_fmap, Hi. simpl. by rewrite Hv.
  - intros i Hi. unfold osd.Index, osd.KeyIndex.
    rewrite entry_at_live, (lookup_ge_None_2 (live_entries o)); [done|].
    rewrite (length_live o Hinv). unfold Len in HL. lia.
Qed.

(** X22. On a dictionary that [OrderStringDict] built, [Set] reports
    whether the key is one of [Keys].  For a key of the dictionary, [Get]
    and [Index] at the position of the key return the new value
    afterwards; the keys, their order and the values of the other keys
    stay as they are.  For any other key nothing changes. *)
Theorem Set_then_Get o k v :
  ordered o →
  ∃ o' found, Set_ o k v = Returns (o', found)
    ∧ ordered o'
    ∧ (found = true ↔ k ∈ Keys o)
    ∧ Keys o' = Keys o
    ∧ Len o' = Len o
    ∧ (found = true → Get o' k = Returns (v, true))
    ∧ (∀ i, Keys o !! i = Some k →
         Index o' i = Returns v ∧ KeyIndex o' i = Returns (k, v))
    ∧ (∀ k', k' ≠ k → Get o' k' = Get o k')
    ∧ (∀ i, Keys o !! i ≠ Some k → Index o' i = Index o i)
    ∧ (found = false → o' = o).
Proof.
  intros Hord. destruct (ordered_inv o Hord) as [Hinv _].
  destruct (Keys_cases o k Hinv) as [Hk|(i & e & Hi & <-)].
  - pose proof (Set_absent o k v Hinv Hk) as HS.
    exists o, false. split_and!; try done.
    intros j Hj. destruct Hk. by eapply list_elem_of_lookup_2.
  - pose proof (Set_live o i e v Hinv Hi) as HS.
    set (e' := OsdEntry (hash e) (key e) v) in *.
    set (o' := store o (Ptr (s_array (entries o)) i) e') in *.
    destruct (Set_inv o (key e) v o' true Hinv HS) as [Hinv' HK].
    pose proof (live_store o i e e' Hi) as Hlive. fold o' in Hlive.
    assert (Hi' : live_entries o' !! i = Some e').
    { rewrite Hlive. apply list_lookup_insert_eq. by eapply lookup_lt_Some. }
    exists o', true. split_and!; try done.
    + by apply (ordered_set o (key e) v o' true).
    + split; [|done]. intros _. rewrite Keys_fmap. apply list_elem_of_fmap.
      exists e. split; [done|by eapply list_elem_of_lookup_2].
    + intros _. apply (Get_live o' i e' Hinv' Hi').
    + intros j (e1 & Hj & Hk)%Keys_lookup.
      assert (j = i) as ->.
      { eapply (NoDup_lookup _ _ _ (key e) (inv_keys _ Hinv)).
        - rewrite list_lookup_fmap, Hj. simpl. by rewrite Hk.
        - by rewrite list_lookup_fmap, Hi. }
      unfold osd.Index, osd.KeyIndex. by rewrite entry_at_live, Hi'.
    + intros k' Hne.
      destruct (Keys_cases o k' Hinv) as [Hk'|(j & e1 & Hj & <-)].
      * rewrite (Get_missing o k' Hinv Hk').
        apply Get_missing; [done|]. by rewrite HK.
      * assert (j ≠ i) by (intros ->; by simplify_eq).
        rewrite (Get_live o j e1 Hinv Hj). apply (Get_live o' j e1 Hinv').
        by rewrite Hlive, list_lookup_insert_ne.
    + intros j Hj. unfold osd.Index. rewrite !entry_at_live, Hlive.
      destruct (decide (i = j)) as [<-|Hne]; [|by rewrite list_lookup_insert_ne].
      destruct Hj. apply Keys_lookup. by exists e.
Qed.

(** X23. On a dictionary that [OrderStringDict] built, with or without
    calls of [Set] afterwards, the keys ascend, and [Get] agrees with the
    sequence: for the key at a position it returns the value that
    [Index] and [KeyIndex] return for the position, for a key at no
    position it reports that the key is missing, and [Index] panics from
    [Len] on. *)
Theorem Get_agrees_with_Index o :
  ordered o →
  struct_facts.ascending (Keys o)
  ∧ length (Keys o) = Len o
  ∧ (∀ i k, Keys o !! i = Some k →
       ∃ v, Get o k = Returns (v, true)
            ∧ Index o i = Returns v
            ∧ KeyIndex o i = Returns (k, v))
  ∧ (∀ k, k ∉ Keys o → Get o k = Returns (None_, false))
  ∧ (∀ i, Len o ≤ i → Index o i = Panics ∧ KeyIndex o i = Panics).
Proof.
  intros Hord. destruct (ordered_inv o Hord) as [Hinv Hasc].
  split_and!; try done.
  - rewrite Keys_fmap, length_fmap. apply (length_live o Hinv).
  - intros i k (e & Hi & <-)%Keys_lookup. exists (value e).
    unfold osd.Index, osd.KeyIndex. rewrite entry_at_live, Hi.
    split_and!; try done. by apply (Get_live o i e).
  - intros k Hk. by apply Get_missing.
  - intros i Hi. unfold osd.Index, osd.KeyIndex.
    rewrite entry_at_live, (lookup_ge_None_2 (live_entries o)); [done|].
    rewrite (length_live o Hinv). unfold Len in Hi. lia.
Qed.

(** X24. [append] of a key that is one of [Keys], with the hash of the
    key, on a dictionary that [OrderStringDict] built: the error
    "duplicate key" with the key is returned and the dictionary stays as
    it is. *)
Theorem append_duplicate fuel o k v :
  ordered o → k ∈ Keys o →
  append fuel o (hs k) k v = Returns (o, Some ("duplicate key " ++ k)%string).
Proof.
  intros Hord Hk. destruct (ordered_inv o Hord) as [Hinv _].
  rewrite Keys_fmap in Hk.
  apply list_elem_of_fmap in Hk as (e & -> & [i Hi]%list_elem_of_lookup).
  by apply (append_present fuel o i e v).
Qed.

End Built.

End osd_more.


(** * A dictionary of two keys in order *)

Module osd_more_examples.
Import osd osd_more.
#[local] Open Scope string_scope.

(** The runtime's hash is not called for keys shorter than twelve
    bytes, and the growth of capacities is not used by a dictionary that
    [OrderStringDict] builds. *)
Definition noStringHash (s : string) : Z := 0%Z.
Definition growcap (n : nat) : nat := 2 * n + 1.

Abbreviation OrderStringDict :=
  (orderdict.OrderStringDict 0%Z noStringHash growcap).
Abbreviation ordered := (osd_more.ordered 0%Z noStringHash growcap).
Abbreviation Set_ := (@osd.Set_ Z noStringHash).
Abbreviation Get := (@osd.Get Z (-1)%Z noStringHash).
Abbreviation append := (osd.append 0%Z growcap).

(** {"b": 2, "a": 1} *)
Definition some_dict : starlarkstruct.StringDict Z :=
  [("b", 2%Z); ("a", 1%Z)].

Definition two_keys : @OrderedStringDict Z :=
  match OrderStringDict 0 some_dict with
  | Returns o => o
  | _ => osd.zero
  end.

Lemma two_keys_ordered : ordered two_keys.
Proof. apply (ordered_build 0%Z noStringHash growcap 0 some_dict). reflexivity. Qed.

Example two_keys_Keys : Keys two_keys = ["a"; "b"].
Proof. reflexivity. Qed.

Lemma OrderStringDict_lookup_witness :
  ∃ o, OrderStringDict 0 some_dict = Returns o
    ∧ Keys o = starlarkstruct.sd_Keys some_dict
    ∧ Len o = starlarkstruct.sd_len some_dict
    ∧ (∀ k, Get o k
            = Returns match starlarkstruct.sd_get some_dict k with
                      | Some v => (v, true)
                      | None => ((-1)%Z, false)
                      end)
    ∧ (∀ i k, starlarkstruct.sd_Keys some_dict !! i = Some k →
         ∃ v, starlarkstruct.sd_get some_dict k = Some v
              ∧ Index o i = Returns v
              ∧ KeyIndex o i = Returns (k, v))
    ∧ (∀ i, starlarkstruct.sd_len some_dict ≤ i →
         Index o i = Panics ∧ KeyIndex o i = Panics).
Proof.
  apply (OrderStringDict_lookup 0%Z (-1)%Z noStringHash growcap 0 some_dict).
Defined.

Lemma Set_then_Get_witness :
  ∃ o' found, Set_ two_keys "a" 9%Z = Returns (o', found)
    ∧ ordered o'
    ∧ (found = true ↔ "a" ∈ Keys two_keys)
    ∧ Keys o' = Keys two_keys
    ∧ Len o' = Len two_keys
    ∧ (found = true → Get o' "a" = Returns (9%Z, true))
    ∧ (∀ i, Keys two_keys !! i = Some "a" →
         Index o' i = Returns 9%Z ∧ KeyIndex o' i = Returns ("a", 9%Z))
    ∧ (∀ k', k' ≠ "a" → Get o' k' = Get two_keys k')
    ∧ (∀ i, Keys two_keys !! i ≠ Some "a" → Index o' i = Index two_keys i)
    ∧ (found = false → o' = two_keys).
Proof.
  apply (Set_then_Get 0%Z (-1)%Z noStringHash growcap two_keys "a" 9%Z).
  apply two_keys_ordered.
Defined.

Lemma Get_agrees_with_Index_witness :
  struct_facts.ascending (Keys two_keys)
  ∧ length (Keys two_keys) = Len two_keys
  ∧ (∀ i k, Keys two_keys !! i = Some k →
       ∃ v, Get two_keys k = Returns (v, true)
            ∧ Index two_keys i = Returns v
            ∧ KeyIndex two_keys i = Returns (k, v))
  ∧ (∀ k, k ∉ Keys two_keys → Get two_keys k = Returns ((-1)%Z, false))
  ∧ (∀ i, Len two_keys ≤ i →
       Index two_keys i = Panics ∧ KeyIndex two_keys i = Panics).
Proof.
  apply (Get_agrees_with_Index 0%Z (-1)%Z noStringHash growcap two_keys).
  apply two_keys_ordered.
Defined.

Lemma append_duplicate_witness :
  append 1 two_keys (hashString noStringHash "b") "b" 7%Z
  = Returns (two_keys, Some "duplicate key b").
Proof.
  apply (append_duplicate 0%Z noStringHash growcap 1 two_keys "b" 7%Z).
  - apply two_keys_ordered.
  - vm_compute. apply elem_of_cons. right. apply elem_of_cons. by left.
Defined.

End osd_more_examples.
